(** * Knowledge-graph core of jemanote-pwa: graph indexer and force simulation

  Shallow embedding of
  - [GraphIndexer] (the graph indexing service: link extraction, link
    resolution, edge construction, deduplication, backlinks, shortest path),
  - the node classification of [GraphView.loadGraph],
  - the physics worker [public/graph-worker.js].

  JavaScript strings are modelled as Rocq strings whose characters are
  UTF-16 code units below 256 (the Latin-1 range); comparison, case
  mapping, trimming and the regular-expression classes below are the
  ECMAScript ones restricted to that range.  JavaScript numbers of the
  worker are IEEE-754 binary64 values, i.e. Rocq's primitive floats. *)

From Stdlib Require Import String Ascii ZArith Floats.
From stdpp Require Import gmap strings list fin_maps sorting.

Local Open Scope string_scope.
Local Open Scope nat_scope.
Local Open Scope list_scope.
Set Warnings "-inexact-float".

(** ** JavaScript string primitives *)
Module JS.

Definition code (c : ascii) : nat := nat_of_ascii c.

(** [String.prototype.toLowerCase] on one code unit of the Latin-1 range:
    A-Z, and U+00C0..U+00DE except U+00D7, move up by 32. *)
Definition lower_char (c : ascii) : ascii :=
  let n := code c in
  if ((65 <=? n) && (n <=? 90)) || ((192 <=? n) && (n <=? 214))
     || ((216 <=? n) && (n <=? 222))
  then ascii_of_nat (n + 32) else c.

Fixpoint toLowerCase (s : string) : string :=
  match s with
  | EmptyString => EmptyString
  | String c s' => String (lower_char c) (toLowerCase s')
  end.

(** White space and line terminators removed by [trim]. *)
Definition is_space (c : ascii) : bool :=
  let n := code c in
  ((9 <=? n) && (n <=? 13)) || (n =? 32) || (n =? 160).

Fixpoint trimStart (s : string) : string :=
  match s with
  | String c s' => if is_space c then trimStart s' else s
  | EmptyString => EmptyString
  end.

Fixpoint trimEnd (s : string) : string :=
  match s with
  | EmptyString => EmptyString
  | String c s' =>
      match trimEnd s' with
      | EmptyString => if is_space c then EmptyString else String c EmptyString
      | t => String c t
      end
  end.

Definition trim (s : string) : string := trimEnd (trimStart s).

Definition startsWith (s p : string) : bool := String.prefix p s.

(** Truthiness of a string value: only the empty string is falsy. *)
Definition truthy (s : string) : bool :=
  match s with EmptyString => false | _ => true end.

(** [a < b] on strings: lexicographic order of the code units. *)
Definition lt (a b : string) : bool := String.ltb a b.

(** [s.split(sep)] for a one-character separator: never empty. *)
Fixpoint split (sep : ascii) (s : string) : list string :=
  match s with
  | EmptyString => [EmptyString]
  | String c s' =>
      if Ascii.eqb c sep then EmptyString :: split sep s'
      else match split sep s' with
           | seg :: segs => String c seg :: segs
           | [] => [String c EmptyString]
           end
  end.

(** [arr.pop()] read as a value: the last element, if any. *)
Definition pop {A} (l : list A) : option A := last l.

(** [s.replace(/suffix$/, '')] for a literal suffix: the search scans the
    positions from the left and deletes the first place where the rest of
    the string is exactly the suffix. *)
Fixpoint stripSuffix (suffix s : string) {struct s} : string :=
  if String.eqb s suffix then EmptyString
  else match s with
       | EmptyString => EmptyString
       | String c s' => String c (stripSuffix suffix s')
       end.

(** [s.replace(/^prefix/, '')] for a literal prefix. *)
Definition stripPrefix (prefix s : string) : string :=
  if String.prefix prefix s
  then String.substring (String.length prefix)
                        (String.length s - String.length prefix) s
  else s.

End JS.

(** ** Regular expressions: a backtracking matcher after ECMA-262

  The matcher follows the specification's continuation semantics
  (22.2.2): a pattern is run on a state and a continuation, a quantifier
  tries its atom and the continuation in the order its greediness gives,
  and an iteration of a quantifier with no remaining minimum fails when it
  consumes nothing.  [exec] is [RegExpBuiltinExec] for a global,
  non-sticky expression: the search starts at [lastIndex], the first
  position with a match wins, and [lastIndex] becomes the end of the match
  or 0 when there is none. *)
Module Regex.

Inductive class_atom : Type :=
| CAChar (c : ascii)
| CAWord.                       (* \w *)

Inductive regex : Type :=
| Lit (c : ascii)
| Dot                           (* any code unit but a line terminator *)
| Class (negated : bool) (atoms : list class_atom)
| Cat (r1 r2 : regex)
| Group (n : nat) (r : regex)   (* capturing group number n *)
| Quant (r : regex) (min : nat) (max : option nat) (greedy : bool).

Definition Plus (r : regex) : regex := Quant r 1 None true.
Definition Opt (r : regex) : regex := Quant r 0 (Some 1) true.
Definition StarLazy (r : regex) : regex := Quant r 0 None false.

Definition is_word (c : ascii) : bool :=
  let n := JS.code c in
  ((48 <=? n) && (n <=? 57)) || ((65 <=? n) && (n <=? 90))
  || ((97 <=? n) && (n <=? 122)) || (n =? 95).

Definition is_line_terminator (c : ascii) : bool :=
  let n := JS.code c in (n =? 10) || (n =? 13).

Definition atom_matches (a : class_atom) (c : ascii) : bool :=
  match a with
  | CAChar c' => Ascii.eqb c c'
  | CAWord => is_word c
  end.

Definition class_matches (negated : bool) (atoms : list class_atom)
    (c : ascii) : bool :=
  xorb negated (existsb (fun a => atom_matches a c) atoms).

(** Matcher state: the end index, the input from there on, and the
    captures recorded so far (latest first). *)
Record mstate : Type := MState {
  endIndex : nat;
  rest : string;
  captures : list (nat * string)
}.

Definition step_char (p : ascii -> bool) (c : mstate -> option mstate)
    (x : mstate) : option mstate :=
  match rest x with
  | String a s' =>
      if p a then c (MState (S (endIndex x)) s' (captures x)) else None
  | EmptyString => None
  end.

Fixpoint groups (r : regex) : list nat :=
  match r with
  | Lit _ | Dot | Class _ _ => []
  | Cat r1 r2 => groups r1 ++ groups r2
  | Group n r' => n :: groups r'
  | Quant r' _ _ _ => groups r'
  end.

Definition clear_captures (gs : list nat) (x : mstate) : mstate :=
  MState (endIndex x) (rest x)
         (List.filter (fun nc => negb (existsb (Nat.eqb (fst nc)) gs))
                      (captures x)).

Definition set_capture (n : nat) (x y : mstate) : mstate :=
  MState (endIndex y) (rest y)
         ((n, String.substring 0 (endIndex y - endIndex x) (rest x))
            :: captures y).

Definition max_is_zero (max : option nat) : bool :=
  match max with Some 0 => true | _ => false end.

(** [RepeatMatcher]: [fuel] bounds the number of iterations; an iteration
    either lowers [min] or consumes a code unit, so [min + length rest + 1]
    is never exhausted. *)
Fixpoint repeat_matcher (m : (mstate -> option mstate) -> mstate -> option mstate)
    (gs : list nat) (greedy : bool) (c : mstate -> option mstate)
    (fuel : nat) (min : nat) (max : option nat) (x : mstate)
    {struct fuel} : option mstate :=
  match fuel with
  | 0 => None
  | S fuel' =>
      if max_is_zero max then c x
      else
        let d := fun y =>
          if (min =? 0) && (endIndex y =? endIndex x) then None
          else repeat_matcher m gs greedy c fuel' (Nat.pred min)
                              (Nat.pred <$> max) y in
        let xr := clear_captures gs x in
        if negb (min =? 0) then m d xr
        else if greedy then
          match m d xr with Some z => Some z | None => c x end
        else
          match c x with Some z => Some z | None => m d xr end
  end.

Fixpoint matcher (r : regex) (c : mstate -> option mstate) (x : mstate)
    {struct r} : option mstate :=
  match r with
  | Lit a => step_char (Ascii.eqb a) c x
  | Dot => step_char (fun a => negb (is_line_terminator a)) c x
  | Class negated atoms => step_char (class_matches negated atoms) c x
  | Cat r1 r2 => matcher r1 (matcher r2 c) x
  | Group n r' => matcher r' (fun y => c (set_capture n x y)) x
  | Quant r' min max greedy =>
      repeat_matcher (matcher r') (groups r') greedy c
                     (min + String.length (rest x) + 1) min max x
  end.

(** A successful match: where it starts, where it ends, its captures. *)
Record rmatch : Type := RMatch {
  index : nat;
  lastEnd : nat;
  caps : list (nat * string)
}.

Definition match_at (r : regex) (s : string) (i : nat) : option mstate :=
  matcher r Some (MState i s []).

(** Search from position [i], where [s] is the input from [i] on. *)
Fixpoint search (r : regex) (s : string) (i : nat) : option rmatch :=
  match match_at r s i with
  | Some y => Some (RMatch i (endIndex y) (captures y))
  | None =>
      match s with
      | String _ s' => search r s' (S i)
      | EmptyString => None
      end
  end.

Fixpoint drop (n : nat) (s : string) : string :=
  match n, s with
  | S n', String _ s' => drop n' s'
  | _, _ => s
  end.

(** [r.exec(s)] for a global [r]: the result and the new [lastIndex]. *)
Definition exec (r : regex) (s : string) (lastIndex : nat)
    : option rmatch * nat :=
  if String.length s <? lastIndex then (None, 0)
  else match search r (drop lastIndex s) lastIndex with
       | Some m => (Some m, lastEnd m)
       | None => (None, 0)
       end.

(** The text of capture group [n] of a match. *)
Definition group (n : nat) (m : rmatch) : option string :=
  snd <$> List.find (fun nc => Nat.eqb (fst nc) n) (caps m).

(** The matched text, [match[0]]. *)
Definition matched (s : string) (m : rmatch) : string :=
  String.substring (index m) (lastEnd m - index m) s.

End Regex.

(** ** The graph indexer (class [GraphIndexer]) *)
Module GraphIndexer.
Import Regex.

(** [Note]: the fields the indexer reads. *)
Record Note : Type := mkNote {
  id : string;
  title : string;
  content : string
}.

Inductive edge_type : Type := wikilink | mdlink | backlink.

(** The type of an extracted link: ['wikilink' | 'mdlink']. *)
Inductive link_type : Type := LWikilink | LMdlink.

Definition edge_type_of (t : link_type) : edge_type :=
  match t with LWikilink => wikilink | LMdlink => mdlink end.

Record Link : Type := mkLink {
  target : string;
  ltype : link_type
}.

Record GraphEdge : Type := mkEdge {
  from : string;
  to : string;
  type : edge_type
}.

(** [GraphNode], without the coordinates (never set by the indexer) and
    without [size], the floating-point value
    [Math.max(1, Math.log(degree + 1) * 6)] computed from [degree]. *)
Record GraphNode : Type := mkNode {
  node_id : string;
  node_title : string;
  tags : list string;
  degree : nat;
  color : string
}.

Record GraphData : Type := mkGraph {
  nodes : list GraphNode;
  edges : list GraphEdge
}.

#[global] Instance edge_type_eq_dec : EqDecision edge_type.
Proof. solve_decision. Defined.
#[global] Instance link_type_eq_dec : EqDecision link_type.
Proof. solve_decision. Defined.
#[global] Instance GraphEdge_eq_dec : EqDecision GraphEdge.
Proof. solve_decision. Defined.

(** The three regular expressions held by the indexer object. *)

(** [/\[\[([^\]|#]+)(?:#[^\]|]+)?(?:\|[^\]]+)?\]\]/g] *)
Definition wikilinkRegex : regex :=
  Cat (Lit "[") (Cat (Lit "[")
    (Cat (Group 1 (Plus (Class true [CAChar "]"; CAChar "|"; CAChar "#"])))
    (Cat (Opt (Cat (Lit "#") (Plus (Class true [CAChar "]"; CAChar "|"]))))
    (Cat (Opt (Cat (Lit "|") (Plus (Class true [CAChar "]"]))))
    (Cat (Lit "]") (Lit "]")))))).

(** [/\[.*?\]\(([^)]+)\)/g] *)
Definition mdLinkRegex : regex :=
  Cat (Lit "[") (Cat (StarLazy Dot) (Cat (Lit "]") (Cat (Lit "(")
    (Cat (Group 1 (Plus (Class true [CAChar ")"]))) (Lit ")"))))).

(** [/#[\w\-]+/g] *)
Definition tagRegex : regex :=
  Cat (Lit "#") (Plus (Class false [CAWord; CAChar "-"])).

(** The mutable part of the indexer object: the [lastIndex] of each of
    its global regular expressions. *)
Record istate : Type := mkState {
  wikilinkLastIndex : nat;
  mdLinkLastIndex : nat;
  tagLastIndex : nat
}.

(** The state of [new GraphIndexer()]. *)
Definition initial : istate := mkState 0 0 0.

(** [while ((match = re.exec(content)) !== null) { body }], where the
    body may push one element.  [None] stands for a loop that is still
    running when the fuel is spent. *)
Fixpoint while_exec {A} (fuel : nat) (r : regex) (s : string)
    (body : rmatch -> option A) (lastIndex : nat) : option (list A * nat) :=
  match fuel with
  | 0 => None
  | S fuel' =>
      match exec r s lastIndex with
      | (None, li) => Some ([], li)
      | (Some m, li) =>
          match while_exec fuel' r s body li with
          | Some (xs, li') =>
              Some (match body m with Some x => x :: xs | None => xs end, li')
          | None => None
          end
      end
  end.

(** [match[1].trim()]. *)
Definition target_of (m : rmatch) : string :=
  JS.trim (default EmptyString (group 1 m)).

Definition wikilink_body (m : rmatch) : option Link :=
  let target := target_of m in
  if JS.truthy target then Some (mkLink target LWikilink) else None.

Definition mdlink_body (m : rmatch) : option Link :=
  let target := target_of m in
  if JS.truthy target && negb (JS.startsWith target "http://")
     && negb (JS.startsWith target "https://")
  then Some (mkLink target LMdlink) else None.

Definition extractLinks_fuel (fuel : nat) (content : string) (st : istate)
    : option (list Link * istate) :=
  match while_exec fuel wikilinkRegex content wikilink_body
                   (wikilinkLastIndex st) with
  | None => None
  | Some (wikis, wli) =>
      (* this.mdLinkRegex.lastIndex = 0 *)
      match while_exec fuel mdLinkRegex content mdlink_body 0 with
      | None => None
      | Some (mds, mli) =>
          Some (wikis ++ mds, mkState wli mli (tagLastIndex st))
      end
  end.

(** Every match consumes at least one code unit, so the loops stop within
    [length content + 1] calls of [exec] (lemma [extractLinks_fuel_total]). *)
Definition extractLinks (content : string) (st : istate)
    : list Link * istate :=
  default ([], st) (extractLinks_fuel (S (String.length content)) content st).

(** [[...new Set(l)]]: the first occurrence of each element is kept. *)
Fixpoint uniq (seen : gset string) (l : list string) : list string :=
  match l with
  | [] => []
  | x :: l' =>
      if decide (x ∈ seen) then uniq seen l' else x :: uniq ({[x]} ∪ seen) l'
  end.

(** [content.match(this.tagRegex) || []]: a global [match] starts from
    [lastIndex = 0] and collects the matched texts. *)
Definition extractTags_fuel (fuel : nat) (content : string) (st : istate)
    : option (list string * istate) :=
  match while_exec fuel tagRegex content
                   (fun m => Some (matched content m)) 0 with
  | None => None
  | Some (ts, tli) =>
      Some (uniq ∅ (List.map (fun t => String.substring 1 (String.length t - 1) t) ts),
            mkState (wikilinkLastIndex st) (mdLinkLastIndex st) tli)
  end.

Definition extractTags (content : string) (st : istate)
    : list string * istate :=
  default ([], st) (extractTags_fuel (S (String.length content)) content st).

Definition has {V} (m : gmap string V) (k : string) : bool :=
  match m !! k with Some _ => true | None => false end.

Definition resolveLink (link : Link) (titleMap : gmap string string)
    (noteMap : gmap string Note) : option string :=
  let target := target link in
  (* Cas 1 *)
  if has noteMap target then Some target
  else
    (* Cas 2 *)
    let titleLower := JS.toLowerCase target in
    if has titleMap titleLower then titleMap !! titleLower
    else
      (* Cas 3 *)
      let cleaned := JS.stripPrefix "./" (JS.stripSuffix ".md" target) in
      let cleanedLower := JS.toLowerCase cleaned in
      if has titleMap cleanedLower then titleMap !! cleanedLower
      else
        (* Cas 4 *)
        let basename :=
          match JS.pop (JS.split "/" cleaned) with
          | Some b => if JS.truthy b then b else cleaned
          | None => cleaned
          end in
        let basenameLower := JS.toLowerCase basename in
        if has titleMap basenameLower then titleMap !! basenameLower
        else None.

Definition getColorForNode (tags : list string) (degree : nat) : string :=
  if 10 <=? degree then "#5a63e9"
  else if 5 <=? degree then "#8B92FF"
  else if 2 <=? degree then "#A8AEFF"
  else if degree =? 0 then "#6B7280"
  else "#9CA3AF".

Definition edge_key (edge : GraphEdge) : string :=
  if JS.lt (from edge) (to edge)
  then from edge +:+ "->" +:+ to edge
  else to edge +:+ "->" +:+ from edge.

(** The [forEach] of [deduplicateEdges] from a state [(seen, unique)]. *)
Definition dedup_step (acc : gset string * list GraphEdge) (edge : GraphEdge)
    : gset string * list GraphEdge :=
  let key := edge_key edge in
  if decide (key ∈ acc.1) then acc
  else ({[key]} ∪ acc.1, acc.2 ++ [edge]).

Definition deduplicateEdges (edges : list GraphEdge) : list GraphEdge :=
  (fold_left dedup_step edges (∅, [])).2.

(** [nodeDegree.get(k) || 0]. *)
Definition get_degree (nodeDegree : gmap string nat) (k : string) : nat :=
  default 0 (nodeDegree !! k).

(** The body of [links.forEach] in [indexGraph], on the pair of the edge
    array and the degree map. *)
Definition link_step (titleMap : gmap string string)
    (noteMap : gmap string Note) (note : Note)
    (acc : list GraphEdge * gmap string nat) (link : Link)
    : list GraphEdge * gmap string nat :=
  match resolveLink link titleMap noteMap with
  | Some targetId =>
      if JS.truthy targetId && negb (String.eqb targetId (id note)) then
        let edges := acc.1 ++ [mkEdge (id note) targetId (edge_type_of (ltype link))] in
        let edges := edges ++ [mkEdge targetId (id note) backlink] in
        let nodeDegree := <[id note := get_degree acc.2 (id note) + 1]> acc.2 in
        let nodeDegree := <[targetId := get_degree nodeDegree targetId + 1]> nodeDegree in
        (edges, nodeDegree)
      else acc
  | None => acc
  end.

(** The body of the third [notes.forEach]; the indexer state goes through
    [extractLinks]. *)
Definition note_step (titleMap : gmap string string)
    (noteMap : gmap string Note)
    (acc : list GraphEdge * gmap string nat * istate) (note : Note)
    : list GraphEdge * gmap string nat * istate :=
  let '(links, st) := extractLinks (content note) acc.2 in
  (fold_left (link_step titleMap noteMap note) links acc.1, st).

(** The callback of [notes.map] that builds the nodes. *)
Definition node_step (nodeDegree : gmap string nat)
    (acc : list GraphNode * istate) (note : Note) : list GraphNode * istate :=
  let '(tags, st) := extractTags (content note) acc.2 in
  let degree := get_degree nodeDegree (id note) in
  (acc.1 ++ [mkNode (id note) (title note) tags degree
                    (getColorForNode tags degree)], st).

Definition build_noteMap (notes : list Note) : gmap string Note :=
  fold_left (fun m note => <[id note := note]> m) notes ∅.

Definition build_titleMap (notes : list Note) : gmap string string :=
  fold_left (fun m note => <[JS.toLowerCase (title note) := id note]> m) notes ∅.

Definition init_degree (notes : list Note) : gmap string nat :=
  fold_left (fun m note => <[id note := 0]> m) notes ∅.

(** The raw edge array and the degree map before the nodes are built. *)
Definition collect (notes : list Note) (st : istate)
    : list GraphEdge * gmap string nat * istate :=
  fold_left (note_step (build_titleMap notes) (build_noteMap notes)) notes
            ([], init_degree notes, st).

Definition indexGraph (notes : list Note) (st : istate) : GraphData * istate :=
  let '(edges, nodeDegree, st1) := collect notes st in
  let '(nodes, st2) := fold_left (node_step nodeDegree) notes ([], st1) in
  let edgesUnique := deduplicateEdges edges in
  (mkGraph nodes edgesUnique, st2).

Definition getBacklinks (noteId : string) (edges : list GraphEdge)
    : list string :=
  List.map from
    (List.filter (fun e => String.eqb (to e) noteId
                           && negb (bool_decide (type e = backlink))) edges).

(** The adjacency map of [shortestPath]. *)
Definition build_adjacency (edges : list GraphEdge) : gmap string (list string) :=
  fold_left (fun adj edge =>
               let adj := if has adj (from edge) then adj
                          else <[from edge := []]> adj in
               <[from edge := default [] (adj !! from edge) ++ [to edge]]> adj)
            edges ∅.

(** The [for (const neighbor of neighbors)] loop on [(queue, visited)]. *)
Definition visit_step (path : list string)
    (acc : list (string * list string) * gset string) (neighbor : string)
    : list (string * list string) * gset string :=
  if decide (neighbor ∈ acc.2) then acc
  else (acc.1 ++ [(neighbor, path ++ [neighbor])], {[neighbor]} ∪ acc.2).

(** The [while (queue.length > 0)] loop.  The outer [None] stands for a
    loop still running when the fuel is spent; [Some None] is [null]. *)
Fixpoint bfs (fuel : nat) (toId : string) (adjacency : gmap string (list string))
    (queue : list (string * list string)) (visited : gset string)
    : option (option (list string)) :=
  match fuel with
  | 0 => None
  | S fuel' =>
      match queue with
      | [] => Some None
      | current :: queue' =>
          if String.eqb current.1 toId then Some (Some current.2)
          else
            let neighbors := default [] (adjacency !! current.1) in
            let '(queue'', visited') :=
              fold_left (visit_step current.2) neighbors (queue', visited) in
            bfs fuel' toId adjacency queue'' visited'
      end
  end.

(** Each node is queued at most once, and only the start node and the
    targets of edges are ever queued: [length edges + 2] rounds are enough
    (lemmas [bfs_ends] and [initial_measure]). *)
Definition shortestPath (fromId toId : string) (edges : list GraphEdge)
    : option (list string) :=
  default None (bfs (length edges + 2) toId (build_adjacency edges)
                    [(fromId, [fromId])] {[fromId]}).

End GraphIndexer.

(** ** Node classification in [GraphView.loadGraph] *)
Module GraphView.

Inductive node_type : Type := main | secondary | isolated.

#[global] Instance node_type_eq_dec : EqDecision node_type.
Proof. solve_decision. Defined.

(** [(node.degree || 0) >= 3 ? 'main'
      : (node.degree || 0) >= 1 ? 'secondary' : 'isolated'];
    [degree] is optional in [GraphNode]. *)
Definition classify (degree : option nat) : node_type :=
  if 3 <=? default 0 degree then main
  else if 1 <=? default 0 degree then secondary
  else isolated.

(** The fields of [NodeData] that [loadGraph] derives from the indexed
    node (the coordinates start at 0: the indexer sets none). *)
Record NodeData : Type := mkNodeData {
  id : string;
  label : string;
  type : node_type;
  links : nat;
  tags : list string;
  centrality : nat
}.

Definition nodeData_of (node : GraphIndexer.GraphNode) : NodeData :=
  let degree := Some (GraphIndexer.degree node) in
  mkNodeData (GraphIndexer.node_id node) (GraphIndexer.node_title node)
             (classify degree) (default 0 degree)
             (GraphIndexer.tags node) (default 0 degree).

(** What the legend of the view says each class is:
    "Notes principales (2+ liens)", "Notes secondaires (1 lien)",
    "Notes isolées (0 lien)". *)
Definition legend (degree : nat) : node_type :=
  if 2 <=? degree then main
  else if degree =? 1 then secondary
  else isolated.

End GraphView.

(** ** The physics worker ([public/graph-worker.js]) *)
Module GraphWorker.

Local Open Scope float_scope.

Record SimNode : Type := mkSim {
  id : string;
  x : float;
  y : float;
  vx : float;
  vy : float;
  mass : float;
  type : option string
}.

(** What the worker reads of an incoming node: its id and its type, which
    may be absent. *)
Record NodeData : Type := mkNodeData {
  nd_id : string;
  nd_type : option string
}.

Record EdgeData : Type := mkEdgeData {
  source : string;
  target : string
}.

Record Params : Type := mkParams {
  attraction : float;
  repulsion : float;
  damping : float;
  maxSpeed : float;
  centerForce : float;
  linkDistance : float
}.

(** A partial parameter object, as sent with [init] or [updateParams]. *)
Record PartialParams : Type := mkPartial {
  p_attraction : option float;
  p_repulsion : option float;
  p_damping : option float;
  p_maxSpeed : option float;
  p_centerForce : option float;
  p_linkDistance : option float
}.

Definition default_params : Params := mkParams 0.01 300 0.8 10 0.02 50.

(** [{ ...params, ...data }]. *)
Definition merge_params (p : Params) (d : PartialParams) : Params :=
  mkParams (default (attraction p) (p_attraction d))
           (default (repulsion p) (p_repulsion d))
           (default (damping p) (p_damping d))
           (default (maxSpeed p) (p_maxSpeed d))
           (default (centerForce p) (p_centerForce d))
           (default (linkDistance p) (p_linkDistance d)).

(** [a || b] on numbers: 0, -0 and NaN are falsy. *)
Definition falsy (a : float) : bool := (a =? 0) || is_nan a.
Definition js_or (a b : float) : float := if falsy a then b else a.

(** [type === 'main' ? 2 : type === 'secondary' ? 1.5 : 1]. *)
Definition mass_of (ty : option string) : float :=
  match ty with
  | Some t => if String.eqb t "main" then 2
              else if String.eqb t "secondary" then 1.5 else 1
  | None => 1
  end.

(** The [nodes] map, in insertion order: [set] replaces the value of a
    key already there and appends a new key. *)
Fixpoint map_set (k : string) (v : SimNode) (m : list SimNode) : list SimNode :=
  match m with
  | [] => [v]
  | n :: m' => if String.eqb (id n) k then v :: m' else n :: map_set k v m'
  end.

Definition map_get (k : string) (m : list SimNode) : option SimNode :=
  List.find (fun n => String.eqb (id n) k) m.

(** A write through the reference [nodes.get(k)]. *)
Definition map_update (k : string) (f : SimNode -> SimNode) (m : list SimNode)
    : list SimNode :=
  match map_get k m with
  | Some n => map_set k (f n) m
  | None => m
  end.

Definition add_velocity (n : SimNode) (dvx dvy : float) : SimNode :=
  mkSim (id n) (x n) (y n) (vx n + dvx) (vy n + dvy) (mass n) (type n).

Definition sub_velocity (n : SimNode) (dvx dvy : float) : SimNode :=
  mkSim (id n) (x n) (y n) (vx n - dvx) (vy n - dvy) (mass n) (type n).

(** *** applyRepulsion *)

(** [Math.sqrt(dx * dx + dy * dy)] for two nodes. *)
Definition euclid (a b : SimNode) : float :=
  let dx := x b - x a in
  let dy := y b - y a in
  sqrt (dx * dx + dy * dy).

(** The [distance] of the force computation. *)
Definition repulsion_distance (a b : SimNode) : float := js_or (euclid a b) 1.

(** The [force] of the force computation. *)
Definition repulsion_force (p : Params) (a b : SimNode) : float :=
  let distance := repulsion_distance a b in
  repulsion p / (distance * distance).

(** The body of the inner loop, on [nodeA] and [nodeB]. *)
Definition pair_repulsion (p : Params) (nodeA nodeB : SimNode)
    : SimNode * SimNode :=
  let dx := x nodeB - x nodeA in
  let dy := y nodeB - y nodeA in
  let distance := js_or (sqrt (dx * dx + dy * dy)) 1 in
  let force := repulsion p / (distance * distance) in
  let fx := (dx / distance) * force in
  let fy := (dy / distance) * force in
  (sub_velocity nodeA (fx / mass nodeA) (fy / mass nodeA),
   add_velocity nodeB (fx / mass nodeB) (fy / mass nodeB)).

Definition repulsion_inner (p : Params) (i : nat) (arr : list SimNode) (j : nat)
    : list SimNode :=
  match arr !! i, arr !! j with
  | Some nodeA, Some nodeB =>
      let '(nodeA', nodeB') := pair_repulsion p nodeA nodeB in
      <[j := nodeB']> (<[i := nodeA']> arr)
  | _, _ => arr
  end.

Definition applyRepulsion (p : Params) (nodes : list SimNode) : list SimNode :=
  let n := length nodes in
  fold_left (fun arr i =>
               fold_left (repulsion_inner p i) (seq (i + 1) (n - (i + 1))) arr)
            (seq 0 n) nodes.

(** *** applyAttraction *)
Definition attraction_step (p : Params) (nodes : list SimNode) (edge : EdgeData)
    : list SimNode :=
  match map_get (source edge) nodes, map_get (target edge) nodes with
  | Some src, Some tgt =>
      let dx := x tgt - x src in
      let dy := y tgt - y src in
      let distance := js_or (sqrt (dx * dx + dy * dy)) 1 in
      let displacement := distance - linkDistance p in
      let force := displacement * attraction p in
      let fx := (dx / distance) * force in
      let fy := (dy / distance) * force in
      let nodes :=
        map_update (source edge)
          (fun s => add_velocity s (fx / mass s) (fy / mass s)) nodes in
      map_update (target edge)
        (fun t => sub_velocity t (fx / mass t) (fy / mass t)) nodes
  | _, _ => nodes
  end.

Definition applyAttraction (p : Params) (edges : list EdgeData)
    (nodes : list SimNode) : list SimNode :=
  fold_left (attraction_step p) edges nodes.

(** *** applyCenterForce and updatePositions *)
Definition center_node (p : Params) (n : SimNode) : SimNode :=
  sub_velocity n (x n * centerForce p) (y n * centerForce p).

Definition applyCenterForce (p : Params) (nodes : list SimNode) : list SimNode :=
  List.map (center_node p) nodes.

Definition move_node (p : Params) (n : SimNode) : SimNode :=
  let vx1 := vx n * damping p in
  let vy1 := vy n * damping p in
  let speed := sqrt (vx1 * vx1 + vy1 * vy1) in
  let vx2 := if maxSpeed p <? speed then (vx1 / speed) * maxSpeed p else vx1 in
  let vy2 := if maxSpeed p <? speed then (vy1 / speed) * maxSpeed p else vy1 in
  mkSim (id n) (x n + vx2) (y n + vy2) vx2 vy2 (mass n) (type n).

Definition updatePositions (p : Params) (nodes : list SimNode) : list SimNode :=
  List.map (move_node p) nodes.

(** *** The worker as a state machine *)

Record Position : Type := mkPos { pos_id : string; pos_x : float; pos_y : float }.

(** The module-level variables, the [positions] messages posted so far
    (latest last), the number of pending [setTimeout] callbacks and the
    number of calls of [Math.random] made so far. *)
Record wstate : Type := mkW {
  nodes : list SimNode;
  edges : option (list EdgeData);     (* [None]: [undefined] *)
  params : Params;
  isRunning : bool;
  posted : list (list Position);
  timers : nat;
  draws : nat
}.

Definition initial : wstate :=
  mkW [] (Some []) default_params false [] 0%nat 0%nat.

(** How a piece of code ends: normally, or by a [TypeError] that nothing
    catches. *)
Inductive outcome : Type := Completed | TypeError.

Record InitData : Type := mkInit {
  data_nodes : option (list NodeData);
  data_edges : option (list EdgeData);
  data_params : option PartialParams
}.

Inductive message : Type :=
| Init (data : InitData)
| Start
| Stop
| UpdateParams (data : PartialParams)
| UpdateNodes (data : list NodeData)
| Other (type : string).

Definition set_nodes (st : wstate) (ns : list SimNode) : wstate :=
  mkW ns (edges st) (params st) (isRunning st) (posted st) (timers st) (draws st).

Definition set_running (st : wstate) (b : bool) : wstate :=
  mkW (nodes st) (edges st) (params st) b (posted st) (timers st) (draws st).

(** [simulationStep]: [edges.forEach] throws when [edges] is undefined,
    after [applyRepulsion] has run. *)
Definition simulationStep (st : wstate) : wstate * outcome :=
  let ns := applyRepulsion (params st) (nodes st) in
  match edges st with
  | None => (set_nodes st ns, TypeError)
  | Some es =>
      let ns := applyAttraction (params st) es ns in
      let ns := applyCenterForce (params st) ns in
      let ns := updatePositions (params st) ns in
      let positions := List.map (fun n => mkPos (id n) (x n) (y n)) ns in
      (mkW ns (edges st) (params st) (isRunning st)
           (posted st ++ [positions]) (timers st) (draws st), Completed)
  end.

(** [loop]: one step, then a timer for the next one. *)
Definition loop (st : wstate) : wstate * outcome :=
  if negb (isRunning st) then (st, Completed)
  else match simulationStep st with
       | (st', TypeError) => (st', TypeError)
       | (st', Completed) =>
           (mkW (nodes st') (edges st') (params st') (isRunning st')
                (posted st') (S (timers st')) (draws st'), Completed)
       end.

Definition startSimulation (st : wstate) : wstate * outcome :=
  if isRunning st then (st, Completed)
  else loop (set_running st true).

Definition stopSimulation (st : wstate) : wstate := set_running st false.

(** A pending timer fires. *)
Definition timer_fires (st : wstate) : wstate * outcome :=
  let st := mkW (nodes st) (edges st) (params st) (isRunning st)
                (posted st) (Nat.pred (timers st)) (draws st) in
  if isRunning st then loop st else (st, Completed).

Definition update_node (ns : list SimNode) (nodeData : NodeData) : list SimNode :=
  map_update (nd_id nodeData)
    (fun e => mkSim (id e) (x e) (y e) (vx e) (vy e)
                    (mass_of (nd_type nodeData)) (nd_type nodeData)) ns.

Section Host.

(** What the host provides: the successive results of [Math.random()],
    and [Math.cos] and [Math.sin]. *)
Variable Math_random : nat -> float.
Variable Math_cos Math_sin : float -> float.

Definition Math_PI : float := 0x1.921fb54442d18p+1.

(** The callback of [data.nodes.forEach] in [initGraph], on the map and
    the number of random draws. *)
Definition seed_node (acc : list SimNode * nat) (nodeData : NodeData)
    : list SimNode * nat :=
  let angle := Math_random acc.2 * Math_PI * 2 in
  let radius := 200 + Math_random (S acc.2) * 100 in
  (map_set (nd_id nodeData)
           (mkSim (nd_id nodeData) (Math_cos angle * radius)
                  (Math_sin angle * radius) 0 0
                  (mass_of (nd_type nodeData)) (nd_type nodeData)) acc.1,
   S (S acc.2)).

(** [initGraph]: [data.nodes.forEach] throws when [data.nodes] is
    undefined, after the map is cleared and [edges] and [params] are
    assigned. *)
Definition initGraph (data : InitData) (st : wstate) : wstate * outcome :=
  let params' := match data_params data with
                 | Some d => merge_params (params st) d
                 | None => params st
                 end in
  let st := mkW [] (data_edges data) params' (isRunning st)
                (posted st) (timers st) (draws st) in
  match data_nodes data with
  | None => (st, TypeError)
  | Some nds =>
      let '(ns, k) := fold_left seed_node nds ([], draws st) in
      (mkW ns (edges st) (params st) (isRunning st) (posted st)
           (timers st) k, Completed)
  end.

(** [self.onmessage]. *)
Definition onmessage (msg : message) (st : wstate) : wstate * outcome :=
  match msg with
  | Init data =>
      match initGraph data st with
      | (st', TypeError) => (st', TypeError)
      | (st', Completed) => startSimulation st'
      end
  | Start => startSimulation st
  | Stop => (stopSimulation st, Completed)
  | UpdateParams data =>
      (mkW (nodes st) (edges st) (merge_params (params st) data)
           (isRunning st) (posted st) (timers st) (draws st), Completed)
  | UpdateNodes data => (set_nodes st (fold_left update_node data (nodes st)), Completed)
  | Other _ => (st, Completed)
  end.

End Host.

End GraphWorker.

(** * The caller: [GraphView.loadGraph] *)
Module LoadGraph.
Import GraphIndexer.

(** The settings that decide what is shown (the others only style it). *)
Record GraphSettings : Type := mkSettings {
  showOrphans : bool;
  minLinks : nat;
  maxDepth : nat;
  localMode : bool;
  localNodeId : option string
}.

(** The initial settings of the view. *)
Definition default_settings : GraphSettings := mkSettings true 0 2 false None.

(** The callback of [graphData.nodes.filter]. *)
Definition passes (settings : GraphSettings) (node : GraphNode) : bool :=
  if negb (showOrphans settings) && (degree node =? 0) then false
  else if degree node <? minLinks settings then false
  else true.

(** The callback of [graphData.edges.forEach] in [findNeighbors], on the
    shared set [neighbors]; [recurse] is the call
    [findNeighbors(id, depth + 1)]. *)
Definition neighbor_step (recurse : string -> gset string -> gset string)
    (nodeId : string) (neighbors : gset string) (edge : GraphEdge)
    : gset string :=
  let neighbors :=
    if String.eqb (from edge) nodeId && negb (bool_decide (to edge ∈ neighbors))
    then recurse (to edge) ({[to edge]} ∪ neighbors) else neighbors in
  if String.eqb (to edge) nodeId && negb (bool_decide (from edge ∈ neighbors))
  then recurse (from edge) ({[from edge]} ∪ neighbors) else neighbors.

(** [findNeighbors(nodeId, depth)] with [levels = maxDepth - depth] levels
    left: it returns at once when [depth >= maxDepth]. *)
Fixpoint findNeighbors (edges : list GraphEdge) (levels : nat)
    (nodeId : string) (neighbors : gset string) : gset string :=
  match levels with
  | 0 => neighbors
  | S levels' =>
      fold_left (neighbor_step (findNeighbors edges levels') nodeId)
                edges neighbors
  end.

(** [filteredNodes], after the local-graph restriction. *)
Definition visibleNodes (settings : GraphSettings) (g : GraphData)
    : list GraphNode :=
  let filteredNodes := List.filter (passes settings) (nodes g) in
  match localNodeId settings with
  | Some localId =>
      if localMode settings && JS.truthy localId then
        let neighbors :=
          findNeighbors (edges g) (maxDepth settings) localId {[localId]} in
        List.filter (fun node => bool_decide (node_id node ∈ neighbors))
                    filteredNodes
      else filteredNodes
  | None => filteredNodes
  end.

(** [filteredEdges]: the edges between visible nodes. *)
Definition visibleEdges (visible : list GraphNode) (g : GraphData)
    : list GraphEdge :=
  let nodeIds : gset string := list_to_set (List.map node_id visible) in
  List.filter (fun edge => bool_decide (from edge ∈ nodeIds)
                           && bool_decide (to edge ∈ nodeIds)) (edges g).

(** [EdgeData] as [loadGraph] builds it (its [type] is always
    ['explicit']). *)
Record EdgeData : Type := mkEdgeData {
  source : string;
  target : string;
  strength : nat;
  confidence : nat
}.

Definition edgeData_of (edge : GraphEdge) : EdgeData :=
  mkEdgeData (from edge) (to edge) 1 100.

Definition type_name (t : GraphView.node_type) : string :=
  match t with
  | GraphView.main => "main"
  | GraphView.secondary => "secondary"
  | GraphView.isolated => "isolated"
  end.

(** The [init] message posted to the new worker, as the worker reads it. *)
Definition init_message (nodeDataArray : list GraphView.NodeData)
    (edgeDataArray : list EdgeData) (physicsParams : GraphWorker.PartialParams)
    : GraphWorker.message :=
  GraphWorker.Init (GraphWorker.mkInit
    (Some (List.map (fun n => GraphWorker.mkNodeData (GraphView.id n)
                                (Some (type_name (GraphView.type n))))
                    nodeDataArray))
    (Some (List.map (fun e => GraphWorker.mkEdgeData (source e) (target e))
                    edgeDataArray))
    (Some physicsParams)).

(** [loadGraph] up to the message: index, filter, convert. *)
Definition loadGraph (notes : list Note) (settings : GraphSettings)
    (physicsParams : GraphWorker.PartialParams)
    : list GraphView.NodeData * list EdgeData * GraphWorker.message :=
  let graphData := (indexGraph notes initial).1 in
  let filteredNodes := visibleNodes settings graphData in
  let filteredEdges := visibleEdges filteredNodes graphData in
  let nodeDataArray := List.map GraphView.nodeData_of filteredNodes in
  let edgeDataArray := List.map edgeData_of filteredEdges in
  (nodeDataArray, edgeDataArray,
   init_message nodeDataArray edgeDataArray physicsParams).

End LoadGraph.

(** * The editor's wiki links: [extractWikiLinks] *)
Module WikiLinks.
Import Regex.

(** [/\[\[([^\]]+)\]\]/g] *)
Definition linkRegex : regex :=
  Cat (Lit "[") (Cat (Lit "[")
    (Cat (Group 1 (Plus (Class true [CAChar "]"])))
    (Cat (Lit "]") (Lit "]")))).

(** The loop of [extractWikiLinks] on a new expression ([lastIndex] 0):
    each match pushes [match[1]], [None] standing for [undefined]. *)
Definition extractWikiLinks_fuel (fuel : nat) (content : string)
    : option (list (option string)) :=
  match GraphIndexer.while_exec fuel linkRegex content
                                (fun m => Some (group 1 m)) 0 with
  | Some (links, _) => Some links
  | None => None
  end.

(** Every match consumes at least one code unit, so the loop stops within
    [length content + 1] calls of [exec]. *)
Definition extractWikiLinks (content : string) : list (option string) :=
  default [] (extractWikiLinks_fuel (S (String.length content)) content).

End WikiLinks.

(** * Properties *)

(** ** The matcher only moves forward *)
Section RegexProgress.
Import Regex.

(** [z] is reached from [x] by consuming input. *)
Definition follows (x z : mstate) : Prop :=
  endIndex x <= endIndex z /\
  endIndex z + String.length (rest z) = endIndex x + String.length (rest x).

Lemma follows_refl x : follows x x.
Proof. split; lia. Qed.

Lemma follows_trans x y z : follows x y -> follows y z -> follows x z.
Proof. unfold follows. lia. Qed.

(** A matcher that succeeds has called its continuation further on. *)
Definition forward (m : (mstate -> option mstate) -> mstate -> option mstate)
    : Prop :=
  forall c x y, m c x = Some y -> exists z, c z = Some y /\ follows x z.

Lemma step_char_forward p c x y :
  step_char p c x = Some y ->
  exists z, c z = Some y /\ follows x z /\ endIndex x < endIndex z.
Proof.
  unfold step_char, follows. destruct (rest x) as [|a s'] eqn:Hr; [done|].
  destruct (p a); [|done]. intros Hc.
  eexists; split; [exact Hc|]. simpl. lia.
Qed.

Lemma repeat_matcher_forward m gs greedy c :
  forward m ->
  forall fuel min max x y,
    repeat_matcher m gs greedy c fuel min max x = Some y ->
    exists z, c z = Some y /\ follows x z.
Proof.
  intros Hm. induction fuel as [|fuel IH]; intros min max x y; simpl; [done|].
  assert (Hiter : forall y',
    m (fun y0 =>
         if (min =? 0) && (endIndex y0 =? endIndex x) then None
         else repeat_matcher m gs greedy c fuel (Nat.pred min) (Nat.pred <$> max) y0)
      (clear_captures gs x) = Some y' ->
    exists z, c z = Some y' /\ follows x z).
  { intros y' H. apply Hm in H as (z1 & Hd & Hf1).
    destruct ((min =? 0) && (endIndex z1 =? endIndex x)); [done|].
    apply IH in Hd as (z & Hc & Hf2). exists z; split; [done|].
    eapply follows_trans; [|exact Hf2]. exact Hf1. }
  destruct (max_is_zero max).
  { intros Hc. exists x; split; [done|apply follows_refl]. }
  destruct (negb (min =? 0)); [apply Hiter|].
  destruct greedy.
  - destruct (m _ (clear_captures gs x)) as [z0|] eqn:Hm0.
    + intros [= <-]. by apply Hiter.
    + intros Hc. exists x; split; [done|apply follows_refl].
  - destruct (c x) as [z0|] eqn:Hc0.
    + intros [= <-]. exists x; split; [done|apply follows_refl].
    + apply Hiter.
Qed.

Lemma matcher_forward r : forward (matcher r).
Proof.
  induction r as [a| |neg atoms|r1 IH1 r2 IH2|n r IH|r IH min max greedy];
    intros c x y; simpl.
  - intros H. apply step_char_forward in H as (z & ? & ? & ?). eauto.
  - intros H. apply step_char_forward in H as (z & ? & ? & ?). eauto.
  - intros H. apply step_char_forward in H as (z & ? & ? & ?). eauto.
  - intros H. apply IH1 in H as (z1 & H & Hf1).
    apply IH2 in H as (z & H & Hf2).
    exists z; split; [done|]. by eapply follows_trans.
  - intros H. apply IH in H as (z & H & Hf).
    exists (set_capture n x z); split; [done|exact Hf].
  - by apply repeat_matcher_forward.
Qed.

(** An expression that begins with a literal consumes input. *)
Definition consuming (r : regex) : Prop :=
  forall x y, matcher r Some x = Some y ->
    endIndex x < endIndex y /\
    endIndex y + String.length (rest y) = endIndex x + String.length (rest x).

Lemma lit_consuming a r : consuming (Cat (Lit a) r).
Proof.
  intros x y; simpl. intros H.
  apply step_char_forward in H as (z1 & H & [? ?] & ?).
  apply matcher_forward in H as (z & [= ->] & [? ?]). lia.
Qed.

Lemma length_drop n s :
  String.length (drop n s) = String.length s - n.
Proof.
  revert s; induction n as [|n IH]; intros [|a s]; simpl; try lia. apply IH.
Qed.

Lemma search_bounds r s i m :
  consuming r -> search r s i = Some m ->
  i <= index m /\ index m < lastEnd m /\ lastEnd m <= i + String.length s.
Proof.
  intros Hr. revert i. induction s as [|a s IH]; intros i; simpl.
  - unfold match_at. destruct (matcher r Some _) as [y|] eqn:Hy; [|done].
    intros [= <-]; simpl. apply Hr in Hy; simpl in Hy. lia.
  - unfold match_at. destruct (matcher r Some _) as [y|] eqn:Hy.
    + intros [= <-]; simpl. apply Hr in Hy; simpl in Hy. lia.
    + intros H. apply IH in H. lia.
Qed.

(** [exec] either fails and resets [lastIndex], or moves it forward. *)
Lemma exec_spec r s li :
  consuming r ->
  match exec r s li with
  | (None, li') => li' = 0
  | (Some m, li') => li < li' /\ li' <= String.length s
  end.
Proof.
  intros Hr. unfold exec.
  destruct (String.length s <? li) eqn:Hlt; [done|].
  apply Nat.ltb_ge in Hlt.
  destruct (search r (drop li s) li) as [m|] eqn:Hs; [|done].
  apply search_bounds in Hs; [|done]. rewrite length_drop in Hs. lia.
Qed.

(** The loop over the matches ends within [length s + 1] calls of [exec],
    whatever [lastIndex] it starts from, and leaves [lastIndex] at 0. *)
Lemma while_exec_total {A} r s (body : rmatch -> option A) :
  consuming r ->
  forall fuel li,
    1 <= fuel -> String.length s + 1 <= fuel + li ->
    exists xs, GraphIndexer.while_exec fuel r s body li = Some (xs, 0).
Proof.
  intros Hr. induction fuel as [|fuel IH]; intros li H1 H2; [lia|].
  simpl. pose proof (exec_spec r s li Hr) as He.
  destruct (exec r s li) as [[m|] li'].
  - destruct (IH li') as [xs ->]; [lia|lia|]. eauto.
  - subst li'. eauto.
Qed.

(** More fuel than needed changes nothing. *)
Lemma while_exec_fuel_mono {A} r s (body : rmatch -> option A) fuel fuel' li res :
  GraphIndexer.while_exec fuel r s body li = Some res ->
  fuel <= fuel' ->
  GraphIndexer.while_exec fuel' r s body li = Some res.
Proof.
  revert fuel' li res. induction fuel as [|fuel IH]; intros fuel' li res; [done|].
  destruct fuel' as [|fuel']; [intros _ ?; lia|]. simpl.
  destruct (exec r s li) as [[m|] li']; [|done].
  destruct (GraphIndexer.while_exec fuel r s body li') as [[xs l]|] eqn:Hw; [|done].
  intros [= <-] Hle. rewrite (IH fuel' li' (xs, l) Hw); [done|lia].
Qed.

End RegexProgress.
(** ** The fuel of the quantifier is enough *)
Section RegexFuel.
Import Regex.

(** A matcher looks at its continuation only on states further on. *)
Definition local (m : (mstate -> option mstate) -> mstate -> option mstate)
  : Prop :=
forall c1 c2 x,
  (forall z, follows x z -> c1 z = c2 z) -> m c1 x = m c2 x.

Lemma step_char_local p : local (step_char p).
Proof.
intros c1 c2 x Hc. unfold step_char.
destruct (rest x) as [|a s'] eqn:Hr; [done|].
destruct (p a); [|done]. apply Hc. unfold follows. simpl. rewrite Hr. simpl. lia.
Qed.

Lemma follows_clear gs x z : follows (clear_captures gs x) z -> follows x z.
Proof. done. Qed.

Lemma repeat_matcher_local m gs greedy :
forward m -> local m ->
forall fuel min max c1 c2 x,
  (forall z, follows x z -> c1 z = c2 z) ->
  repeat_matcher m gs greedy c1 fuel min max x
  = repeat_matcher m gs greedy c2 fuel min max x.
Proof.
intros Hf Hm. induction fuel as [|fuel IH]; intros min max c1 c2 x Hc; [done|].
simpl. rewrite (Hc x (follows_refl x)).
assert (Hd :
  m (fun y => if (min =? 0) && (endIndex y =? endIndex x) then None
              else repeat_matcher m gs greedy c1 fuel (Nat.pred min)
                                  (Nat.pred <$> max) y) (clear_captures gs x)
  = m (fun y => if (min =? 0) && (endIndex y =? endIndex x) then None
                else repeat_matcher m gs greedy c2 fuel (Nat.pred min)
                                    (Nat.pred <$> max) y) (clear_captures gs x)).
{ apply Hm. intros z Hz.
  destruct ((min =? 0) && (endIndex z =? endIndex x)); [done|].
  apply IH. intros z' Hz'. apply Hc.
  eapply follows_trans; [|exact Hz']. by apply follows_clear in Hz. }
by rewrite Hd.
Qed.

Lemma matcher_local r : local (matcher r).
Proof.
induction r as [a| |neg atoms|r1 IH1 r2 IH2|n r IH|r IH min max greedy];
  intros c1 c2 x Hc; simpl.
- by apply step_char_local.
- by apply step_char_local.
- by apply step_char_local.
- apply IH1. intros z Hz. apply IH2. intros z' Hz'. apply Hc.
  by eapply follows_trans.
- apply IH. intros z Hz. apply Hc. exact Hz.
- apply repeat_matcher_local; [apply matcher_forward|done|done].
Qed.

(** Beyond [min + length rest], more fuel changes nothing: the loop of a
    quantifier never stops for lack of fuel. *)
Lemma repeat_matcher_fuel m gs greedy c :
forward m -> local m ->
forall fuel1 fuel2 min max x,
  min + String.length (rest x) < fuel1 ->
  min + String.length (rest x) < fuel2 ->
  repeat_matcher m gs greedy c fuel1 min max x
  = repeat_matcher m gs greedy c fuel2 min max x.
Proof.
intros Hf Hm. induction fuel1 as [|fuel1 IH]; intros fuel2 min max x H1 H2;
  [lia|].
destruct fuel2 as [|fuel2]; [lia|]. simpl.
assert (Hd :
  m (fun y => if (min =? 0) && (endIndex y =? endIndex x) then None
              else repeat_matcher m gs greedy c fuel1 (Nat.pred min)
                                  (Nat.pred <$> max) y) (clear_captures gs x)
  = m (fun y => if (min =? 0) && (endIndex y =? endIndex x) then None
                else repeat_matcher m gs greedy c fuel2 (Nat.pred min)
                                    (Nat.pred <$> max) y) (clear_captures gs x)).
{ apply Hm. intros z [Hz1 Hz2]. simpl in Hz1, Hz2.
  destruct (min =? 0) eqn:Hmin; simpl.
  - destruct (endIndex z =? endIndex x) eqn:He; [done|].
    apply Nat.eqb_neq in He. apply Nat.eqb_eq in Hmin. subst min.
    apply IH; simpl; lia.
  - apply Nat.eqb_neq in Hmin. apply IH; lia. }
by rewrite Hd.
Qed.

Lemma matcher_quant_fuel r min max greedy c x fuel :
min + String.length (rest x) < fuel ->
matcher (Quant r min max greedy) c x
= repeat_matcher (matcher r) (groups r) greedy c fuel min max x.
Proof.
intros Hfuel. simpl.
apply repeat_matcher_fuel; [apply matcher_forward|apply matcher_local|lia|done].
Qed.

End RegexFuel.

(** ** Capture group 1 of a link is always defined *)
Section RegexCaptures.
Import Regex.

Definition captured (n : nat) (x : mstate) : Prop :=
is_Some (List.find (fun nc => Nat.eqb (fst nc) n) (captures x)).

(** A matcher that keeps the capture [n] of the state it starts from. *)
Definition keeps (n : nat)
  (m : (mstate -> option mstate) -> mstate -> option mstate) : Prop :=
forall c x y, m c x = Some y ->
  exists z, c z = Some y /\ (captured n x -> captured n z).

Lemma step_char_keeps n p : keeps n (step_char p).
Proof.
intros c x y. unfold step_char. destruct (rest x) as [|a s']; [done|].
destruct (p a); [|done]. intros Hc. eexists. split; [exact Hc|]. done.
Qed.

Lemma captured_clear n gs x :
n ∉ gs -> captured n x -> captured n (clear_captures gs x).
Proof.
intros Hn. unfold captured, clear_captures. simpl.
induction (captures x) as [|[k t] l IH]; simpl; [done|].
destruct (Nat.eqb_spec k n) as [->|Hne].
- intros _. assert (existsb (Nat.eqb n) gs = false) as ->.
  { apply not_true_is_false. intros H. apply existsb_exists in H as (g & Hg & He).
    apply Nat.eqb_eq in He. subst g. by apply Hn, list_elem_of_In. }
  simpl. rewrite Nat.eqb_refl. by eexists.
- intros H. specialize (IH H).
  destruct (negb (existsb (Nat.eqb k) gs)); simpl; [|done].
  destruct (Nat.eqb_spec k n); [done|done].
Qed.

Lemma repeat_matcher_keeps n m gs greedy c :
n ∉ gs -> keeps n m ->
forall fuel min max x y,
  repeat_matcher m gs greedy c fuel min max x = Some y ->
  exists z, c z = Some y /\ (captured n x -> captured n z).
Proof.
intros Hn Hm. induction fuel as [|fuel IH]; intros min max x y; simpl; [done|].
assert (Hiter : forall y',
  m (fun y0 =>
       if (min =? 0) && (endIndex y0 =? endIndex x) then None
       else repeat_matcher m gs greedy c fuel (Nat.pred min) (Nat.pred <$> max) y0)
    (clear_captures gs x) = Some y' ->
  exists z, c z = Some y' /\ (captured n x -> captured n z)).
{ intros y' H. apply Hm in H as (z1 & Hd & Hk1).
  destruct ((min =? 0) && (endIndex z1 =? endIndex x)); [done|].
  apply IH in Hd as (z & Hc & Hk2). exists z; split; [done|].
  intros Hx. apply Hk2, Hk1. by apply captured_clear. }
destruct (max_is_zero max); [eauto|].
destruct (negb (min =? 0)); [apply Hiter|].
destruct greedy.
- destruct (m _ (clear_captures gs x)) as [z0|] eqn:Hm0.
  + intros [= <-]. by apply Hiter.
  + eauto.
- destruct (c x) as [z0|] eqn:Hc0.
  + intros [= <-]. eauto.
  + apply Hiter.
Qed.

(** An expression without the group [n] keeps the capture [n]. *)
Lemma matcher_keeps n r : n ∉ groups r -> keeps n (matcher r).
Proof.
induction r as [a| |neg atoms|r1 IH1 r2 IH2|k r IH|r IH min max greedy];
  intros Hn c x y; simpl.
- apply step_char_keeps.
- apply step_char_keeps.
- apply step_char_keeps.
- simpl in Hn. apply not_elem_of_app in Hn as [Hn1 Hn2].
  intros H. apply (IH1 Hn1) in H as (z1 & H & Hk1).
  apply (IH2 Hn2) in H as (z & H & Hk2). eauto.
- simpl in Hn. apply not_elem_of_cons in Hn as [Hne Hn].
  intros H. apply (IH Hn) in H as (z & H & Hk).
  eexists. split; [exact H|]. intros Hx. specialize (Hk Hx).
  unfold captured, set_capture in *. simpl.
  destruct (Nat.eqb_spec k n); [congruence|done].
- simpl in Hn. apply repeat_matcher_keeps; [done|by apply IH].
Qed.

(** After a group, its capture is defined. *)
Lemma matcher_group_captured n r c x y :
matcher (Group n r) c x = Some y ->
exists z, c z = Some y /\ captured n z.
Proof.
simpl. intros H. apply matcher_forward in H as (z & H & _).
eexists. split; [exact H|]. unfold captured, set_capture. simpl.
rewrite Nat.eqb_refl. by eexists.
Qed.

Lemma search_captured n r s i m :
(forall x y, matcher r Some x = Some y -> captured n y) ->
search r s i = Some m -> is_Some (group n m).
Proof.
intros Hr. revert i. induction s as [|a s IH]; intros i; simpl; unfold match_at.
- destruct (matcher r Some _) as [y|] eqn:Hy; [|done].
  intros [= <-]. apply Hr in Hy. unfold group; simpl.
  destruct Hy as [t ->]. by eexists.
- destruct (matcher r Some _) as [y|] eqn:Hy.
  + intros [= <-]. apply Hr in Hy. unfold group; simpl.
    destruct Hy as [t ->]. by eexists.
  + apply IH.
Qed.

Lemma exec_captured n r s li m li' :
(forall x y, matcher r Some x = Some y -> captured n y) ->
exec r s li = (Some m, li') -> is_Some (group n m).
Proof.
intros Hr. unfold exec. destruct (String.length s <? li); [done|].
destruct (search r (drop li s) li) as [m'|] eqn:Hs; [|done].
intros [= <- _]. by eapply search_captured.
Qed.

(** [match[1]] is defined for every match of the two link expressions. *)
Lemma wikilinkRegex_group1 x y :
matcher GraphIndexer.wikilinkRegex Some x = Some y -> captured 1 y.
Proof.
unfold GraphIndexer.wikilinkRegex.
change (matcher (Cat (Lit "[") (Cat (Lit "[") (Cat ?g ?r))) Some x)
  with (step_char (Ascii.eqb "[")
          (step_char (Ascii.eqb "[") (matcher g (matcher r Some))) x).
intros H. apply step_char_forward in H as (z1 & H & _).
apply step_char_forward in H as (z2 & H & _).
apply matcher_group_captured in H as (z3 & H & Hcap).
apply (matcher_keeps 1) in H as (z & [= ->] & Hk); [by apply Hk|].
vm_compute. intros Hin. by apply elem_of_nil in Hin.
Qed.

Lemma mdLinkRegex_group1 x y :
matcher GraphIndexer.mdLinkRegex Some x = Some y -> captured 1 y.
Proof.
unfold GraphIndexer.mdLinkRegex.
change (matcher (Cat ?a (Cat ?b (Cat ?c (Cat ?d (Cat ?g ?r))))) Some x)
  with (matcher a (matcher b (matcher c (matcher d
          (matcher g (matcher r Some))))) x).
intros H. apply matcher_forward in H as (z1 & H & _).
apply matcher_forward in H as (z2 & H & _).
apply matcher_forward in H as (z3 & H & _).
apply matcher_forward in H as (z4 & H & _).
apply matcher_group_captured in H as (z5 & H & Hcap).
apply (matcher_keeps 1) in H as (z & [= ->] & Hk); [by apply Hk|].
vm_compute. intros Hin. by apply elem_of_nil in Hin.
Qed.

(** So [match[1].trim()] never meets an undefined capture. *)
Lemma wikilink_match_has_target s li m li' :
exec GraphIndexer.wikilinkRegex s li = (Some m, li') -> is_Some (group 1 m).
Proof. apply exec_captured. apply wikilinkRegex_group1. Qed.

Lemma mdlink_match_has_target s li m li' :
exec GraphIndexer.mdLinkRegex s li = (Some m, li') -> is_Some (group 1 m).
Proof. apply exec_captured. apply mdLinkRegex_group1. Qed.

End RegexCaptures.

(** ** The string primitives do what their names say *)
Section StringPrimitives.

Lemma length_append (s t : string) :
String.length (s +:+ t) = String.length s + String.length t.
Proof. induction s as [|c s IH]; simpl; [done|]. by rewrite IH. Qed.

(** A trailing suffix is removed. *)
Lemma stripSuffix_app suffix s : JS.stripSuffix suffix (s +:+ suffix) = s.
Proof.
induction s as [|c s IH].
- simpl. destruct suffix; simpl; [done|]. rewrite Ascii.eqb_refl.
  by rewrite String.eqb_refl.
- change (String c s +:+ suffix) with (String c (s +:+ suffix)).
  unfold JS.stripSuffix; fold JS.stripSuffix.
  destruct (String.eqb_spec (String c (s +:+ suffix)) suffix) as [Heq|_].
  + apply (f_equal String.length) in Heq. simpl in Heq.
    rewrite length_append in Heq. lia.
  + by rewrite IH.
Qed.

(** A string that does not end with the suffix is left as it is. *)
Lemma stripSuffix_other suffix s :
(forall t, s <> t +:+ suffix) -> JS.stripSuffix suffix s = s.
Proof.
induction s as [|c s IH]; intros Hs.
- simpl. destruct suffix; [|done]. simpl. done.
- unfold JS.stripSuffix; fold JS.stripSuffix.
  destruct (String.eqb_spec (String c s) suffix) as [Heq|_].
  + exfalso. by apply (Hs EmptyString).
  + rewrite IH; [done|]. intros t ->. by apply (Hs (String c t)).
Qed.

Lemma prefix_append p s : String.prefix p (p +:+ s) = true.
Proof.
induction p as [|c p IH]; simpl.
- by destruct s.
- destruct (ascii_dec c c); [done|congruence].
Qed.

Lemma substring_all s : String.substring 0 (String.length s) s = s.
Proof. induction s as [|a s IH]; simpl; [done|]. by rewrite IH. Qed.

Lemma substring_drop p s :
String.substring (String.length p) (String.length s) (p +:+ s) = s.
Proof.
induction p as [|c p IH].
- change (EmptyString +:+ s) with s. apply substring_all.
- change (String c p +:+ s) with (String c (p +:+ s)). simpl. exact IH.
Qed.

(** A leading prefix is removed; without it the string is left as it is. *)
Lemma stripPrefix_app prefix s : JS.stripPrefix prefix (prefix +:+ s) = s.
Proof.
unfold JS.stripPrefix. rewrite prefix_append, length_append.
replace (String.length prefix + String.length s - String.length prefix)
  with (String.length s) by lia.
apply substring_drop.
Qed.

Lemma stripPrefix_other prefix s :
String.prefix prefix s = false -> JS.stripPrefix prefix s = s.
Proof. intros H. unfold JS.stripPrefix. by rewrite H. Qed.

(** [sep] does not occur in [s]. *)
Fixpoint free_of (sep : ascii) (s : string) : Prop :=
match s with
| EmptyString => True
| String c s' => c <> sep /\ free_of sep s'
end.

Lemma split_free sep s : free_of sep s -> JS.split sep s = [s].
Proof.
induction s as [|c s IH]; simpl; [done|]. intros [Hc Hs].
apply Ascii.eqb_neq in Hc. rewrite Hc, IH; done.
Qed.

Lemma split_nonempty sep s : JS.split sep s <> [].
Proof.
induction s as [|c s IH]; simpl; [done|].
destruct (Ascii.eqb c sep); [done|]. by destruct (JS.split sep s).
Qed.

Lemma split_app sep t b :
JS.split sep (t +:+ String sep b) = JS.split sep t ++ JS.split sep b.
Proof.
induction t as [|c t IH].
- change (EmptyString +:+ String sep b) with (String sep b). simpl.
  by rewrite Ascii.eqb_refl.
- change (String c t +:+ String sep b) with (String c (t +:+ String sep b)).
  simpl. destruct (Ascii.eqb c sep); rewrite IH; [done|].
  destruct (JS.split sep t) as [|seg segs] eqn:Ht; [|done].
  by apply split_nonempty in Ht.
Qed.

(** The last segment of [split] is the text after the last separator. *)
Lemma split_last sep t b :
free_of sep b -> last (JS.split sep (t +:+ String sep b)) = Some b.
Proof.
intros Hb. rewrite split_app, (split_free sep b Hb). apply last_snoc.
Qed.

End StringPrimitives.

(** ** The indexer leaves its regular expressions rewound *)
Section IndexerState.
Import Regex GraphIndexer.

Lemma wikilinkRegex_consuming : consuming wikilinkRegex.
Proof. apply lit_consuming. Qed.

Lemma mdLinkRegex_consuming : consuming mdLinkRegex.
Proof. apply lit_consuming. Qed.

Lemma tagRegex_consuming : consuming tagRegex.
Proof. apply lit_consuming. Qed.

(** The fuel given by [extractLinks] is enough: both loops end, with both
    [lastIndex] fields back at 0. *)
Lemma extractLinks_fuel_total content st :
  exists links,
    extractLinks_fuel (S (String.length content)) content st
    = Some (links, mkState 0 0 (tagLastIndex st)).
Proof.
  unfold extractLinks_fuel.
  destruct (while_exec_total wikilinkRegex content wikilink_body
              wikilinkRegex_consuming (S (String.length content))
              (wikilinkLastIndex st)) as [ws ->]; [lia|lia|].
  destruct (while_exec_total mdLinkRegex content mdlink_body
              mdLinkRegex_consuming (S (String.length content)) 0)
    as [ms ->]; [lia|lia|].
  eauto.
Qed.

Lemma extractTags_fuel_total content st :
  exists ts,
    extractTags_fuel (S (String.length content)) content st
    = Some (ts, mkState (wikilinkLastIndex st) (mdLinkLastIndex st) 0).
Proof.
  unfold extractTags_fuel.
  destruct (while_exec_total tagRegex content
              (fun m => Some (matched content m))
              tagRegex_consuming (S (String.length content)) 0)
    as [ts ->]; [lia|lia|].
  eauto.
Qed.

Lemma extractLinks_state content st :
  (extractLinks content st).2 = mkState 0 0 (tagLastIndex st).
Proof.
  unfold extractLinks.
  by destruct (extractLinks_fuel_total content st) as [links ->].
Qed.

Lemma extractTags_state content st :
  (extractTags content st).2
  = mkState (wikilinkLastIndex st) (mdLinkLastIndex st) 0.
Proof.
  unfold extractTags.
  by destruct (extractTags_fuel_total content st) as [ts ->].
Qed.

(** The links found depend on the state only through the [lastIndex] of
    the wikilink expression. *)
Lemma extractLinks_links content st st' :
  wikilinkLastIndex st = wikilinkLastIndex st' ->
  (extractLinks content st).1 = (extractLinks content st').1.
Proof.
  intros Heq. unfold extractLinks, extractLinks_fuel. rewrite Heq.
  destruct (while_exec _ wikilinkRegex _ _ _) as [[ws wl]|]; [|done].
  by destruct (while_exec _ mdLinkRegex _ _ _) as [[ms ml]|].
Qed.

Lemma extractTags_tags content st st' :
  (extractTags content st).1 = (extractTags content st').1.
Proof.
  unfold extractTags, extractTags_fuel.
  by destruct (while_exec _ tagRegex _ _ _) as [[ts tl]|].
Qed.

(** The links of a note, as a fresh indexer finds them. *)
Definition links_of (note : Note) : list Link :=
  (extractLinks (content note) initial).1.

Definition tags_of (note : Note) : list string :=
  (extractTags (content note) initial).1.

Lemma extractLinks_initial content :
  extractLinks content initial = ((extractLinks content initial).1, initial).
Proof.
  rewrite (surjective_pairing (extractLinks content initial)) at 1.
  by rewrite extractLinks_state.
Qed.

Lemma extractTags_initial content :
  extractTags content initial = ((extractTags content initial).1, initial).
Proof.
  rewrite (surjective_pairing (extractTags content initial)) at 1.
  by rewrite extractTags_state.
Qed.

(** The edge array and the degree map built from the links of the notes. *)
Definition links_step (titleMap : gmap string string)
    (noteMap : gmap string Note)
    (acc : list GraphEdge * gmap string nat) (note : Note)
    : list GraphEdge * gmap string nat :=
  fold_left (link_step titleMap noteMap note) (links_of note) acc.

Lemma note_step_initial tm nm acc note :
  note_step tm nm (acc, initial) note = (links_step tm nm acc note, initial).
Proof.
  unfold note_step, links_step, links_of; simpl.
  by rewrite extractLinks_initial.
Qed.

Lemma fold_note_step_initial tm nm notes acc :
  fold_left (note_step tm nm) notes (acc, initial)
  = (fold_left (links_step tm nm) notes acc, initial).
Proof.
  revert acc. induction notes as [|note notes IH]; intros acc; [done|].
  simpl fold_left at 1. rewrite note_step_initial. apply IH.
Qed.

Definition raw (notes : list Note) : list GraphEdge * gmap string nat :=
  fold_left (links_step (build_titleMap notes) (build_noteMap notes)) notes
            ([], init_degree notes).

Lemma collect_initial notes : collect notes initial = (raw notes, initial).
Proof. unfold collect, raw. apply fold_note_step_initial. Qed.

Definition node_of (nodeDegree : gmap string nat) (note : Note) : GraphNode :=
  let degree := get_degree nodeDegree (id note) in
  mkNode (id note) (title note) (tags_of note) degree
         (getColorForNode (tags_of note) degree).

Lemma fold_node_step_initial nd notes acc :
  fold_left (node_step nd) notes (acc, initial)
  = (acc ++ List.map (node_of nd) notes, initial).
Proof.
  revert acc. induction notes as [|note notes IH]; intros acc; simpl.
  - by rewrite app_nil_r.
  - unfold node_step at 2; simpl. rewrite extractTags_initial.
    rewrite IH. by rewrite <- app_assoc.
Qed.

(** [indexGraph] on a fresh indexer, as a function of the notes alone;
    the indexer is left as it was. *)
Lemma indexGraph_initial notes :
  indexGraph notes initial
  = (mkGraph (List.map (node_of (raw notes).2) notes)
             (deduplicateEdges (raw notes).1), initial).
Proof.
  unfold indexGraph. rewrite collect_initial.
  destruct (raw notes) as [es nd]; simpl.
  by rewrite fold_node_step_initial.
Qed.

End IndexerState.

(** ** Raw edges come in forward/backlink pairs *)
Section RawEdges.
Import GraphIndexer.

(** The raw edge array: each link accepted by [indexGraph] contributes a
    forward edge between two different notes, immediately followed by its
    backlink. *)
Inductive paired : list GraphEdge -> Prop :=
| paired_nil : paired []
| paired_cons s t ty rest :
    s <> t -> paired rest ->
    paired (mkEdge s t (edge_type_of ty) :: mkEdge t s backlink :: rest).

Lemma paired_app l1 l2 : paired l1 -> paired l2 -> paired (l1 ++ l2).
Proof.
induction 1 as [|s t ty rest Hne _ IH]; intros H2; simpl; [done|].
constructor; auto.
Qed.

Lemma link_step_paired tm nm note acc link :
paired acc.1 -> paired (link_step tm nm note acc link).1.
Proof.
intros Hacc. unfold link_step.
destruct (resolveLink link tm nm) as [targetId|]; [|done].
destruct (JS.truthy targetId && negb (String.eqb targetId (id note))) eqn:Hg;
  [|done].
apply andb_true_iff in Hg as [_ Hne]. apply negb_true_iff in Hne.
apply String.eqb_neq in Hne. simpl. rewrite <- app_assoc. simpl.
apply paired_app; [done|]. constructor; [congruence|constructor].
Qed.

Lemma fold_link_step_paired tm nm note links acc :
paired acc.1 -> paired (fold_left (link_step tm nm note) links acc).1.
Proof.
revert acc. induction links as [|l links IH]; intros acc Hacc; [done|].
simpl. apply IH. by apply link_step_paired.
Qed.

Lemma note_step_paired tm nm acc note :
paired acc.1.1 -> paired (note_step tm nm acc note).1.1.
Proof.
intros Hacc. unfold note_step.
destruct (extractLinks (content note) acc.2) as [links st]. simpl.
by apply fold_link_step_paired.
Qed.

Lemma fold_note_step_paired tm nm ns acc :
paired acc.1.1 -> paired (fold_left (note_step tm nm) ns acc).1.1.
Proof.
revert acc. induction ns as [|n ns IH]; intros acc Hacc; [done|].
simpl. apply IH. by apply note_step_paired.
Qed.

Lemma collect_paired notes st : paired (collect notes st).1.1.
Proof. unfold collect. apply fold_note_step_paired. constructor. Qed.

Lemma indexGraph_edges notes st :
edges (indexGraph notes st).1 = deduplicateEdges (collect notes st).1.1.
Proof.
unfold indexGraph. destruct (collect notes st) as [[es nd] st1].
by destruct (fold_left (node_step nd) notes ([], st1)) as [ns st2].
Qed.

Lemma paired_no_self es : paired es -> Forall (fun e => from e <> to e) es.
Proof.
induction 1 as [|s t ty rest Hne _ IH]; [constructor|].
repeat constructor; simpl; [done|congruence|done].
Qed.

End RawEdges.

(** ** Deduplication *)
Section Dedup.
Import GraphIndexer.

(** Two edges join the same unordered pair of notes. *)
Definition same_pair (e1 e2 : GraphEdge) : Prop :=
(from e1 = from e2 /\ to e1 = to e2) \/ (from e1 = to e2 /\ to e1 = from e2).

Lemma lt_asym a b : JS.lt a b = true -> JS.lt b a = false.
Proof.
unfold JS.lt, String.ltb. rewrite (String.compare_antisym b a).
by destruct (String.compare a b).
Qed.

Lemma lt_total a b : JS.lt a b = false -> JS.lt b a = false -> a = b.
Proof.
unfold JS.lt, String.ltb. rewrite (String.compare_antisym b a).
destruct (String.compare a b) eqn:Hc; simpl; try done.
intros _ _. by apply String.compare_eq_iff.
Qed.

(** The key depends on the unordered pair only. *)
Lemma edge_key_swap s t ty ty' :
edge_key (mkEdge t s ty') = edge_key (mkEdge s t ty).
Proof.
unfold edge_key; simpl.
destruct (JS.lt s t) eqn:Hst.
- by rewrite (lt_asym _ _ Hst).
- destruct (JS.lt t s) eqn:Hts; [done|].
  by rewrite (lt_total _ _ Hst Hts).
Qed.

Lemma same_pair_key e1 e2 : same_pair e1 e2 -> edge_key e1 = edge_key e2.
Proof.
destruct e1 as [f1 t1 ty1], e2 as [f2 t2 ty2].
intros [[Hf Ht]|[Hf Ht]]; simpl in *; subst.
- done.
- apply edge_key_swap.
Qed.

(** What [deduplicateEdges] maintains: every kept edge has its key in
    [seen], and no two kept edges have the same key. *)
Definition dedup_inv (acc : gset string * list GraphEdge) : Prop :=
(forall e, e ∈ acc.2 -> edge_key e ∈ acc.1) /\
NoDup (List.map edge_key acc.2).

Lemma dedup_step_inv acc e : dedup_inv acc -> dedup_inv (dedup_step acc e).
Proof.
intros [Hseen Hnd]. unfold dedup_step.
destruct (decide (edge_key e ∈ acc.1)) as [Hin|Hnin]; [done|].
split; simpl.
- intros e' He'. apply elem_of_app in He' as [He'|He'].
  + apply elem_of_union_r. by apply Hseen.
  + apply list_elem_of_singleton in He' as ->. set_solver.
- rewrite map_app. simpl. apply NoDup_app. split_and!; [done| |apply NoDup_singleton].
  intros k Hk Hk'. apply list_elem_of_singleton in Hk' as ->.
  apply list_elem_of_fmap in Hk as (e' & Heq & He').
  apply Hnin. rewrite Heq. by apply Hseen.
Qed.

Lemma fold_dedup_inv es acc :
dedup_inv acc -> dedup_inv (fold_left dedup_step es acc).
Proof.
revert acc. induction es as [|e es IH]; intros acc Hacc; [done|].
simpl. apply IH. by apply dedup_step_inv.
Qed.

Lemma deduplicateEdges_NoDup es :
NoDup (List.map edge_key (deduplicateEdges es)).
Proof.
unfold deduplicateEdges.
apply (fold_dedup_inv es (∅, [])). split; simpl; [set_solver|constructor].
Qed.

(** Deduplication only keeps edges it was given. *)
Lemma fold_dedup_subset es acc e :
e ∈ (fold_left dedup_step es acc).2 -> e ∈ acc.2 \/ e ∈ es.
Proof.
revert acc. induction es as [|e' es IH]; intros acc; simpl; [auto|].
intros H. apply IH in H as [H|H]; [|right; by apply list_elem_of_further].
unfold dedup_step in H. destruct (decide _); [by left|]. simpl in H.
apply elem_of_app in H as [H|H]; [by left|].
apply list_elem_of_singleton in H as ->. right. apply list_elem_of_here.
Qed.

Lemma deduplicateEdges_subset es e : e ∈ deduplicateEdges es -> e ∈ es.
Proof.
unfold deduplicateEdges. intros H.
apply fold_dedup_subset in H as [H|H]; [|done]. simpl in H. set_solver.
Qed.

(** The key of an edge is in [seen] once the edge has been processed. *)
Lemma dedup_step_seen acc e : edge_key e ∈ (dedup_step acc e).1.
Proof.
unfold dedup_step. destruct (decide _); [done|]. simpl. set_solver.
Qed.

Lemma dedup_step_skip acc e : edge_key e ∈ acc.1 -> dedup_step acc e = acc.
Proof. intros H. unfold dedup_step. by destruct (decide _). Qed.

(** On a paired array, the backlink of each pair finds the key of its
    forward twin already seen: no backlink is ever kept. *)
Lemma fold_dedup_paired es acc :
paired es ->
Forall (fun e => type e <> backlink) acc.2 ->
Forall (fun e => type e <> backlink) (fold_left dedup_step es acc).2.
Proof.
intros Hp. revert acc.
induction Hp as [|s t ty rest Hne _ IH]; intros acc Hacc; [done|].
simpl. rewrite (dedup_step_skip (dedup_step acc _) (mkEdge t s backlink)).
- apply IH. unfold dedup_step. destruct (decide _); [done|]. simpl.
  apply Forall_app. split; [done|]. repeat constructor. simpl. by destruct ty.
- rewrite (edge_key_swap s t (edge_type_of ty)). apply dedup_step_seen.
Qed.

End Dedup.

(** ** The lookup maps of [indexGraph] *)
Section LookupMaps.
Import GraphIndexer.

Lemma build_noteMap_snoc ns n :
build_noteMap (ns ++ [n]) = <[id n := n]> (build_noteMap ns).
Proof. unfold build_noteMap. by rewrite fold_left_app. Qed.

Lemma build_titleMap_snoc ns n :
build_titleMap (ns ++ [n])
= <[JS.toLowerCase (title n) := id n]> (build_titleMap ns).
Proof. unfold build_titleMap. by rewrite fold_left_app. Qed.

Lemma init_degree_snoc ns n :
init_degree (ns ++ [n]) = <[id n := 0]> (init_degree ns).
Proof. unfold init_degree. by rewrite fold_left_app. Qed.

(** [noteMap.has(k)]: some note has the id [k]. *)
Lemma build_noteMap_has notes k :
has (build_noteMap notes) k = true <-> k ∈ List.map id notes.
Proof.
unfold has. induction notes as [|n ns IH] using rev_ind.
- unfold build_noteMap; simpl. rewrite lookup_empty. split; [done|].
  intros H. by apply elem_of_nil in H.
- rewrite build_noteMap_snoc, map_app, elem_of_app. simpl.
  rewrite list_elem_of_singleton.
  destruct (decide (id n = k)) as [->|Hne].
  + rewrite lookup_insert_eq. split; auto.
  + rewrite lookup_insert_ne by done. rewrite IH. split; [auto|].
    intros [H|H]; [done|congruence].
Qed.

(** The note a lowercased title stands for: the last note of the list with
    that lowercased title. *)
Definition title_owner (notes : list Note) (k : string) : option Note :=
last (List.filter (fun n => String.eqb (JS.toLowerCase (title n)) k) notes).

Lemma build_titleMap_lookup notes k :
build_titleMap notes !! k = id <$> title_owner notes k.
Proof.
unfold title_owner. induction notes as [|n ns IH] using rev_ind.
- unfold build_titleMap; simpl. by rewrite lookup_empty.
- rewrite build_titleMap_snoc, List.filter_app. simpl.
  destruct (String.eqb_spec (JS.toLowerCase (title n)) k) as [->|Hne].
  + rewrite lookup_insert_eq. by rewrite last_snoc.
  + rewrite lookup_insert_ne by done. by rewrite app_nil_r.
Qed.

Lemma title_owner_elem notes k n :
title_owner notes k = Some n -> n ∈ notes /\ JS.toLowerCase (title n) = k.
Proof.
unfold title_owner. intros H. apply last_Some_elem_of in H.
apply list_elem_of_In, List.filter_In in H as [Hin Heq].
split; [by apply list_elem_of_In|by apply String.eqb_eq].
Qed.

Lemma build_titleMap_has notes k :
has (build_titleMap notes) k = true <->
exists n, n ∈ notes /\ JS.toLowerCase (title n) = k.
Proof.
unfold has. rewrite build_titleMap_lookup. split.
- destruct (title_owner notes k) as [n|] eqn:Ho; [|done].
  intros _. exists n. by apply title_owner_elem.
- intros (n & Hin & Heq). unfold title_owner.
  destruct (last _) as [n'|] eqn:Hl; [done|].
  apply last_None in Hl.
  assert (Hn : List.In n (List.filter
            (fun n => String.eqb (JS.toLowerCase (title n)) k) notes)).
  { apply List.filter_In. split; [by apply list_elem_of_In|by apply String.eqb_eq]. }
  rewrite Hl in Hn. done.
Qed.

(** Whatever [resolveLink] returns is the id of a note. *)
Lemma resolveLink_in_ids notes link t :
resolveLink link (build_titleMap notes) (build_noteMap notes) = Some t ->
t ∈ List.map id notes.
Proof.
assert (Ht : forall k, build_titleMap notes !! k = Some t -> t ∈ List.map id notes).
{ intros k. rewrite build_titleMap_lookup.
  destruct (title_owner notes k) as [n|] eqn:Ho; [|done].
  intros [= <-]. apply title_owner_elem in Ho as [Hin _].
  apply list_elem_of_fmap. eauto. }
unfold resolveLink.
destruct (has (build_noteMap notes) (target link)) eqn:H1.
{ intros [= <-]. by apply build_noteMap_has. }
destruct (has (build_titleMap notes) _); [apply Ht|].
destruct (has (build_titleMap notes) _); [apply Ht|].
destruct (has (build_titleMap notes) _); [apply Ht|done].
Qed.

End LookupMaps.

(** ** Degree bookkeeping *)
Section Degrees.
Import GraphIndexer.

(** The guard of [indexGraph]: the link resolves to a truthy id other than
    the note's own. *)
Definition accepted (tm : gmap string string) (nm : gmap string Note)
  (note : Note) (link : Link) : bool :=
match resolveLink link tm nm with
| Some targetId => JS.truthy targetId && negb (String.eqb targetId (id note))
| None => false
end.

(** The sum of the degrees recorded for the ids of a list. *)
Definition degree_total (ids : list string) (nodeDegree : gmap string nat) : nat :=
sum_list (List.map (get_degree nodeDegree) ids).

Lemma get_degree_insert_eq k v (m : gmap string nat) :
get_degree (<[k := v]> m) k = v.
Proof. unfold get_degree. by rewrite lookup_insert_eq. Qed.

Lemma get_degree_insert_ne k i v (m : gmap string nat) :
k <> i -> get_degree (<[k := v]> m) i = get_degree m i.
Proof. intros H. unfold get_degree. by rewrite lookup_insert_ne. Qed.

Lemma degree_total_other ids k v (m : gmap string nat) :
k ∉ ids -> degree_total ids (<[k := v]> m) = degree_total ids m.
Proof.
unfold degree_total. induction ids as [|i ids IH]; intros Hk; [done|].
apply not_elem_of_cons in Hk as [Hne Hk]. simpl.
rewrite get_degree_insert_ne by done. by rewrite IH.
Qed.

Lemma degree_total_bump ids k (m : gmap string nat) :
NoDup ids -> k ∈ ids ->
degree_total ids (<[k := get_degree m k + 1]> m) = degree_total ids m + 1.
Proof.
induction 1 as [|i ids Hi Hnd IH]; intros Hk.
- by apply elem_of_nil in Hk.
- unfold degree_total in *. simpl. destruct (decide (i = k)) as [->|Hne].
  + rewrite get_degree_insert_eq.
    pose proof (degree_total_other ids k (get_degree m k + 1) m Hi) as Ho.
    unfold degree_total in Ho. rewrite Ho. lia.
  + apply elem_of_cons in Hk as [Hk|Hk]; [congruence|].
    rewrite get_degree_insert_ne by done. rewrite IH by done. lia.
Qed.

Lemma link_step_degree ids tm nm note acc link :
NoDup ids -> id note ∈ ids ->
(forall t, resolveLink link tm nm = Some t -> t ∈ ids) ->
degree_total ids (link_step tm nm note acc link).2
= degree_total ids acc.2 + (if accepted tm nm note link then 2 else 0).
Proof.
intros Hnd Hid Hres. unfold link_step, accepted.
destruct (resolveLink link tm nm) as [t|]; [|simpl; lia].
destruct (JS.truthy t && negb (String.eqb t (id note))); [|simpl; lia].
simpl. rewrite !degree_total_bump; auto. lia.
Qed.

Lemma fold_link_step_degree ids tm nm note links acc :
NoDup ids -> id note ∈ ids ->
(forall link t, resolveLink link tm nm = Some t -> t ∈ ids) ->
degree_total ids (fold_left (link_step tm nm note) links acc).2
= degree_total ids acc.2
  + 2 * length (List.filter (accepted tm nm note) links).
Proof.
intros Hnd Hid Hres. revert acc.
induction links as [|l links IH]; intros acc; simpl; [lia|].
rewrite IH, link_step_degree by eauto.
destruct (accepted tm nm note l); simpl; lia.
Qed.

(** The number of links of the notes that pass the guard. *)
Definition accepted_links (tm : gmap string string) (nm : gmap string Note)
  (notes : list Note) : nat :=
sum_list (List.map (fun note =>
  length (List.filter (accepted tm nm note) (links_of note))) notes).

Lemma fold_links_step_degree ids tm nm ns acc :
NoDup ids -> Forall (fun n => id n ∈ ids) ns ->
(forall link t, resolveLink link tm nm = Some t -> t ∈ ids) ->
degree_total ids (fold_left (links_step tm nm) ns acc).2
= degree_total ids acc.2 + 2 * accepted_links tm nm ns.
Proof.
intros Hnd Hids Hres. revert acc.
induction Hids as [|n ns Hn _ IH]; intros acc; simpl.
- unfold accepted_links; simpl. lia.
- rewrite IH. unfold links_step.
  rewrite fold_link_step_degree by done.
  unfold accepted_links; simpl. lia.
Qed.

Lemma init_degree_zero notes k : get_degree (init_degree notes) k = 0.
Proof.
unfold get_degree. induction notes as [|n ns IH] using rev_ind.
- unfold init_degree; simpl. by rewrite lookup_empty.
- rewrite init_degree_snoc. destruct (decide (id n = k)) as [->|Hne].
  + by rewrite lookup_insert_eq.
  + by rewrite lookup_insert_ne.
Qed.

Lemma degree_total_init ids notes : degree_total ids (init_degree notes) = 0.
Proof.
unfold degree_total. induction ids as [|i ids IH]; [done|].
simpl. rewrite init_degree_zero. exact IH.
Qed.

(** With pairwise distinct ids, the degrees of the nodes add up to twice the
    number of accepted links. *)
Lemma degree_sum_accepted notes :
NoDup (List.map id notes) ->
sum_list (List.map degree (nodes (indexGraph notes initial).1))
= 2 * accepted_links (build_titleMap notes) (build_noteMap notes) notes.
Proof.
intros Hnd. rewrite indexGraph_initial. simpl.
rewrite List.map_map. simpl.
change (sum_list (List.map (fun x => get_degree (raw notes).2 (id x)) notes))
  with (sum_list (List.map (fun x => (get_degree (raw notes).2) (id x)) notes)).
rewrite <- (List.map_map id (get_degree (raw notes).2)).
fold (degree_total (List.map id notes) (raw notes).2).
unfold raw. rewrite fold_links_step_degree.
- simpl. by rewrite degree_total_init.
- done.
- apply Forall_forall. intros n Hn. apply list_elem_of_fmap. eauto.
- intros link t. apply resolveLink_in_ids.
Qed.

End Degrees.

(** ** The indexer: deduplication, self-links, degrees, idempotence *)
Section IndexerClaims.
Import GraphIndexer.

(** C1. For every note list (and whatever state the indexer is in), the
    edge list returned by [indexGraph] holds at most one edge per unordered
    pair of endpoints: two entries that join the same unordered pair are the
    same entry.  No returned edge joins a note to itself. *)
Theorem indexGraph_one_edge_per_pair (notes : list Note) (st : istate) :
let es := edges (indexGraph notes st).1 in
(forall i j e1 e2,
   es !! i = Some e1 -> es !! j = Some e2 -> same_pair e1 e2 -> i = j)
/\ (forall e, e ∈ es -> from e <> to e).
Proof.
simpl. rewrite indexGraph_edges. split.
- intros i j e1 e2 H1 H2 Hsp.
  apply (NoDup_lookup _ i j (edge_key e1)
           (deduplicateEdges_NoDup (collect notes st).1.1)).
  + by rewrite list_lookup_fmap, H1.
  + rewrite list_lookup_fmap, H2. simpl. f_equal. symmetry.
    by apply same_pair_key.
- intros e He. apply deduplicateEdges_subset in He.
  pose proof (paired_no_self _ (collect_paired notes st)) as Hall.
  rewrite Forall_forall in Hall. by apply Hall.
Qed.

(** C10. The raw edge array of [indexGraph] is a sequence of pairs, each
    forward edge immediately followed by its backlink; every edge that
    [indexGraph] returns has type [wikilink] or [mdlink], never [backlink];
    so on returned edges the type test of [getBacklinks] filters nothing. *)
Theorem indexGraph_returns_no_backlink (notes : list Note) (st : istate) :
let es := edges (indexGraph notes st).1 in
paired (collect notes st).1.1
/\ (forall e, e ∈ es -> type e = wikilink \/ type e = mdlink)
/\ (forall noteId,
      getBacklinks noteId es
      = List.map from (List.filter (fun e => String.eqb (to e) noteId) es)).
Proof.
simpl. rewrite indexGraph_edges.
pose proof (collect_paired notes st) as Hp.
assert (Hall : Forall (fun e => type e <> backlink)
                 (deduplicateEdges (collect notes st).1.1)).
{ unfold deduplicateEdges. by apply fold_dedup_paired. }
split_and!; [done| |].
- intros e He. rewrite Forall_forall in Hall. specialize (Hall e He).
  destruct (type e); auto. done.
- intros noteId. unfold getBacklinks. f_equal.
  induction Hall as [|e es He _ IH]; [done|]. simpl.
  rewrite IH. rewrite (bool_decide_eq_false_2 _ He). simpl.
  by rewrite andb_true_r.
Qed.

(** A link that resolves to its own note fails the guard of the loop body. *)
Lemma link_step_self tm nm note link acc :
resolveLink link tm nm = Some (id note) ->
link_step tm nm note acc link = acc.
Proof.
intros Hres. unfold link_step. rewrite Hres.
rewrite String.eqb_refl. simpl. by rewrite andb_false_r.
Qed.

(** C7. A link that resolves to the note it stands in is ignored entirely:
    the loop body leaves the edge array and the degree map as they were (no
    forward edge, no backlink, no degree increment). *)
Theorem self_link_ignored (titleMap : gmap string string)
  (noteMap : gmap string Note) (note : Note) (link : Link)
  (acc : list GraphEdge * gmap string nat) :
resolveLink link titleMap noteMap = Some (id note) ->
link_step titleMap noteMap note acc link = acc.
Proof.
apply link_step_self.
Qed.

(** The notes of the end-to-end scenario of the specification. *)
Definition home : Note := mkNote "1" "Home" "See [[Work]] and [[Home]]".
Definition work : Note := mkNote "2" "Work" "Back to [[Home]]".
Definition lonely : Note := mkNote "3" "Isolated" "no links".

Lemma self_link_ignored_witness :
link_step (build_titleMap [home; work; lonely])
          (build_noteMap [home; work; lonely]) home
          ([], init_degree [home; work; lonely]) (mkLink "Home" LWikilink)
= ([], init_degree [home; work; lonely]).
Proof. apply self_link_ignored. reflexivity. Defined.

(** The self-links of a note can be struck from its links without changing
    what [indexGraph] collects for it. *)
Lemma self_links_erased tm nm note links acc :
fold_left (link_step tm nm note) links acc
= fold_left (link_step tm nm note)
    (List.filter (fun l => negb (bool_decide (resolveLink l tm nm = Some (id note))))
                 links) acc.
Proof.
revert acc. induction links as [|l links IH]; intros acc; [done|]. simpl.
case_bool_decide as Hl; simpl.
- rewrite (link_step_self tm nm note l acc Hl). apply IH.
- apply IH.
Qed.

End IndexerClaims.

(** ** Degree consistency and idempotence *)
Section DegreeClaims.
Import GraphIndexer.

(** [resolveLink] against the maps [indexGraph] builds for the notes. *)
Definition resolve (notes : list Note) (link : Link) : option string :=
resolveLink link (build_titleMap notes) (build_noteMap notes).

(** A resolved link that is not a self-link of [note]. *)
Definition counts (notes : list Note) (note : Note) (link : Link) : bool :=
match resolve notes link with
| Some targetId => negb (String.eqb targetId (id note))
| None => false
end.

(** The number of resolved links, self-links left out; a link written
    several times counts each time. *)
Definition counted_links (notes : list Note) : nat :=
sum_list (List.map (fun note =>
  length (List.filter (counts notes note) (links_of note))) notes).

(** The same number when equal (source, target) pairs count once. *)
Definition counted_pairs (notes : list Note) : nat :=
length (remove_dups (List.flat_map (fun note =>
  omap (fun link =>
          if counts notes note link
          then (fun t => (id note, t)) <$> resolve notes link else None)
       (links_of note)) notes)).

(** The sum of the degrees of the nodes that [indexGraph] returns. *)
Definition degree_sum (notes : list Note) : nat :=
sum_list (List.map degree (nodes (indexGraph notes initial).1)).

Lemma truthy_nonempty s : JS.truthy s = true <-> s <> EmptyString.
Proof. destruct s; simpl; split; done. Qed.

Lemma accepted_counts notes note link :
Forall (fun n => id n <> EmptyString) notes ->
accepted (build_titleMap notes) (build_noteMap notes) note link
= counts notes note link.
Proof.
intros Hne. unfold accepted, counts, resolve.
destruct (resolveLink _ _ _) as [t|] eqn:Hres; [|done].
apply resolveLink_in_ids in Hres.
apply list_elem_of_fmap in Hres as (n & -> & Hn).
rewrite Forall_forall in Hne. specialize (Hne n Hn).
apply truthy_nonempty in Hne. by rewrite Hne.
Qed.

(** C2, as amended. For every note list whose ids are pairwise distinct and
    not empty, the degrees of the returned nodes add up to twice the number
    of resolved links that are not self-links, each occurrence of a link
    counting once, whatever deduplication keeps. *)
Theorem degree_sum_twice_links (notes : list Note) :
NoDup (List.map id notes) ->
Forall (fun n => id n <> EmptyString) notes ->
degree_sum notes = 2 * counted_links notes.
Proof.
intros Hnd Hne. unfold degree_sum. rewrite degree_sum_accepted by done.
f_equal. unfold accepted_links, counted_links. f_equal.
apply List.map_ext. intros note. f_equal.
apply List.filter_ext. intros link. by apply accepted_counts.
Qed.

Lemma degree_sum_twice_links_witness :
degree_sum [home; work; lonely] = 2 * counted_links [home; work; lonely].
Proof.
apply degree_sum_twice_links.
- refine (bool_decide_unpack (NoDup (List.map id [home; work; lonely])) _).
  vm_compute. exact I.
- repeat constructor; discriminate.
Defined.

(** Two notes that share an id: the degree recorded for the id is read once
    per note. *)
Definition twin_a : Note := mkNote "1" "A" "[[B]]".
Definition twin_b : Note := mkNote "1" "A2" "".
Definition target_b : Note := mkNote "2" "B" "".

(** C2, as stated, fails on a list with a repeated id: one resolved link,
    three units of degree. *)
Lemma degree_sum_repeated_id :
degree_sum [twin_a; twin_b; target_b] = 3
/\ counted_links [twin_a; twin_b; target_b] = 1
/\ counted_pairs [twin_a; twin_b; target_b] = 1
/\ degree_sum [twin_a; twin_b; target_b]
   <> 2 * counted_links [twin_a; twin_b; target_b].
Proof. vm_compute. split_and!; try reflexivity. discriminate. Qed.

(** A link to a note whose id is the empty string resolves but fails the
    truthiness test of the guard. *)
Example degree_sum_empty_id :
degree_sum [mkNote "" "B" ""; mkNote "1" "A" "[[B]]"] = 0
/\ counted_links [mkNote "" "B" ""; mkNote "1" "A" "[[B]]"] = 1.
Proof. vm_compute. done. Qed.

(** A link written twice counts twice. *)
Example degree_sum_repeated_link :
degree_sum [mkNote "1" "A" "[[B]] [[B]]"; mkNote "2" "B" ""] = 4
/\ counted_links [mkNote "1" "A" "[[B]] [[B]]"; mkNote "2" "B" ""] = 2
/\ length (edges (indexGraph [mkNote "1" "A" "[[B]] [[B]]"; mkNote "2" "B" ""]
                             initial).1) = 1.
Proof. vm_compute. done. Qed.

(** C9. [indexGraph] leaves the indexer as a fresh one: a second call on
    the same list returns the same graph (the same nodes with the same
    degrees, the same edges, hence the same unordered pairs), and a call in
    between on any other list changes nothing. *)
Theorem indexGraph_idempotent (notes before : list Note) :
let first := indexGraph notes initial in
let second := indexGraph notes first.2 in
first.2 = initial
/\ second = first
/\ List.map degree (nodes second.1) = List.map degree (nodes first.1)
/\ (forall e1, e1 ∈ edges second.1 ->
      exists e2, e2 ∈ edges first.1 /\ same_pair e1 e2)
/\ (forall e1, e1 ∈ edges first.1 ->
      exists e2, e2 ∈ edges second.1 /\ same_pair e1 e2)
/\ indexGraph notes (indexGraph before initial).2 = first.
Proof.
simpl. rewrite (indexGraph_initial before). simpl.
assert (H2 : indexGraph notes (indexGraph notes initial).2
             = indexGraph notes initial).
{ rewrite (indexGraph_initial notes) at 1. done. }
rewrite H2. split_and!; try done.
- by rewrite indexGraph_initial.
- intros e He. exists e. split; [done|]. by left.
- intros e He. exists e. split; [done|]. by left.
Qed.

(** Outside the reachable states the result does depend on the state: with
    the wikilink expression left at a later [lastIndex], the first link of
    the first note is missed. *)
Example indexGraph_depends_on_lastIndex :
edges (indexGraph [home; work] (mkState 10 0 0)).1 = [mkEdge "2" "1" wikilink]
/\ edges (indexGraph [home; work] initial).1 = [mkEdge "1" "2" wikilink].
Proof. vm_compute. done. Qed.

End DegreeClaims.

(** ** Link resolution *)
Section Resolution.
Import GraphIndexer.

(** Rule 1: the target is the id of some note. *)
Definition is_note_id (notes : list Note) (target : string) : bool :=
existsb (fun n => String.eqb (id n) target) notes.

(** Rule 2: the lowercased text is the lowercased title of some note; the
    id is that of the last such note of the list. *)
Definition by_title (notes : list Note) (text : string) : option string :=
id <$> title_owner notes (JS.toLowerCase text).

(** The target without a trailing [.md] and a leading [./]. *)
Definition cleaned (target : string) : string :=
JS.stripPrefix "./" (JS.stripSuffix ".md" target).

(** The segment after the last [/]. *)
Definition basename (text : string) : string :=
default EmptyString (last (JS.split "/" text)).

(** The rules in their order, the first match winning; [rule4] tells what
    the fourth rule does with the cleaned target. *)
Definition resolve_in_order (rule4 : list Note -> string -> option string)
  (notes : list Note) (target : string) : option string :=
if is_note_id notes target then Some target
else match by_title notes target with
     | Some i => Some i
     | None =>
         match by_title notes (cleaned target) with
         | Some i => Some i
         | None => rule4 notes (cleaned target)
         end
     end.

(** Rule 4 as the specification words it: rule 2 on the basename. *)
Definition rule4_stated (notes : list Note) (text : string) : option string :=
by_title notes (basename text).

(** Rule 4 as the code has it: rule 2 on the basename when the basename is
    not empty. *)
Definition rule4_nonempty (notes : list Note) (text : string) : option string :=
if JS.truthy (basename text) then by_title notes (basename text) else None.

Lemma is_note_id_has notes target :
has (build_noteMap notes) target = is_note_id notes target.
Proof.
apply eq_true_iff_eq. rewrite build_noteMap_has. unfold is_note_id.
rewrite existsb_exists, list_elem_of_fmap. split.
- intros (n & -> & Hn). exists n. split; [by apply list_elem_of_In|].
  apply String.eqb_refl.
- intros (n & Hn & Heq). apply String.eqb_eq in Heq.
  exists n. split; [done|by apply list_elem_of_In].
Qed.

(** A guarded lookup in [titleMap] is rule 2. *)
Lemma titleMap_guarded notes text (other : option string) :
(if has (build_titleMap notes) (JS.toLowerCase text)
 then build_titleMap notes !! JS.toLowerCase text else other)
= match by_title notes text with Some i => Some i | None => other end.
Proof.
unfold has, by_title. rewrite build_titleMap_lookup.
by destruct (title_owner notes (JS.toLowerCase text)).
Qed.

(** C3, as amended. [resolveLink] tries the rules in the fixed order and
    uses the first that matches: (1) the target is a note id; (2) the
    lowercased target is a lowercased title; (3) the same after a trailing
    [.md] and a leading [./] are removed; (4) the same on the basename of
    the cleaned target, provided the basename is not empty; (5) otherwise
    nothing. *)
Theorem resolveLink_in_order (notes : list Note) (link : Link) :
resolveLink link (build_titleMap notes) (build_noteMap notes)
= resolve_in_order rule4_nonempty notes (target link).
Proof.
unfold resolveLink, resolve_in_order. rewrite is_note_id_has.
destruct (is_note_id notes (target link)); [done|].
rewrite titleMap_guarded.
destruct (by_title notes (target link)) as [i|]; [done|].
fold (cleaned (target link)).
rewrite titleMap_guarded.
destruct (by_title notes (cleaned (target link))) as [i|] eqn:H3; [done|].
unfold rule4_nonempty, basename, JS.pop.
destruct (last (JS.split "/" (cleaned (target link)))) as [b|] eqn:Hl.
- simpl. destruct (JS.truthy b).
  + rewrite titleMap_guarded. by destruct (by_title notes b).
  + rewrite titleMap_guarded. by rewrite H3.
- apply last_None in Hl. by apply split_nonempty in Hl.
Qed.

(** A note without a title. *)
Definition untitled : Note := mkNote "1" "" "".

(** C3, as stated, fails when the cleaned target ends with [/] and some
    note has an empty title: the basename is empty, rule 2 on it would pick
    that note, and [resolveLink] returns nothing. *)
Lemma resolveLink_empty_basename :
resolveLink (mkLink "a/" LWikilink) (build_titleMap [untitled])
            (build_noteMap [untitled]) = None
/\ resolve_in_order rule4_stated [untitled] "a/" = Some "1".
Proof. vm_compute. done. Qed.

(** The examples of the specification, for a note "Project Plan" with id
    "abc": by id, by title, and nothing for an unknown title; the file name
    [project-plan.md] does not resolve (its cleaned form is not the title). *)
Example resolveLink_examples :
let plan := [mkNote "abc" "Project Plan" ""] in
resolve plan (mkLink "abc" LWikilink) = Some "abc"
/\ resolve plan (mkLink "Project Plan" LWikilink) = Some "abc"
/\ resolve plan (mkLink "./notes/Project Plan.md" LMdlink) = Some "abc"
/\ resolve plan (mkLink "Nonexistent Note" LWikilink) = None
/\ resolve plan (mkLink "project-plan.md" LWikilink) = None.
Proof. vm_compute. done. Qed.

End Resolution.

(** ** The adjacency map of [shortestPath] *)
Section Adjacency.
Import GraphIndexer.

Definition adjacency_step (adj : gmap string (list string)) (edge : GraphEdge)
  : gmap string (list string) :=
let adj := if has adj (from edge) then adj else <[from edge := []]> adj in
<[from edge := default [] (adj !! from edge) ++ [to edge]]> adj.

Lemma build_adjacency_snoc es e :
build_adjacency (es ++ [e]) = adjacency_step (build_adjacency es) e.
Proof. unfold build_adjacency. by rewrite fold_left_app. Qed.

Lemma adjacency_step_lookup adj e v :
default [] (adjacency_step adj e !! v)
= default [] (adj !! v) ++ (if String.eqb (from e) v then [to e] else []).
Proof.
unfold adjacency_step, has.
destruct (String.eqb_spec (from e) v) as [<-|Hne].
- rewrite lookup_insert_eq. simpl.
  destruct (adj !! from e) as [l|] eqn:Hl; simpl.
  + by rewrite Hl.
  + by rewrite lookup_insert_eq.
- rewrite lookup_insert_ne by done. rewrite app_nil_r.
  destruct (adj !! from e); [done|]. by rewrite lookup_insert_ne.
Qed.

(** The neighbours recorded for [v]: the targets of the edges that leave
    [v], in the order of the edges. *)
Lemma build_adjacency_lookup es v :
default [] (build_adjacency es !! v)
= List.map to (List.filter (fun e => String.eqb (from e) v) es).
Proof.
induction es as [|e es IH] using rev_ind.
- unfold build_adjacency; simpl. by rewrite lookup_empty.
- rewrite build_adjacency_snoc, adjacency_step_lookup, IH.
  rewrite List.filter_app, List.map_app. simpl.
  by destruct (String.eqb (from e) v).
Qed.

End Adjacency.

(** ** Shortest path: breadth-first search *)
Section ShortestPath.
Import GraphIndexer.

Variable edges : list GraphEdge.

(** The directed adjacency implied by the edges. *)
Definition step_to (a b : string) : Prop :=
exists e, e ∈ edges /\ from e = a /\ to e = b.

Definition reachable (a b : string) : Prop := rtc step_to a b.

(** A sequence of ids in which each id has an edge to the next. *)
Fixpoint is_walk (p : list string) : Prop :=
match p with
| a :: q => match q with
            | b :: _ => step_to a b /\ is_walk q
            | [] => True
            end
| [] => True
end.

Definition path_between (a b : string) (p : list string) : Prop :=
head p = Some a /\ last p = Some b /\ is_walk p.

Definition neighbors_of (v : string) : list string :=
default [] (build_adjacency edges !! v).

Lemma is_walk_snoc p c n :
is_walk p -> last p = Some c -> step_to c n -> is_walk (p ++ [n]).
Proof.
induction p as [|a q IH]; [done|].
destruct q as [|b q'].
- simpl. intros _ [= ->] Hs. done.
- intros [Hab Hq] Hl Hs. change (step_to a b /\ is_walk ((b :: q') ++ [n])).
  split; [done|]. apply IH; [done| |done]. by rewrite last_cons_cons in Hl.
Qed.

Lemma path_between_snoc a c n p :
path_between a c p -> step_to c n -> path_between a n (p ++ [n]).
Proof.
intros (Hh & Hl & Hw) Hs. split_and!.
- destruct p; [done|]. done.
- apply last_snoc.
- by eapply is_walk_snoc.
Qed.

Lemma path_between_reachable a b p : path_between a b p -> reachable a b.
Proof.
revert a. induction p as [|x q IH]; intros a (Hh & Hl & Hw); [done|].
simpl in Hh. injection Hh as ->.
destruct q as [|y q'].
- simpl in Hl. injection Hl as ->. apply rtc_refl.
- destruct Hw as [Hs Hw]. eapply rtc_l; [exact Hs|].
  apply IH. split_and!; [done| |done]. by rewrite last_cons_cons in Hl.
Qed.

Lemma neighbors_of_spec v n : n ∈ neighbors_of v <-> step_to v n.
Proof.
unfold neighbors_of, step_to. rewrite build_adjacency_lookup.
rewrite list_elem_of_fmap. split.
- intros (e & -> & He). apply list_elem_of_In, List.filter_In in He as [He Hf].
  apply String.eqb_eq in Hf. exists e. split_and!; [by apply list_elem_of_In|done|done].
- intros (e & He & Hf & Ht). exists e. split; [done|].
  apply list_elem_of_In, List.filter_In. split; [by apply list_elem_of_In|].
  by apply String.eqb_eq.
Qed.

(** *** The loop over the neighbours *)

(** Every id that can ever be queued. *)
Definition candidates (fromId : string) : gset string :=
{[fromId]} ∪ list_to_set (List.map to edges).

Lemma size_remove_one (W : gset string) n :
n ∈ W -> size (W ∖ {[n]}) + 1 = size W.
Proof.
intros Hn. rewrite size_difference by set_solver. rewrite size_singleton.
assert (size ({[n]} : gset string) <= size W) by (apply subseteq_size; set_solver).
rewrite size_singleton in H. lia.
Qed.

Lemma visit_fold_spec (U : gset string) path ns queue visited :
let res := fold_left (visit_step path) ns (queue, visited) in
visited ⊆ res.2
/\ (forall n, n ∈ ns -> n ∈ res.2)
/\ (forall x, x ∈ res.2 -> x ∈ visited \/ x ∈ res.1.*1)
/\ (forall item, item ∈ queue -> item ∈ res.1)
/\ (forall item, item ∈ res.1 ->
      item ∈ queue \/ (item.1 ∈ ns /\ item.2 = path ++ [item.1]))
/\ ((forall n, n ∈ ns -> n ∈ U) ->
    size (U ∖ res.2) + length res.1 <= size (U ∖ visited) + length queue).
Proof.
revert queue visited. induction ns as [|n ns IH]; intros queue visited; simpl.
- split_and!; try done; auto. intros n Hn. by apply elem_of_nil in Hn.
- specialize (IH (visit_step path (queue, visited) n).1
                 (visit_step path (queue, visited) n).2).
  rewrite <- surjective_pairing in IH. simpl in IH.
  destruct IH as (I1 & I2 & I3 & I4 & I5 & I6).
  unfold visit_step in *. simpl in *.
  destruct (decide (n ∈ visited)) as [Hin|Hnin]; simpl in *.
  + split_and!; try done.
    * intros m Hm. apply elem_of_cons in Hm as [->|Hm]; [by apply I1|by apply I2].
    * intros item Hitem. apply I5 in Hitem as [?|[? ?]]; [by left|right].
      split; [by apply list_elem_of_further|done].
    * intros HU. apply I6. intros m Hm. apply HU. by apply list_elem_of_further.
  + split_and!.
    * set_solver.
    * intros m Hm. apply elem_of_cons in Hm as [->|Hm]; [|by apply I2].
      apply I1. set_solver.
    * intros x Hx. apply I3 in Hx as [Hx|Hx]; [|by right].
      apply elem_of_union in Hx as [Hx|Hx]; [|by left].
      apply elem_of_singleton in Hx as ->. right.
      apply list_elem_of_fmap. exists (n, path ++ [n]). split; [done|].
      apply I4. apply elem_of_app. right. apply list_elem_of_here.
    * intros item Hitem. apply I4. apply elem_of_app. by left.
    * intros item Hitem. apply I5 in Hitem as [Hitem|[? ?]].
      -- apply elem_of_app in Hitem as [?|Hitem]; [by left|].
         apply list_elem_of_singleton in Hitem as ->. right. simpl.
         split; [apply list_elem_of_here|done].
      -- right. split; [by apply list_elem_of_further|done].
    * intros HU. etrans; [apply I6|].
      { intros m Hm. apply HU. by apply list_elem_of_further. }
      rewrite length_app. simpl.
      assert (Hn : n ∈ U ∖ visited).
      { apply elem_of_difference. split; [|done]. apply HU, list_elem_of_here. }
      apply size_remove_one in Hn.
      assert (Heq : U ∖ ({[n]} ∪ visited) = (U ∖ visited) ∖ {[n]})
        by (apply set_eq; intros x;
            rewrite !elem_of_difference, elem_of_union, elem_of_singleton; tauto).
      rewrite Heq. lia.
Qed.

(** *** The main loop *)

Variable fromId toId : string.

(** Every queued item carries a path from the start to its id. *)
Definition queue_ok (queue : list (string * list string)) : Prop :=
forall item, item ∈ queue -> path_between fromId item.1 item.2.

(** Every visited id is still queued, or has been taken from the queue: it
    is not the destination and all its neighbours are visited. *)
Definition closed (queue : list (string * list string))
  (visited : gset string) : Prop :=
forall v, v ∈ visited ->
  v ∈ queue.*1 \/ (v <> toId /\ forall n, n ∈ neighbors_of v -> n ∈ visited).

Lemma neighbors_candidates v n :
n ∈ neighbors_of v -> n ∈ candidates fromId.
Proof.
intros Hn. apply neighbors_of_spec in Hn as (e & He & _ & <-).
unfold candidates. apply elem_of_union_r, elem_of_list_to_set.
apply list_elem_of_fmap. eauto.
Qed.

(** A path returned by the loop is a path from the start to the
    destination. *)
Lemma bfs_sound fuel queue visited p :
queue_ok queue ->
bfs fuel toId (build_adjacency edges) queue visited = Some (Some p) ->
path_between fromId toId p.
Proof.
revert queue visited. induction fuel as [|fuel IH]; intros queue visited Hq;
  simpl; [done|].
destruct queue as [|[c pc] queue]; [done|]. simpl.
destruct (String.eqb_spec c toId) as [->|Hne].
- intros [= <-]. apply (Hq (toId, pc)), list_elem_of_here.
- fold (neighbors_of c).
  destruct (fold_left (visit_step pc) (neighbors_of c) (queue, visited))
    as [queue' visited'] eqn:Hfold.
  apply IH. intros item Hitem.
  pose proof (visit_fold_spec ∅ pc (neighbors_of c) queue visited) as Hspec.
  rewrite Hfold in Hspec. simpl in Hspec.
  destruct Hspec as (_ & _ & _ & _ & H5 & _).
  apply H5 in Hitem as [Hitem|[Hn Hp]].
  + apply Hq. by apply list_elem_of_further.
  + rewrite Hp. eapply path_between_snoc.
    * apply (Hq (c, pc)), list_elem_of_here.
    * by apply neighbors_of_spec.
Qed.

(** When the loop ends with nothing, the destination cannot be reached. *)
Lemma bfs_complete fuel queue visited :
closed queue visited -> fromId ∈ visited ->
bfs fuel toId (build_adjacency edges) queue visited = Some None ->
~ reachable fromId toId.
Proof.
revert queue visited. induction fuel as [|fuel IH];
  intros queue visited Hcl Hfrom; simpl; [done|].
destruct queue as [|[c pc] queue].
- intros _ Hreach.
  assert (Hall : forall v, reachable fromId v -> v ∈ visited).
  { intros v Hv. apply rtc_nsteps in Hv as [k Hv]. revert v Hv.
    induction k as [|k IHk]; intros v Hv.
    - inversion Hv; by subst.
    - apply nsteps_inv_r in Hv as (w & Hw & Hs).
      specialize (IHk w Hw). destruct (Hcl w IHk) as [Hin|[_ Hn]].
      + simpl in Hin. by apply elem_of_nil in Hin.
      + apply Hn. by apply neighbors_of_spec. }
  specialize (Hall toId Hreach). destruct (Hcl toId Hall) as [Hin|[Hne _]].
  + simpl in Hin. by apply elem_of_nil in Hin.
  + done.
- simpl. destruct (String.eqb_spec c toId) as [->|Hne]; [done|].
  fold (neighbors_of c).
  destruct (fold_left (visit_step pc) (neighbors_of c) (queue, visited))
    as [queue' visited'] eqn:Hfold.
  pose proof (visit_fold_spec ∅ pc (neighbors_of c) queue visited) as Hspec.
  rewrite Hfold in Hspec. simpl in Hspec.
  destruct Hspec as (H1 & H2 & H3 & H4 & _ & _).
  apply IH; [|by apply H1].
  intros v Hv. apply H3 in Hv as [Hv|Hv]; [|by left].
  destruct (Hcl v Hv) as [Hin|[Hvne Hn]].
  + simpl in Hin. apply elem_of_cons in Hin as [->|Hin].
    * right. split; [done|]. exact H2.
    * left. apply list_elem_of_fmap in Hin as (item & -> & Hitem).
      apply list_elem_of_fmap. exists item. split; [done|]. by apply H4.
  + right. split; [done|]. intros n Hnn. apply H1. by apply Hn.
Qed.

(** The loop ends before the fuel does: each round takes one item from the
    queue, and an id is queued only when it leaves the unvisited candidates. *)
Lemma bfs_ends fuel queue visited :
size (candidates fromId ∖ visited) + length queue < fuel ->
exists r, bfs fuel toId (build_adjacency edges) queue visited = Some r.
Proof.
revert queue visited. induction fuel as [|fuel IH]; intros queue visited Hm;
  simpl; [lia|].
destruct queue as [|[c pc] queue]; [eauto|]. simpl.
destruct (String.eqb c toId); [eauto|].
fold (neighbors_of c).
destruct (fold_left (visit_step pc) (neighbors_of c) (queue, visited))
  as [queue' visited'] eqn:Hfold.
pose proof (visit_fold_spec (candidates fromId) pc (neighbors_of c) queue visited)
  as Hspec.
rewrite Hfold in Hspec. simpl in Hspec.
destruct Hspec as (_ & _ & _ & _ & _ & H6).
apply IH. simpl in Hm.
specialize (H6 (fun n Hn => neighbors_candidates c n Hn)). lia.
Qed.

Lemma size_list_to_set_le (l : list string) :
size (list_to_set l : gset string) <= length l.
Proof.
induction l as [|x l IH]; simpl.
- done.
- rewrite size_union_alt, size_singleton.
  assert (size ((list_to_set l : gset string) ∖ {[x]})
          <= size (list_to_set l : gset string)).
  { apply subseteq_size.
    intros y Hy. by apply elem_of_difference in Hy as [Hy _]. }
  lia.
Qed.

Lemma initial_measure :
size (candidates fromId ∖ {[fromId]}) + length [(fromId, [fromId])]
< length edges + 2.
Proof.
simpl.
assert (size (candidates fromId ∖ {[fromId]}) <= length edges); [|lia].
etrans; [|etrans; [apply (size_list_to_set_le (List.map to edges))|]].
- apply subseteq_size. unfold candidates. intros x Hx.
  apply elem_of_difference in Hx as [Hx Hne].
  by apply elem_of_union in Hx as [Hx|Hx].
- by rewrite length_map.
Qed.

(** [shortestPath] returns a path from the start to the destination when
    there is one, and nothing otherwise. *)
Lemma shortestPath_spec :
match shortestPath fromId toId edges with
| Some p => path_between fromId toId p
| None => ~ reachable fromId toId
end.
Proof.
unfold shortestPath.
destruct (bfs_ends (length edges + 2) [(fromId, [fromId])] {[fromId]}
            initial_measure) as [r Hr].
rewrite Hr. simpl. destruct r as [p|].
- eapply bfs_sound; [|exact Hr]. intros item Hitem.
  apply list_elem_of_singleton in Hitem as ->. by split_and!.
- eapply bfs_complete; [| |exact Hr].
  + intros v Hv. left. apply elem_of_singleton in Hv as ->.
    simpl. apply list_elem_of_here.
  + by apply elem_of_singleton.
Qed.

End ShortestPath.

(** ** The path returned is a shortest one *)
Section ShortestPathMinimal.
Import GraphIndexer.

Variable edges : list GraphEdge.
Variable fromId toId : string.

(** The items queued by the loop over the neighbours come after the old
    ones; each is a neighbour that was not visited, with the path of the
    current item extended by it. *)
Lemma visit_fold_app path ns queue visited :
exists new,
  (fold_left (visit_step path) ns (queue, visited)).1 = queue ++ new
  /\ Forall (fun item => item.1 ∈ ns /\ (item.1 ∉ visited)
                         /\ item.2 = path ++ [item.1]) new.
Proof.
revert queue visited. induction ns as [|n ns IH]; intros queue visited; simpl.
- exists []. by rewrite app_nil_r.
- unfold visit_step at 2. simpl.
  destruct (decide (n ∈ visited)) as [Hin|Hnin].
  + destruct (IH queue visited) as (new & -> & Hnew).
    exists new. split; [done|].
    eapply Forall_impl; [exact Hnew|]. intros item (? & ? & ?).
    split_and!; [by apply list_elem_of_further|done|done].
  + destruct (IH (queue ++ [(n, path ++ [n])]) ({[n]} ∪ visited))
      as (new & -> & Hnew).
    exists ((n, path ++ [n]) :: new). split; [by rewrite <- app_assoc|].
    constructor.
    * simpl. split_and!; [apply list_elem_of_here|done|done].
    * eapply Forall_impl; [exact Hnew|]. intros item (? & Hv & ?).
      split_and!; [by apply list_elem_of_further| |done].
      intros Hv'. apply Hv. by apply elem_of_union_r.
Qed.

(** No walk from the start to a queued id is shorter than the queued path. *)
Definition shortest_in_queue (queue : list (string * list string)) : Prop :=
forall item, item ∈ queue ->
forall w, path_between edges fromId item.1 w -> length item.2 <= length w.

(** Queued paths come in order of length, and differ by at most one. *)
Definition level_rel (a b : string * list string) : Prop :=
length a.2 <= length b.2 /\ length b.2 <= length a.2 + 1.

Definition levelled (queue : list (string * list string)) : Prop :=
StronglySorted level_rel queue.

Lemma is_walk_app_l p q : is_walk edges (p ++ q) -> is_walk edges p.
Proof.
induction p as [|a p IH]; [done|].
destruct p as [|b p'].
- done.
- intros [Hs Hw]. split; [done|]. by apply IH.
Qed.

Lemma is_walk_last_step p c u :
is_walk edges (p ++ [u]) -> last p = Some c -> step_to edges c u.
Proof.
induction p as [|a p IH]; [done|].
destruct p as [|b p'].
- simpl. intros [Hs _] [= ->]. done.
- intros [_ Hw] Hl. apply IH; [done|]. by rewrite last_cons_cons in Hl.
Qed.

(** A walk of two or more ids is a walk to the last but one id, then an
    edge. *)
Lemma path_between_snoc_inv a u w x :
path_between edges a u (w ++ [x]) ->
x = u /\ ((w = [] /\ a = u) \/
          exists c, path_between edges a c w /\ step_to edges c u).
Proof.
intros (Hh & Hl & Hw). rewrite last_snoc in Hl. injection Hl as ->.
split; [done|]. destruct w as [|y w'] using rev_ind.
- left. split; [done|]. simpl in Hh. congruence.
- right. clear IHw'. exists y. split.
  + split_and!.
    * destruct w'; simpl in *; done.
    * apply last_snoc.
    * by apply is_walk_app_l in Hw.
  + eapply is_walk_last_step; [exact Hw|apply last_snoc].
Qed.

(** Any walk no longer than every queued path ends at a visited id. *)
Lemma short_walk_visited queue visited :
closed edges toId queue visited -> fromId ∈ visited ->
shortest_in_queue queue ->
forall w u,
  path_between edges fromId u w ->
  (forall item, item ∈ queue -> length w <= length item.2) ->
  u ∈ visited.
Proof.
intros Hcl Hfrom Hsh w. induction w as [|x w IH] using rev_ind; intros u Hp Hle.
- by destruct Hp as (Hh & _).
- apply path_between_snoc_inv in Hp as [-> [[-> <-]|(c & Hc & Hs)]]; [done|].
  assert (Hcv : c ∈ visited).
  { apply (IH c Hc). intros item Hitem. specialize (Hle item Hitem).
    rewrite length_app in Hle. simpl in Hle. lia. }
  destruct (Hcl c Hcv) as [Hin|[_ Hn]].
  + apply list_elem_of_fmap in Hin as (item & -> & Hitem).
    specialize (Hsh item Hitem w Hc). specialize (Hle item Hitem).
    rewrite length_app in Hle. simpl in Hle. lia.
  + apply Hn. by apply neighbors_of_spec.
Qed.

(** One round of the main loop keeps what the search relies on. *)
Lemma round_keeps c pc rest visited :
c <> toId ->
queue_ok edges fromId ((c, pc) :: rest) ->
closed edges toId ((c, pc) :: rest) visited ->
fromId ∈ visited ->
shortest_in_queue ((c, pc) :: rest) ->
levelled ((c, pc) :: rest) ->
let res := fold_left (visit_step pc) (neighbors_of edges c) (rest, visited) in
queue_ok edges fromId res.1
/\ closed edges toId res.1 res.2
/\ fromId ∈ res.2
/\ shortest_in_queue res.1
/\ levelled res.1.
Proof.
intros Hne Hq Hcl Hfrom Hsh Hlv. simpl.
pose proof (visit_fold_spec ∅ pc (neighbors_of edges c) rest visited)
  as (H1 & H2 & H3 & H4 & H5 & _).
destruct (visit_fold_app pc (neighbors_of edges c) rest visited)
  as (new & Hres & Hnew).
simpl in *. rewrite Forall_forall in Hnew.
apply StronglySorted_inv in Hlv as [Hlv_rest Hlv_head].
rewrite Forall_forall in Hlv_head.
split_and!.
- intros item Hitem. apply H5 in Hitem as [Hitem|[Hn Hp]].
  + apply Hq. by apply list_elem_of_further.
  + rewrite Hp. eapply path_between_snoc.
    * apply (Hq (c, pc)), list_elem_of_here.
    * by apply neighbors_of_spec.
- intros v Hv. apply H3 in Hv as [Hv|Hv]; [|by left].
  destruct (Hcl v Hv) as [Hin|[Hvne Hn]].
  + simpl in Hin. apply elem_of_cons in Hin as [->|Hin].
    * right. split; [done|]. exact H2.
    * left. apply list_elem_of_fmap in Hin as (item & -> & Hitem).
      apply list_elem_of_fmap. exists item. split; [done|]. by apply H4.
  + right. split; [done|]. intros n Hnn. apply H1. by apply Hn.
- by apply H1.
- intros item Hitem w Hw. rewrite Hres in Hitem.
  apply elem_of_app in Hitem as [Hitem|Hitem].
  + apply Hsh; [by apply list_elem_of_further|done].
  + destruct (Hnew item Hitem) as (_ & Hnv & ->).
    rewrite length_app. simpl.
    destruct (decide (length w <= length pc)) as [Hshort|]; [|lia].
    exfalso. apply Hnv.
    apply (short_walk_visited _ _ Hcl Hfrom Hsh w item.1 Hw).
    intros item' Hitem'. apply elem_of_cons in Hitem' as [->|Hitem']; [done|].
    destruct (Hlv_head item' Hitem') as [? _]. simpl in *. lia.
- unfold levelled. rewrite Hres. apply StronglySorted_app_2; [|done|].
  + intros a b Ha Hb. destruct (Hlv_head a Ha) as [? ?].
    destruct (Hnew b Hb) as (_ & _ & Hb2).
    unfold level_rel. rewrite Hb2, length_app. simpl in *. lia.
  + clear Hres. induction new as [|b new IHn]; [constructor|].
    constructor.
    * apply IHn. intros x Hx. apply Hnew. by apply list_elem_of_further.
    * apply Forall_forall. intros b' Hb'.
      destruct (Hnew b (list_elem_of_here _ _)) as (_ & _ & Hb2).
      destruct (Hnew b' (list_elem_of_further _ _ _ Hb')) as (_ & _ & Hb2').
      unfold level_rel. rewrite Hb2, Hb2', !length_app. simpl. lia.
Qed.

(** The path the loop returns is no longer than any walk from the start to
    the destination. *)
Lemma bfs_shortest fuel queue visited p :
queue_ok edges fromId queue ->
closed edges toId queue visited ->
fromId ∈ visited ->
shortest_in_queue queue ->
levelled queue ->
bfs fuel toId (build_adjacency edges) queue visited = Some (Some p) ->
forall w, path_between edges fromId toId w -> length p <= length w.
Proof.
revert queue visited. induction fuel as [|fuel IH];
  intros queue visited Hq Hcl Hfrom Hsh Hlv; simpl; [done|].
destruct queue as [|[c pc] rest]; [done|]. simpl.
destruct (String.eqb_spec c toId) as [->|Hne].
- intros [= <-] w Hw. apply (Hsh (toId, pc)); [apply list_elem_of_here|done].
- fold (neighbors_of edges c).
  pose proof (round_keeps c pc rest visited Hne Hq Hcl Hfrom Hsh Hlv) as Hkeep.
  destruct (fold_left (visit_step pc) (neighbors_of edges c) (rest, visited))
    as [queue' visited'] eqn:Hfold.
  simpl in Hkeep. destruct Hkeep as (K1 & K2 & K3 & K4 & K5).
  by apply IH.
Qed.

Lemma shortestPath_shortest p :
shortestPath fromId toId edges = Some p ->
forall w, path_between edges fromId toId w -> length p <= length w.
Proof.
unfold shortestPath.
destruct (bfs (length edges + 2) toId (build_adjacency edges)
              [(fromId, [fromId])] {[fromId]}) as [r|] eqn:Hr; [|done].
simpl. intros ->. eapply bfs_shortest; [| | | | |exact Hr].
- intros item Hitem. apply list_elem_of_singleton in Hitem as ->. by split_and!.
- intros v Hv. left. apply elem_of_singleton in Hv as ->.
  simpl. apply list_elem_of_here.
- by apply elem_of_singleton.
- intros item Hitem w Hw. apply list_elem_of_singleton in Hitem as ->. simpl.
  destruct Hw as (Hh & _). destruct w; [done|]. simpl. lia.
- repeat constructor.
Qed.

End ShortestPathMinimal.

Section ShortestPathClaim.
Import GraphIndexer.

Lemma shortestPath_self a edges : shortestPath a a edges = Some [a].
Proof.
unfold shortestPath. rewrite Nat.add_comm. simpl.
by rewrite String.eqb_refl.
Qed.

Lemma shortestPath_reachable edges a b :
reachable edges a b ->
exists p, shortestPath a b edges = Some p /\ path_between edges a b p.
Proof.
intros Hr. pose proof (shortestPath_spec edges a b) as Hs.
destruct (shortestPath a b edges) as [p|]; [eauto|done].
Qed.

Lemma shortestPath_unreachable edges a b :
~ reachable edges a b -> shortestPath a b edges = None.
Proof.
intros Hr. pose proof (shortestPath_spec edges a b) as Hs.
destruct (shortestPath a b edges) as [p|]; [|done].
by apply path_between_reachable in Hs.
Qed.

(** The only way from [a] to [c] along [a -> b -> c]. *)
Lemma chain_path a b c ty1 ty2 p :
a <> b -> a <> c -> b <> c ->
path_between [mkEdge a b ty1; mkEdge b c ty2] a c p -> p = [a; b; c].
Proof.
intros Hab Hac Hbc (Hh & Hl & Hw).
assert (Hstep : forall x y,
  step_to [mkEdge a b ty1; mkEdge b c ty2] x y ->
  (x = a /\ y = b) \/ (x = b /\ y = c)).
{ intros x y (e & He & Hf & Ht).
  apply elem_of_cons in He as [->|He]; [by left|].
  apply list_elem_of_singleton in He as ->. by right. }
destruct p as [|x [|y [|z [|w q]]]]; simpl in *.
- done.
- congruence.
- destruct Hw as [Hs _]. apply Hstep in Hs as [[-> ->]|[-> ->]]; congruence.
- destruct Hw as [Hs1 [Hs2 _]].
  apply Hstep in Hs1 as [[-> ->]|[-> ->]]; [|congruence].
  apply Hstep in Hs2 as [[? ?]|[_ ->]]; [congruence|done].
- destruct Hw as [Hs1 [Hs2 [Hs3 _]]].
  apply Hstep in Hs1 as [[-> ->]|[-> ->]]; [|congruence].
  apply Hstep in Hs2 as [[? ?]|[_ ->]]; [congruence|].
  apply Hstep in Hs3 as [[? ?]|[? ?]]; congruence.
Qed.

(** C8. [shortestPath] is a breadth-first search of the directed adjacency
    of the edges: from a node to itself it returns the node alone; when the
    destination can be reached it returns a sequence of ids that starts at
    [fromId], ends at [toId], follows an edge at each step and is no longer
    than any other such sequence; when the destination cannot be reached it
    returns nothing; and on the chain [fromId -> via -> toId] of three
    different nodes it returns the three ids in order. *)
Theorem shortestPath_bfs (fromId toId : string) (edges : list GraphEdge) :
shortestPath fromId fromId edges = Some [fromId]
/\ (reachable edges fromId toId ->
    exists p, shortestPath fromId toId edges = Some p
              /\ path_between edges fromId toId p
              /\ forall w, path_between edges fromId toId w ->
                           length p <= length w)
/\ (~ reachable edges fromId toId -> shortestPath fromId toId edges = None)
/\ (forall via ty1 ty2,
      fromId <> via -> fromId <> toId -> via <> toId ->
      shortestPath fromId toId [mkEdge fromId via ty1; mkEdge via toId ty2]
      = Some [fromId; via; toId]).
Proof.
split_and!.
- apply shortestPath_self.
- intros Hr. destruct (shortestPath_reachable edges fromId toId Hr)
    as (p & Hp & Hpath).
  exists p. split_and!; [done|done|]. by apply shortestPath_shortest.
- apply shortestPath_unreachable.
- intros via ty1 ty2 H1 H2 H3.
  destruct (shortestPath_reachable
              [mkEdge fromId via ty1; mkEdge via toId ty2] fromId toId)
    as (p & -> & Hp).
  + eapply rtc_l; [|eapply rtc_l; [|apply rtc_refl]].
    * eexists; split_and!; [apply list_elem_of_here|done|done].
    * eexists; split_and!; [apply list_elem_of_further, list_elem_of_here|done|done].
  + f_equal. by eapply chain_path.
Qed.

(** The examples of the specification: the chain A, B, C and a node D with
    no edge. *)
Example shortestPath_examples :
let chain := [mkEdge "A" "B" wikilink; mkEdge "B" "C" wikilink] in
shortestPath "A" "C" chain = Some ["A"; "B"; "C"]
/\ shortestPath "A" "A" chain = Some ["A"]
/\ shortestPath "A" "D" chain = None
/\ shortestPath "D" "A" chain = None
/\ shortestPath "C" "A" chain = None.
Proof. vm_compute. done. Qed.

End ShortestPathClaim.

(** ** Node classification *)
Section Classification.
Import GraphView.

(** [classify] by cases on the degree. *)
Lemma classify_cases (d : nat) :
classify (Some d)
= if 3 <=? d then main else if 1 <=? d then secondary else isolated.
Proof. reflexivity. Qed.

(** The classification agrees with the legend except at degree 2. *)
Lemma classify_legend (d : nat) : d <> 2 -> classify (Some d) = legend d.
Proof.
intros Hd. unfold classify, legend. simpl.
destruct d as [|[|[|d]]]; try done.
Qed.

(** C4. The thresholds of the code are 3 and 1: a node of degree 2 is
    classified [secondary], where the legend of the same view calls a note
    with two links a main note. *)
Theorem classify_degree_two :
classify (Some 2) = secondary /\ legend 2 = main
/\ List.map (fun n => type (nodeData_of n))
     (GraphIndexer.nodes
        (GraphIndexer.indexGraph [home; work; lonely] GraphIndexer.initial).1)
   = [secondary; secondary; isolated].
Proof. vm_compute. done. Qed.

End Classification.

(** ** The repulsion step of the worker *)
Section Repulsion.
Import GraphWorker.
Local Open Scope float_scope.

(** The distance with a floor at 1, as the specification words it. *)
Definition floored_distance (a b : SimNode) : float :=
if euclid a b <? 1 then 1 else euclid a b.

(** The body of the inner loop computes the distance and the force of
    [repulsion_distance] and [repulsion_force]. *)
Lemma pair_repulsion_force p a b :
pair_repulsion p a b
= (sub_velocity a
     ((x b - x a) / repulsion_distance a b * repulsion_force p a b / mass a)
     ((y b - y a) / repulsion_distance a b * repulsion_force p a b / mass a),
   add_velocity b
     ((x b - x a) / repulsion_distance a b * repulsion_force p a b / mass b)
     ((y b - y a) / repulsion_distance a b * repulsion_force p a b / mass b)).
Proof. reflexivity. Qed.

(** A positive number is truthy: neither zero nor NaN. *)
Lemma positive_truthy (d : float) : (0 <? d) = true -> falsy d = false.
Proof.
unfold falsy, is_nan.
rewrite FloatAxioms.ltb_spec, !FloatAxioms.eqb_spec. unfold SFltb, SFeqb.
replace (Prim2SF 0) with (S754_zero false) by reflexivity.
destruct (Prim2SF d) as [s|s| |s m e]; simpl; try discriminate.
- destruct s; [discriminate|]. reflexivity.
- destruct s; [discriminate|]. intros _.
  rewrite Z.compare_refl, Pos.compare_cont_refl. reflexivity.
Qed.

Lemma below_one_not_one (d : float) : (d <? 1) = true -> d <> 1.
Proof. intros H ->. vm_compute in H. discriminate. Qed.

(** Two nodes of mass 1 at rest, half a unit apart. *)
Definition at_origin : SimNode := mkSim "a" 0 0 0 0 1 None.
Definition half_away : SimNode := mkSim "b" 0.5 0 0 0 1 None.

(** C5, as stated, fails at distance 0.5: the distance used is 0.5, not 1,
    and the force is 300 / 0.25 = 1200, not 300. *)
Lemma repulsion_below_one_not_floored :
euclid at_origin half_away = 0.5
/\ repulsion_distance at_origin half_away = 0.5
/\ floored_distance at_origin half_away = 1
/\ repulsion_force default_params at_origin half_away = 1200
/\ List.map vx (applyRepulsion default_params [at_origin; half_away])
   = [-1200; 1200]
/\ repulsion_distance at_origin half_away
   <> floored_distance at_origin half_away.
Proof. vm_compute. split_and!; try reflexivity. discriminate. Qed.

(** Coincident nodes: the distance 0 is replaced by 1. *)
Example repulsion_coincident :
repulsion_distance at_origin at_origin = 1
/\ repulsion_force default_params at_origin at_origin = 300.
Proof. vm_compute. done. Qed.

End Repulsion.

Section RepulsionStatic.
Import GraphWorker.

(** What the repulsion step never writes: the id, the position, the mass
    and the type of a node. *)
Definition static (n : SimNode) : string * float * float * float * option string :=
(id n, x n, y n, mass n, type n).

Lemma insert_static (arr : list SimNode) i n' :
(forall n, arr !! i = Some n -> static n' = static n) ->
List.map static (<[i := n']> arr) = List.map static arr.
Proof.
intros Hs. destruct (arr !! i) as [n|] eqn:Hi.
- change (List.map static (<[i:=n']> arr)) with (static <$> <[i:=n']> arr).
  rewrite list_fmap_insert, (Hs n eq_refl). apply list_insert_id.
  by rewrite list_lookup_fmap, Hi.
- apply lookup_ge_None in Hi. by rewrite list_insert_ge.
Qed.

Lemma repulsion_inner_static p i arr j :
List.map static (repulsion_inner p i arr j) = List.map static arr.
Proof.
unfold repulsion_inner.
destruct (arr !! i) as [a|] eqn:Ha; [|done].
destruct (arr !! j) as [b|] eqn:Hb; [|done].
simpl. etrans; [apply insert_static|apply insert_static].
- intros n Hn. destruct (decide (i = j)) as [->|Hne].
  + rewrite list_lookup_insert_eq in Hn by (by eapply lookup_lt_Some).
    injection Hn as <-. assert (a = b) as -> by congruence. done.
  + rewrite list_lookup_insert_ne in Hn by done.
    assert (n = b) as -> by congruence. done.
- intros n Hn. assert (n = a) as -> by congruence. done.
Qed.

(** Every pair is therefore measured on the positions the step started
    from: [applyRepulsion] changes velocities only. *)
Lemma applyRepulsion_static p nodes :
List.map static (applyRepulsion p nodes) = List.map static nodes.
Proof.
unfold applyRepulsion. generalize (length nodes) at 1 2. intros n.
generalize (seq 0 n). intros rows. revert nodes.
induction rows as [|i rows IH]; intros nodes; [done|]. simpl.
rewrite IH. generalize (seq (i + 1) (n - (i + 1))). intros js. revert nodes.
induction js as [|j js IHj]; intros nodes; [done|]. simpl.
rewrite IHj. apply repulsion_inner_static.
Qed.

End RepulsionStatic.

(** ** Every pair, once *)
Section RepulsionEveryPair.
Import GraphWorker.

(** The distance used for two nodes: their Euclidean distance, or 1 when
    that is 0 or not a number. *)
Definition used_distance (a b : SimNode) : float :=
let d := euclid a b in
if ((d =? 0) || is_nan d)%float then 1%float else d.

(** The force that [nodeA] and [nodeB] exert on each other, along the
    vector from [nodeA] to [nodeB]. *)
Definition pair_force (p : Params) (nodeA nodeB : SimNode) : float * float :=
let used := used_distance nodeA nodeB in
let force := (repulsion p / (used * used))%float in
(((x nodeB - x nodeA) / used * force)%float,
 ((y nodeB - y nodeA) / used * force)%float).

(** What the node of index [k] receives from the node of index [j], the
    positions being those of [nodes]: pushed away from an earlier node
    (it is then [nodeB]) and from a later one (it is then [nodeA]). *)
Definition kick (p : Params) (nodes : list SimNode) (k : nat)
  (n : SimNode) (j : nat) : SimNode :=
match nodes !! k, nodes !! j with
| Some me, Some other =>
    if j <? k then
      let '(fx, fy) := pair_force p other me in
      add_velocity n (fx / mass n)%float (fy / mass n)%float
    else if k <? j then
      let '(fx, fy) := pair_force p me other in
      sub_velocity n (fx / mass n)%float (fy / mass n)%float
    else n
| _, _ => n
end.

Lemma pair_repulsion_kicks p a b a0 b0 :
static a = static a0 -> static b = static b0 ->
pair_repulsion p a b
= (let '(fx, fy) := pair_force p a0 b0 in
   sub_velocity a (fx / mass a)%float (fy / mass a)%float,
   let '(fx, fy) := pair_force p a0 b0 in
   add_velocity b (fx / mass b)%float (fy / mass b)%float).
Proof.
unfold static. intros [= Hai Hax Hay Ham Hat] [= Hbi Hbx Hby Hbm Hbt].
unfold pair_repulsion, pair_force, used_distance, euclid, js_or, falsy.
by rewrite Hax, Hay, Hbx, Hby.
Qed.

Lemma kick_static p nodes k n j : static (kick p nodes k n j) = static n.
Proof.
unfold kick. destruct (nodes !! k); [|done]. destruct (nodes !! j); [|done].
destruct (j <? k); [by destruct (pair_force _ _ _)|].
destruct (k <? j); [by destruct (pair_force _ _ _)|done].
Qed.

Lemma fold_kick_static p nodes k js n :
static (fold_left (kick p nodes k) js n) = static n.
Proof.
revert n. induction js as [|j js IH]; intros n; simpl; [done|].
by rewrite IH, kick_static.
Qed.

Lemma kick_self p nodes k n : kick p nodes k n k = n.
Proof.
unfold kick. destruct (nodes !! k); [|done].
by rewrite Nat.ltb_irrefl.
Qed.

Lemma fold_kick_snoc p nodes k m n :
fold_left (kick p nodes k) (seq 0 (S m)) n
= kick p nodes k (fold_left (kick p nodes k) (seq 0 m) n) m.
Proof. by rewrite seq_S, fold_left_app. Qed.

Section Rows.
Variable p : Params.
Variable nodes : list SimNode.

(** How many of the nodes have already acted on node [k] when row [i] has
    reached column [m]. *)
Definition acted (i m k : nat) : nat :=
if k <? i then length nodes
else if k =? i then m
else if k <? m then S i else i.

(** The array while row [i] is at column [m]. *)
Definition row_state (i m : nat) (arr : list SimNode) : Prop :=
forall k, arr !! k
          = (fun n => fold_left (kick p nodes k) (seq 0 (acted i m k)) n)
              <$> nodes !! k.

Lemma repulsion_inner_row i m arr :
i < m -> m < length nodes ->
row_state i m arr -> row_state i (S m) (repulsion_inner p i arr m).
Proof.
intros Him Hm Hrow.
destruct (lookup_lt_is_Some_2 nodes i) as [a0 Ha0]; [lia|].
destruct (lookup_lt_is_Some_2 nodes m) as [b0 Hb0]; [done|].
pose proof (Hrow i) as Hi. pose proof (Hrow m) as Hmm.
rewrite Ha0 in Hi. rewrite Hb0 in Hmm. simpl in Hi, Hmm.
unfold acted in Hi, Hmm.
assert (Hii : (i <? i) = false) by (apply Nat.ltb_ge; lia).
assert (Hmi : (m <? i) = false) by (apply Nat.ltb_ge; lia).
assert (Hmi' : (m =? i) = false) by (apply Nat.eqb_neq; lia).
assert (Hmm' : (m <? m) = false) by (apply Nat.ltb_ge; lia).
rewrite Hii, Nat.eqb_refl in Hi. rewrite Hmi, Hmi', Hmm' in Hmm.
unfold repulsion_inner. rewrite Hi, Hmm.
rewrite (pair_repulsion_kicks p _ _ a0 b0)
  by apply fold_kick_static.
set (a := fold_left (kick p nodes i) (seq 0 m) a0) in *.
set (b := fold_left (kick p nodes m) (seq 0 i) b0) in *.
assert (Hlen : length arr = length nodes).
{ apply Nat.le_antisymm.
  - apply Nat.nlt_ge. intros Hlt.
    pose proof (Hrow (length nodes)) as Hk.
    rewrite (lookup_ge_None_2 nodes) in Hk by lia. simpl in Hk.
    apply lookup_ge_None in Hk. lia.
  - apply Nat.nlt_ge. intros Hlt.
    pose proof (Hrow (length arr)) as Hk.
    rewrite (lookup_ge_None_2 arr) in Hk by lia.
    destruct (lookup_lt_is_Some_2 nodes (length arr)) as [z Hz]; [lia|].
    by rewrite Hz in Hk. }
intros k. destruct (decide (k = m)) as [->|Hkm].
- rewrite list_lookup_insert_eq by (rewrite length_insert; lia).
  rewrite Hb0. simpl. unfold acted. rewrite Hmi, Hmi'.
  assert (Hlt : (m <? S m) = true) by (apply Nat.ltb_lt; lia).
  rewrite Hlt, fold_kick_snoc. fold b. unfold kick at 1. rewrite Hb0, Ha0.
  assert (Him' : (i <? m) = true) by (by apply Nat.ltb_lt).
  by rewrite Him'.
- rewrite list_lookup_insert_ne by done.
  destruct (decide (k = i)) as [->|Hki].
  + rewrite list_lookup_insert_eq by lia.
    rewrite Ha0. simpl. unfold acted. rewrite Hii, Nat.eqb_refl.
    rewrite fold_kick_snoc. fold a. unfold kick at 1. rewrite Ha0, Hb0.
    assert (Him' : (i <? m) = true) by (by apply Nat.ltb_lt).
    by rewrite Hmi, Him'.
  + rewrite list_lookup_insert_ne by done. rewrite (Hrow k).
    unfold acted. destruct (k <? i) eqn:E1; [done|].
    assert ((k =? i) = false) as -> by (by apply Nat.eqb_neq).
    destruct (Nat.ltb_spec k m) as [H1|H1].
    * assert ((k <? S m) = true) as -> by (apply Nat.ltb_lt; lia). done.
    * assert ((k <? S m) = false) as -> by (apply Nat.ltb_ge; lia). done.
Qed.

Lemma inner_loop_row i len m arr :
i < m -> m + len = length nodes ->
row_state i m arr ->
row_state i (length nodes) (fold_left (repulsion_inner p i) (seq m len) arr).
Proof.
revert m arr. induction len as [|len IH]; intros m arr Him Hlen Hrow; simpl.
- by replace (length nodes) with m by lia.
- apply IH; [lia|lia|]. apply repulsion_inner_row; [done|lia|done].
Qed.

Lemma row_state_next i arr :
i < length nodes ->
row_state i (length nodes) arr -> row_state (S i) (S (S i)) arr.
Proof.
intros Hi Hrow k. rewrite (Hrow k).
destruct (nodes !! k) as [n|] eqn:Hk; [|done]. simpl. f_equal.
apply lookup_lt_Some in Hk. unfold acted.
destruct (Nat.ltb_spec k i) as [H1|H1].
- assert ((k <? S i) = true) as -> by (apply Nat.ltb_lt; lia). done.
- destruct (Nat.eqb_spec k i) as [->|H2].
  + assert ((i <? S i) = true) as -> by (apply Nat.ltb_lt; lia). done.
  + assert ((k <? length nodes) = true) as -> by (by apply Nat.ltb_lt).
    assert ((k <? S i) = false) as -> by (apply Nat.ltb_ge; lia).
    destruct (Nat.eqb_spec k (S i)) as [->|H3].
    * by rewrite (fold_kick_snoc _ _ _ (S i)), kick_self.
    * assert ((k <? S (S i)) = false) as -> by (apply Nat.ltb_ge; lia). done.
Qed.

Lemma outer_loop_row len i arr :
i + len = length nodes ->
row_state i (S i) arr ->
row_state (length nodes) (S (length nodes))
  (fold_left (fun arr i =>
                fold_left (repulsion_inner p i)
                          (seq (i + 1) (length nodes - (i + 1))) arr)
             (seq i len) arr).
Proof.
revert i arr. induction len as [|len IH]; intros i arr Hlen Hrow; simpl.
- by replace (length nodes) with i by lia.
- apply IH; [lia|]. apply row_state_next; [lia|].
  apply inner_loop_row; [lia|lia|]. by replace (i + 1) with (S i) by lia.
Qed.

Lemma row_state_start : row_state 0 1 nodes.
Proof.
intros k. destruct (nodes !! k) as [n|] eqn:Hk; [|done]. simpl. f_equal.
unfold acted. simpl. destruct k as [|k]; simpl.
- by rewrite kick_self.
- done.
Qed.

(** After the step every node has received, in the order of the array,
    the force of every other node, once. *)
Lemma applyRepulsion_every_pair k :
applyRepulsion p nodes !! k
= (fun n => fold_left (kick p nodes k) (seq 0 (length nodes)) n)
    <$> nodes !! k.
Proof.
unfold applyRepulsion.
pose proof (outer_loop_row (length nodes) 0 nodes eq_refl row_state_start k)
  as Hk.
rewrite Hk. destruct (nodes !! k) as [n|] eqn:Hn; [|done]. simpl. f_equal.
apply lookup_lt_Some in Hn. unfold acted.
by assert ((k <? length nodes) = true) as -> by (by apply Nat.ltb_lt).
Qed.

End Rows.

(** The force of [pair_force] is that of [repulsion_force], along the
    vector between the two nodes divided by the distance used. *)
Lemma pair_force_spec p a b :
pair_force p a b
= (((x b - x a) / repulsion_distance a b * repulsion_force p a b)%float,
   ((y b - y a) / repulsion_distance a b * repulsion_force p a b)%float).
Proof. reflexivity. Qed.

Local Open Scope float_scope.

(** C5, as amended. For every pair of nodes the force is
    [repulsion / distance²], where the distance is the Euclidean distance
    unless that is 0 (or not a number), in which case it is 1; a positive
    distance, below 1 or not, is used as it is.  On any array of nodes
    [applyRepulsion] applies exactly this force for every unordered pair,
    once, divided by each mass: the node of index [k] ends with the
    velocity it had, pushed in turn by each other node of the array, the
    distances being those of the positions the step started from; no node
    is added or removed.  On an array of two nodes this is the one force
    between them. *)
Theorem repulsion_distance_zero_only (p : Params) (a b : SimNode)
  (nodes : list SimNode) (k : nat) :
let d := euclid a b in
let used := if (d =? 0) || is_nan d then 1 else d in
repulsion_distance a b = used
/\ ((d =? 0) = true -> repulsion_distance a b = 1)
/\ ((0 <? d) = true -> repulsion_distance a b = d)
/\ ((0 <? d) = true -> (d <? 1) = true -> repulsion_distance a b <> 1)
/\ repulsion_force p a b = repulsion p / (used * used)
/\ pair_force p a b = ((x b - x a) / used * (repulsion p / (used * used)),
                       (y b - y a) / used * (repulsion p / (used * used)))
/\ applyRepulsion p nodes !! k
   = (fun n => fold_left (kick p nodes k) (seq 0 (length nodes)) n)
       <$> nodes !! k
/\ length (applyRepulsion p nodes) = length nodes
/\ applyRepulsion p [a; b]
   = [sub_velocity a ((x b - x a) / used * (repulsion p / (used * used)) / mass a)
                     ((y b - y a) / used * (repulsion p / (used * used)) / mass a);
      add_velocity b ((x b - x a) / used * (repulsion p / (used * used)) / mass b)
                     ((y b - y a) / used * (repulsion p / (used * used)) / mass b)].
Proof.
simpl. split_and!; try reflexivity.
- intros H0. unfold repulsion_distance, js_or, falsy. by rewrite H0.
- intros Hpos. unfold repulsion_distance, js_or.
  by rewrite (positive_truthy _ Hpos).
- intros Hpos Hlt. unfold repulsion_distance, js_or.
  rewrite (positive_truthy _ Hpos). by apply below_one_not_one.
- apply applyRepulsion_every_pair.
- rewrite <- (length_map static (applyRepulsion p nodes)).
  by rewrite applyRepulsion_static, length_map.
Qed.

(** Three nodes of mass 1 in a row, one unit apart: each receives the force
    of both others (300 from a neighbour, 75 from the far end). *)
Example repulsion_three_nodes :
List.map vx (applyRepulsion default_params
               [mkSim "a" 0 0 0 0 1 None; mkSim "b" 1 0 0 0 1 None;
                mkSim "c" 2 0 0 0 1 None])
= [-375; 0; 375].
Proof. vm_compute. reflexivity. Qed.

End RepulsionEveryPair.

(** ** The worker on a malformed [init] *)
Section MalformedInit.
Import GraphWorker.

Variable Math_random : nat -> float.
Variable Math_cos Math_sin : float -> float.

Abbreviation onmessage := (GraphWorker.onmessage Math_random Math_cos Math_sin).
Abbreviation seed_node := (GraphWorker.seed_node Math_random Math_cos Math_sin).

(** The parameters after [init]. *)
Definition init_params (data : InitData) (st : wstate) : Params :=
match data_params data with
| Some d => merge_params (params st) d
| None => params st
end.

(** C6, as amended. An [init] whose payload has no [nodes] empties the node
    map, stores the payload's edges and parameters, and ends in a
    [TypeError] that leaves the handler before the simulation is started:
    the running flag, the posted messages and the timers are as before.  An
    [init] with nodes but no [edges] seeds the nodes; if the loop was not
    running it is started and its first step throws in [applyAttraction],
    after the repulsion step, with the loop marked running, nothing posted
    and no timer set; if the loop was running the handler returns and the
    next timer tick throws. *)
Theorem init_missing_field (data : InitData) (st : wstate) :
let res := onmessage (Init data) st in
(data_nodes data = None ->
   res = (mkW [] (data_edges data) (init_params data st) (isRunning st)
              (posted st) (timers st) (draws st), TypeError))
/\ (forall nds,
      data_nodes data = Some nds -> data_edges data = None ->
      let seeded := fold_left seed_node nds ([], draws st) in
      if isRunning st
      then res = (mkW seeded.1 None (init_params data st) true
                      (posted st) (timers st) seeded.2, Completed)
           /\ (timer_fires res.1).2 = TypeError
      else res = (mkW (applyRepulsion (init_params data st) seeded.1) None
                      (init_params data st) true
                      (posted st) (timers st) seeded.2, TypeError)).
Proof.
simpl. split.
- intros Hn. unfold GraphWorker.onmessage, initGraph. by rewrite Hn.
- intros nds Hn He. unfold GraphWorker.onmessage, initGraph.
  rewrite Hn, He. fold (init_params data st).
  destruct (fold_left seed_node nds ([], draws st)) as [ns k] eqn:Hseed.
  simpl. unfold startSimulation. simpl.
  destruct (isRunning st) eqn:Hrun; simpl; rewrite ?Hseed; simpl.
  + split; [done|]. unfold timer_fires, loop, simulationStep. simpl. done.
  + unfold loop, simulationStep. simpl. done.
Qed.

End MalformedInit.

Section MalformedInitExamples.
Import GraphWorker.
Local Open Scope float_scope.

(** What C6 asks of a malformed [init]: no exception, an empty node map, an
    idle simulation. *)
Definition init_is_noop (res : wstate * outcome) : Prop :=
res.2 = Completed /\ nodes res.1 = [] /\ isRunning res.1 = false.

(** A host for the examples: the random source always answers 0; the
    trigonometric functions are not asked for exact values. *)
Definition zero_random (k : nat) : float := 0.
Definition flat_cos (a : float) : float := 1.
Definition flat_sin (a : float) : float := 0.

(** C6, as stated, fails: without [nodes] a [TypeError] leaves the handler;
    without [edges] the nodes are seeded, the loop is marked running and the
    first step throws. *)
Lemma init_missing_field_throws :
(onmessage zero_random flat_cos flat_sin
   (Init (mkInit None (Some []) None)) initial).2 = TypeError
/\ ~ init_is_noop (onmessage zero_random flat_cos flat_sin
                     (Init (mkInit None (Some []) None)) initial)
/\ ~ init_is_noop (onmessage zero_random flat_cos flat_sin
                     (Init (mkInit (Some [mkNodeData "a" None]) None None))
                     initial)
/\ (let res := onmessage zero_random flat_cos flat_sin
                 (Init (mkInit (Some [mkNodeData "a" None]) None None)) initial in
    res.2 = TypeError /\ isRunning res.1 = true /\ length (nodes res.1) = 1%nat).
Proof.
split_and!.
- reflexivity.
- intros (H & _). vm_compute in H. discriminate.
- intros (H & _). vm_compute in H. discriminate.
- vm_compute. done.
Qed.

(** A well-formed [init] on a fresh worker seeds the nodes, runs one step,
    posts the positions and sets the timer for the next step. *)
Example init_well_formed :
let res := onmessage zero_random flat_cos flat_sin
             (Init (mkInit (Some [mkNodeData "a" (Some "main")]) (Some []) None))
             initial in
res.2 = Completed /\ isRunning res.1 = true /\ timers res.1 = 1%nat
/\ length (posted res.1) = 1%nat /\ List.map mass (nodes res.1) = [2].
Proof. vm_compute. done. Qed.

End MalformedInitExamples.

(** * Further properties of the indexer *)

(** ** The graph is well formed *)
Section GraphShape.
Import GraphIndexer.

Lemma fold_node_step_ids nd notes acc :
List.map node_id (fold_left (node_step nd) notes acc).1
= List.map node_id acc.1 ++ List.map id notes
/\ List.map node_title (fold_left (node_step nd) notes acc).1
   = List.map node_title acc.1 ++ List.map title notes
/\ List.map degree (fold_left (node_step nd) notes acc).1
   = List.map degree acc.1 ++ List.map (fun n => get_degree nd (id n)) notes.
Proof.
revert acc. induction notes as [|n notes IH]; intros acc; simpl.
- by rewrite !app_nil_r.
- destruct (IH (node_step nd acc n)) as (-> & -> & ->).
  unfold node_step. destruct (extractTags (content n) acc.2) as [tags st].
  simpl. rewrite !map_app. simpl. by rewrite <- !app_assoc.
Qed.

(** The ids of the notes, as a set. *)
Definition note_ids (notes : list Note) : gset string :=
list_to_set (List.map id notes).

(** Every raw edge joins the ids of two notes. *)
Definition joins_notes (notes : list Note) (es : list GraphEdge) : Prop :=
Forall (fun e => from e ∈ List.map id notes /\ to e ∈ List.map id notes) es.

Lemma link_step_joins notes note acc link :
note ∈ notes -> joins_notes notes acc.1 ->
joins_notes notes
  (link_step (build_titleMap notes) (build_noteMap notes) note acc link).1.
Proof.
intros Hn Hacc. unfold link_step.
destruct (resolveLink link _ _) as [t|] eqn:Hres; [|done].
destruct (JS.truthy t && negb (String.eqb t (id note))); [|done].
apply resolveLink_in_ids in Hres.
assert (Hid : id note ∈ List.map id notes) by (apply list_elem_of_fmap; eauto).
simpl. unfold joins_notes. rewrite !Forall_app. split_and!; [done| |].
- by repeat constructor.
- by repeat constructor.
Qed.

Lemma fold_link_step_joins notes note links acc :
note ∈ notes -> joins_notes notes acc.1 ->
joins_notes notes
  (fold_left (link_step (build_titleMap notes) (build_noteMap notes) note)
             links acc).1.
Proof.
intros Hn. revert acc. induction links as [|l links IH]; intros acc Hacc; [done|].
simpl. apply IH. by apply link_step_joins.
Qed.

Lemma note_step_joins notes note acc :
note ∈ notes -> joins_notes notes acc.1.1 ->
joins_notes notes
  (note_step (build_titleMap notes) (build_noteMap notes) acc note).1.1.
Proof.
intros Hn Hacc. unfold note_step.
destruct (extractLinks (content note) acc.2) as [links st]. simpl.
by apply fold_link_step_joins.
Qed.

Lemma collect_joins notes st : joins_notes notes (collect notes st).1.1.
Proof.
unfold collect.
assert (Hgen : forall ns acc,
  (forall n, n ∈ ns -> n ∈ notes) -> joins_notes notes acc.1.1 ->
  joins_notes notes
    (fold_left (note_step (build_titleMap notes) (build_noteMap notes)) ns acc).1.1).
{ induction ns as [|n ns IH]; intros acc Hsub Hacc; [done|]. simpl.
  apply IH.
  - intros m Hm. apply Hsub. by apply list_elem_of_further.
  - apply note_step_joins; [|done]. apply Hsub, list_elem_of_here. }
apply Hgen; [done|]. constructor.
Qed.

Lemma indexGraph_node_ids notes st :
List.map node_id (nodes (indexGraph notes st).1) = List.map id notes.
Proof.
unfold indexGraph. destruct (collect notes st) as [[es nd] st1].
pose proof (fold_node_step_ids nd notes ([], st1)) as (H1 & _ & _).
destruct (fold_left (node_step nd) notes ([], st1)) as [ns st2]. by simpl in *.
Qed.

Lemma indexGraph_node_titles notes st :
List.map node_title (nodes (indexGraph notes st).1) = List.map title notes.
Proof.
unfold indexGraph. destruct (collect notes st) as [[es nd] st1].
pose proof (fold_node_step_ids nd notes ([], st1)) as (_ & H2 & _).
destruct (fold_left (node_step nd) notes ([], st1)) as [ns st2]. by simpl in *.
Qed.

Lemma indexGraph_edge_ends notes st e :
e ∈ edges (indexGraph notes st).1 ->
from e ∈ List.map id notes /\ to e ∈ List.map id notes.
Proof.
intros He. rewrite indexGraph_edges in He.
apply deduplicateEdges_subset in He.
pose proof (collect_joins notes st) as Hj. unfold joins_notes in Hj.
rewrite Forall_forall in Hj. by apply Hj.
Qed.

(** X1. The nodes are the notes, in their order, and every edge joins the ids
    of two of them: nothing dangles, whatever the state of the indexer. *)
Theorem indexGraph_well_formed (notes : list Note) (st : istate) :
let g := (indexGraph notes st).1 in
List.map node_id (nodes g) = List.map id notes
/\ List.map node_title (nodes g) = List.map title notes
/\ (forall e, e ∈ edges g ->
      from e ∈ List.map node_id (nodes g) /\ to e ∈ List.map node_id (nodes g)).
Proof.
simpl. split_and!.
- apply indexGraph_node_ids.
- apply indexGraph_node_titles.
- intros e He. rewrite indexGraph_node_ids. by apply indexGraph_edge_ends in He.
Qed.

End GraphShape.

(** ** Raw edges and degrees, link by link *)
Section LinkByLink.
Import GraphIndexer.

(** The edges one link contributes. *)
Definition link_edges (tm : gmap string string) (nm : gmap string Note)
  (note : Note) (link : Link) : list GraphEdge :=
match resolveLink link tm nm with
| Some targetId =>
    if JS.truthy targetId && negb (String.eqb targetId (id note))
    then [mkEdge (id note) targetId (edge_type_of (ltype link));
          mkEdge targetId (id note) backlink]
    else []
| None => []
end.

Lemma link_step_edges tm nm note acc link :
(link_step tm nm note acc link).1 = acc.1 ++ link_edges tm nm note link.
Proof.
unfold link_step, link_edges.
destruct (resolveLink link tm nm) as [t|]; [|by rewrite app_nil_r].
destruct (JS.truthy t && negb (String.eqb t (id note)));
  [|by rewrite app_nil_r].
simpl. by rewrite <- app_assoc.
Qed.

Lemma fold_link_step_edges tm nm note links acc :
(fold_left (link_step tm nm note) links acc).1
= acc.1 ++ List.flat_map (link_edges tm nm note) links.
Proof.
revert acc. induction links as [|l links IH]; intros acc; simpl.
- by rewrite app_nil_r.
- by rewrite IH, link_step_edges, <- app_assoc.
Qed.

Lemma fold_links_step_edges tm nm ns acc :
(fold_left (links_step tm nm) ns acc).1
= acc.1 ++ List.flat_map
             (fun note => List.flat_map (link_edges tm nm note) (links_of note)) ns.
Proof.
revert acc. induction ns as [|n ns IH]; intros acc; simpl.
- by rewrite app_nil_r.
- rewrite IH. unfold links_step.
  by rewrite fold_link_step_edges, <- app_assoc.
Qed.

(** The raw edge array of a fresh indexer. *)
Lemma raw_edges notes :
(raw notes).1
= List.flat_map
    (fun note => List.flat_map
       (link_edges (build_titleMap notes) (build_noteMap notes) note)
       (links_of note)) notes.
Proof. unfold raw. by rewrite fold_links_step_edges. Qed.

(** What one link adds to the degree recorded for [k]. *)
Definition link_weight (tm : gmap string string) (nm : gmap string Note)
  (k : string) (note : Note) (link : Link) : nat :=
match resolveLink link tm nm with
| Some targetId =>
    if JS.truthy targetId && negb (String.eqb targetId (id note))
    then (if String.eqb (id note) k then 1 else 0)
         + (if String.eqb targetId k then 1 else 0)
    else 0
| None => 0
end.

Lemma link_step_weight tm nm k note acc link :
get_degree (link_step tm nm note acc link).2 k
= get_degree acc.2 k + link_weight tm nm k note link.
Proof.
unfold link_step, link_weight.
destruct (resolveLink link tm nm) as [t|]; [|simpl; lia].
destruct (JS.truthy t && negb (String.eqb t (id note))) eqn:Hg; [|simpl; lia].
apply andb_true_iff in Hg as [_ Hne]. apply negb_true_iff in Hne.
apply String.eqb_neq in Hne. simpl.
destruct (String.eqb_spec t k) as [->|Htk].
- rewrite get_degree_insert_eq, get_degree_insert_ne by congruence.
  destruct (String.eqb_spec (id note) k); [congruence|lia].
- rewrite get_degree_insert_ne by done.
  destruct (String.eqb_spec (id note) k) as [->|Hnk].
  + rewrite get_degree_insert_eq. lia.
  + rewrite get_degree_insert_ne by done. lia.
Qed.

Lemma fold_link_step_weight tm nm k note links acc :
get_degree (fold_left (link_step tm nm note) links acc).2 k
= get_degree acc.2 k + sum_list (List.map (link_weight tm nm k note) links).
Proof.
revert acc. induction links as [|l links IH]; intros acc; simpl; [lia|].
rewrite IH, link_step_weight. lia.
Qed.

(** The links that touch [k]: one unit for each accepted link that leaves a
    note with id [k], one for each accepted link that resolves to [k]. *)
Definition links_touching (notes : list Note) (k : string) : nat :=
sum_list (List.map (fun note =>
  sum_list (List.map
    (link_weight (build_titleMap notes) (build_noteMap notes) k note)
    (links_of note))) notes).

Lemma fold_links_step_weight tm nm k ns acc :
get_degree (fold_left (links_step tm nm) ns acc).2 k
= get_degree acc.2 k
  + sum_list (List.map (fun note =>
      sum_list (List.map (link_weight tm nm k note) (links_of note))) ns).
Proof.
revert acc. induction ns as [|n ns IH]; intros acc; simpl; [lia|].
rewrite IH. unfold links_step. rewrite fold_link_step_weight. lia.
Qed.

(** X2. The degree of every returned node is the number of accepted link
    occurrences that touch its id, a link being accepted when it resolves
    to a non-empty id other than the id of the note it is written in: the
    accepted links written in a note with that id, plus the accepted links
    that resolve to it.  No condition on the ids: notes that share an id
    share the count. *)
Theorem node_degree_counts_links (notes : list Note) (node : GraphNode) :
node ∈ nodes (indexGraph notes initial).1 ->
degree node = links_touching notes (node_id node).
Proof.
rewrite indexGraph_initial. simpl. intros Hn.
apply list_elem_of_fmap in Hn as (note & -> & Hnote). simpl.
unfold raw. rewrite fold_links_step_weight. simpl.
by rewrite init_degree_zero.
Qed.

Lemma node_degree_counts_links_witness :
degree (mkNode "1" "Home" [] 2 "#A8AEFF")
= links_touching [home; work; lonely] "1".
Proof.
apply (node_degree_counts_links [home; work; lonely]
         (mkNode "1" "Home" [] 2 "#A8AEFF")).
vm_compute. apply list_elem_of_here.
Defined.

End LinkByLink.

(** ** What deduplication keeps *)
Section DedupKeeps.
Import GraphIndexer.

(** [seen] holds exactly the keys of the kept edges. *)
Definition seen_exact (acc : gset string * list GraphEdge) : Prop :=
forall k, k ∈ acc.1 <-> k ∈ List.map edge_key acc.2.

Lemma dedup_step_seen_exact acc e :
seen_exact acc -> seen_exact (dedup_step acc e).
Proof.
intros Hacc k. unfold dedup_step.
destruct (decide (edge_key e ∈ acc.1)); [apply Hacc|]. simpl.
rewrite elem_of_union, elem_of_singleton, map_app, elem_of_app, (Hacc k).
simpl. rewrite list_elem_of_singleton. tauto.
Qed.

Lemma fold_dedup_seen_exact es acc :
seen_exact acc -> seen_exact (fold_left dedup_step es acc).
Proof.
revert acc. induction es as [|e es IH]; intros acc Hacc; [done|].
simpl. apply IH. by apply dedup_step_seen_exact.
Qed.

Lemma fold_dedup_seen_grows es acc k :
k ∈ acc.1 -> k ∈ (fold_left dedup_step es acc).1.
Proof.
revert acc. induction es as [|e es IH]; intros acc Hk; [done|].
simpl. apply IH. unfold dedup_step. destruct (decide _); [done|].
simpl. by apply elem_of_union_r.
Qed.

(** Every edge given leaves an edge with its key among the kept ones. *)
Lemma fold_dedup_covers es acc e :
e ∈ es -> edge_key e ∈ (fold_left dedup_step es acc).1.
Proof.
revert acc. induction es as [|e' es IH]; intros acc He.
- by apply elem_of_nil in He.
- simpl. apply elem_of_cons in He as [->|He]; [|by apply IH].
  apply fold_dedup_seen_grows, dedup_step_seen.
Qed.

Lemma deduplicateEdges_covers es e :
e ∈ es -> exists e', e' ∈ deduplicateEdges es /\ edge_key e' = edge_key e.
Proof.
intros He. unfold deduplicateEdges.
pose proof (fold_dedup_seen_exact es (∅, [])) as Hex.
assert (H0 : seen_exact (∅, [])).
{ intros k. simpl. split; intros H; [set_solver|by apply elem_of_nil in H]. }
specialize (Hex H0 (edge_key e)).
pose proof (fold_dedup_covers es (∅, []) e He) as Hk.
apply Hex in Hk.
apply list_elem_of_fmap in Hk as (e' & Hkey & He'). eauto.
Qed.

(** Edges whose keys are new and pairwise different are all kept, in
    order. *)
Lemma fold_dedup_fresh es acc :
NoDup (List.map edge_key es) ->
(forall e, e ∈ es -> edge_key e ∉ acc.1) ->
(fold_left dedup_step es acc).2 = acc.2 ++ es.
Proof.
revert acc. induction es as [|e es IH]; intros acc Hnd Hfresh; simpl.
- by rewrite app_nil_r.
- apply NoDup_cons in Hnd as [Hne Hnd].
  unfold dedup_step at 2.
  destruct (decide (edge_key e ∈ acc.1)) as [Hin|_].
  { exfalso. apply (Hfresh e); [apply list_elem_of_here|done]. }
  rewrite IH; simpl; [by rewrite <- app_assoc|done|].
  intros e' He' Hin. apply elem_of_union in Hin as [Hin|Hin].
  + apply elem_of_singleton in Hin. apply Hne. rewrite <- Hin.
    apply list_elem_of_fmap. eauto.
  + apply (Hfresh e'); [by apply list_elem_of_further|done].
Qed.

Lemma fold_dedup_sublist es acc :
exists kept, (fold_left dedup_step es acc).2 = acc.2 ++ kept /\ sublist kept es.
Proof.
revert acc. induction es as [|e es IH]; intros acc; simpl.
- exists []. by rewrite app_nil_r.
- destruct (IH (dedup_step acc e)) as (kept & -> & Hsub).
  unfold dedup_step. destruct (decide _).
  + exists kept. split; [done|]. by apply sublist_cons.
  + exists (e :: kept). simpl. split; [by rewrite <- app_assoc|].
    by apply sublist_skip.
Qed.

(** An edge with no earlier edge of the same key is kept. *)
Lemma fold_dedup_first l1 e l2 acc :
edge_key e ∉ acc.1 ->
(forall e', e' ∈ l1 -> edge_key e' <> edge_key e) ->
e ∈ (fold_left dedup_step (l1 ++ e :: l2) acc).2.
Proof.
revert acc. induction l1 as [|x l1 IH]; intros acc Hfresh Hl1; simpl.
- unfold dedup_step at 2. destruct (decide _); [done|].
  destruct (fold_dedup_sublist l2 ({[edge_key e]} ∪ acc.1, acc.2 ++ [e]))
    as (kept & -> & _).
  simpl. rewrite <- app_assoc. apply elem_of_app. right.
  apply list_elem_of_here.
- apply IH.
  + unfold dedup_step. destruct (decide _); [done|]. simpl.
    intros Hin. apply elem_of_union in Hin as [Hin|Hin]; [|done].
    apply elem_of_singleton in Hin. apply (Hl1 x); [apply list_elem_of_here|done].
  + intros e' He'. apply Hl1. by apply list_elem_of_further.
Qed.

(** X3. [deduplicateEdges] keeps, in their order, the first edge of each key
    and drops every other: its result is a sublist of its argument, no two
    edges of the result have the same key, an edge that no earlier edge
    shares its key with is kept, every edge has a kept edge with its key,
    and deduplicating twice changes nothing more. *)
Theorem deduplicateEdges_first_of_each_key (es : list GraphEdge) :
sublist (deduplicateEdges es) es
/\ NoDup (List.map edge_key (deduplicateEdges es))
/\ (forall l1 e l2,
      es = l1 ++ e :: l2 ->
      (forall e', e' ∈ l1 -> edge_key e' <> edge_key e) ->
      e ∈ deduplicateEdges es)
/\ (forall e, e ∈ es ->
      exists e', e' ∈ deduplicateEdges es /\ edge_key e' = edge_key e)
/\ deduplicateEdges (deduplicateEdges es) = deduplicateEdges es.
Proof.
split_and!.
- unfold deduplicateEdges.
  by destruct (fold_dedup_sublist es (∅, [])) as (kept & -> & Hsub).
- apply deduplicateEdges_NoDup.
- intros l1 e l2 -> Hl1. unfold deduplicateEdges.
  apply fold_dedup_first; [set_solver|done].
- apply deduplicateEdges_covers.
- unfold deduplicateEdges at 1.
  rewrite fold_dedup_fresh; [done|apply deduplicateEdges_NoDup|set_solver].
Qed.

End DedupKeeps.

(** ** Edges and links *)
Section EdgesAndLinks.
Import GraphIndexer.

(** With no [>] in [a] and [a'], the separator [->] is found at the same
    place on both sides. *)
Lemma arrow_inj a a' b b' :
free_of ">" a -> free_of ">" a' ->
a +:+ "->" +:+ b = a' +:+ "->" +:+ b' -> a = a' /\ b = b'.
Proof.
revert a'. induction a as [|c a IH]; intros [|c' a'] Ha Ha' Heq.
- change (String "-" (String ">" b) = String "-" (String ">" b')) in Heq.
  by injection Heq as ->.
- change (String "-" (String ">" b) = String c' (a' +:+ "->" +:+ b')) in Heq.
  injection Heq as <- Heq. destruct a' as [|d a''].
  + change (String ">" b = String "-" (String ">" b')) in Heq. discriminate.
  + change (String ">" b = String d (a'' +:+ "->" +:+ b')) in Heq.
    injection Heq as <- _. simpl in Ha'. by destruct Ha' as [_ [? _]].
- change (String c (a +:+ "->" +:+ b) = String "-" (String ">" b')) in Heq.
  injection Heq as -> Heq. destruct a as [|d a''].
  + change (String "-" (String ">" b) = String ">" b') in Heq. discriminate.
  + change (String d (a'' +:+ "->" +:+ b) = String ">" b') in Heq.
    injection Heq as -> _. simpl in Ha. by destruct Ha as [_ [? _]].
- change (String c (a +:+ "->" +:+ b) = String c' (a' +:+ "->" +:+ b')) in Heq.
  injection Heq as -> Heq. simpl in Ha, Ha'.
  destruct (IH a' (proj2 Ha) (proj2 Ha') Heq) as [-> ->]. done.
Qed.

(** Between ids without [>], equal keys mean the same unordered pair. *)
Lemma edge_key_inj e1 e2 :
free_of ">" (from e1) -> free_of ">" (to e1) ->
free_of ">" (from e2) -> free_of ">" (to e2) ->
edge_key e1 = edge_key e2 -> same_pair e1 e2.
Proof.
intros Hf1 Ht1 Hf2 Ht2. unfold edge_key, same_pair.
destruct (JS.lt (from e1) (to e1)), (JS.lt (from e2) (to e2));
  intros Heq; apply arrow_inj in Heq as [? ?]; auto.
Qed.

(** The ids of the notes do not contain [>]. *)
Definition plain_ids (notes : list Note) : Prop :=
Forall (fun n => free_of ">" (id n)) notes.

Lemma plain_ids_elem notes k :
plain_ids notes -> k ∈ List.map id notes -> free_of ">" k.
Proof.
intros Hp Hk. apply list_elem_of_fmap in Hk as (n & -> & Hn).
unfold plain_ids in Hp. rewrite Forall_forall in Hp. by apply Hp.
Qed.

(** X4. Deduplication loses no linked pair: when no id contains [>], every
    link that resolves to another note with a non-empty id leaves an edge
    between the two notes in the returned graph. *)
Theorem indexGraph_keeps_every_pair (notes : list Note) (note : Note)
  (link : Link) (targetId : string) :
plain_ids notes ->
note ∈ notes -> link ∈ links_of note ->
resolve notes link = Some targetId ->
targetId <> id note -> targetId <> EmptyString ->
exists e, e ∈ edges (indexGraph notes initial).1
          /\ same_pair e (mkEdge (id note) targetId (edge_type_of (ltype link))).
Proof.
intros Hplain Hnote Hlink Hres Hne Hnonempty.
rewrite indexGraph_initial. simpl.
set (fwd := mkEdge (id note) targetId (edge_type_of (ltype link))).
assert (Hraw : fwd ∈ (raw notes).1).
{ rewrite raw_edges. apply list_elem_of_In, in_flat_map.
  exists note. split; [by apply list_elem_of_In|].
  apply in_flat_map. exists link. split; [by apply list_elem_of_In|].
  unfold link_edges. unfold resolve in Hres. rewrite Hres.
  apply truthy_nonempty in Hnonempty. rewrite Hnonempty.
  apply String.eqb_neq in Hne. rewrite Hne. simpl. by left. }
destruct (deduplicateEdges_covers _ _ Hraw) as (e' & He' & Hkey).
exists e'. split; [done|].
pose proof (collect_joins notes initial) as Hj.
rewrite collect_initial in Hj. simpl in Hj. unfold joins_notes in Hj.
rewrite Forall_forall in Hj.
destruct (Hj e' (deduplicateEdges_subset _ _ He')) as [Hf' Ht'].
destruct (Hj fwd Hraw) as [Hf Ht].
apply edge_key_inj; eauto using plain_ids_elem.
Qed.

Lemma indexGraph_keeps_every_pair_witness :
exists e, e ∈ edges (indexGraph [home; work; lonely] initial).1
          /\ same_pair e (mkEdge "2" "1" wikilink).
Proof.
apply (indexGraph_keeps_every_pair [home; work; lonely] work
         (mkLink "Home" LWikilink) "1").
- repeat constructor; discriminate.
- apply list_elem_of_further, list_elem_of_here.
- vm_compute. apply list_elem_of_here.
- reflexivity.
- discriminate.
- discriminate.
Defined.

(** Every returned edge is the forward edge of a link: it leaves the note
    that holds the link and enters the note the link resolves to. *)
Lemma indexGraph_edge_is_link notes e :
e ∈ edges (indexGraph notes initial).1 ->
exists note link,
  note ∈ notes /\ link ∈ links_of note
  /\ resolve notes link = Some (to e)
  /\ from e = id note /\ to e <> id note
  /\ type e = edge_type_of (ltype link).
Proof.
rewrite indexGraph_initial. simpl. intros He.
assert (Htype : type e <> backlink).
{ pose proof (collect_paired notes initial) as Hp.
  rewrite collect_initial in Hp. simpl in Hp.
  pose proof (fold_dedup_paired (raw notes).1 (∅, []) Hp (Forall_nil_2 _)) as Hall.
  rewrite Forall_forall in Hall. by apply Hall. }
apply deduplicateEdges_subset in He. rewrite raw_edges in He.
apply list_elem_of_In, in_flat_map in He as (note & Hnote & He).
apply in_flat_map in He as (link & Hlink & He).
exists note, link. unfold link_edges in He. unfold resolve.
destruct (resolveLink link _ _) as [t|]; [|done].
destruct (JS.truthy t && negb (String.eqb t (id note))) eqn:Hg; [|done].
apply andb_true_iff in Hg as [_ Hne]. apply negb_true_iff in Hne.
apply String.eqb_neq in Hne.
destruct He as [<-|[<-|[]]]; simpl in *; [|done].
split_and!; try done; by apply list_elem_of_In.
Qed.

(** X5. [getBacklinks] on the returned edges is sound: every id it lists for
    [noteId] is the id of another note whose content holds a link that
    resolves to [noteId]. *)
Theorem getBacklinks_sound (notes : list Note) (noteId source : string) :
source ∈ getBacklinks noteId (edges (indexGraph notes initial).1) ->
source <> noteId
/\ exists note link,
     note ∈ notes /\ id note = source /\ link ∈ links_of note
     /\ resolve notes link = Some noteId.
Proof.
unfold getBacklinks. intros Hs.
apply list_elem_of_fmap in Hs as (e & -> & He).
apply list_elem_of_In, List.filter_In in He as [He Hf].
apply andb_true_iff in Hf as [Hto _]. apply String.eqb_eq in Hto. subst noteId.
apply list_elem_of_In, indexGraph_edge_is_link in He
  as (note & link & Hn & Hl & Hres & Hfrom & Hne & _).
split; [congruence|]. exists note, link. by split_and!.
Qed.

Lemma getBacklinks_sound_witness :
"1" <> "2"
/\ exists note link,
     note ∈ [home; work; lonely] /\ id note = "1" /\ link ∈ links_of note
     /\ resolve [home; work; lonely] link = Some "2".
Proof.
apply getBacklinks_sound. vm_compute. apply list_elem_of_here.
Defined.

End EdgesAndLinks.

(** ** What a match has read *)
Section RegexReads.
Import Regex.

(** Every code unit of [s] passes the test [p]. *)
Fixpoint all_chars (p : ascii -> bool) (s : string) : Prop :=
match s with
| EmptyString => True
| String c s' => p c = true /\ all_chars p s'
end.

(** From [x] the matcher has read the text [w] to reach [z]. *)
Definition reads (x z : mstate) (w : string) : Prop :=
rest x = w +:+ rest z /\ endIndex z = endIndex x + String.length w.

(** The value of capture [n] in a state. *)
Definition capture (n : nat) (x : mstate) : option string :=
snd <$> List.find (fun nc => Nat.eqb (fst nc) n) (captures x).

Lemma substring_prefix w r :
String.substring 0 (String.length w) (w +:+ r) = w.
Proof.
induction w as [|c w IH].
- change (EmptyString +:+ r) with r. simpl. by destruct r.
- change (String c w +:+ r) with (String c (w +:+ r)). simpl. by rewrite IH.
Qed.

Lemma step_char_clear p k gs x :
step_char p k (clear_captures gs x)
= match rest x with
  | String a s' =>
      if p a
      then k (MState (S (endIndex x)) s' (captures (clear_captures gs x)))
      else None
  | EmptyString => None
  end.
Proof. reflexivity. Qed.

(** One or more (or zero or more) code units of a class: the loop reads
    only code units of the class, at least [min] of them. *)
Lemma repeat_class_reads p gs greedy c :
forall fuel min x y,
  repeat_matcher (step_char p) gs greedy c fuel min None x = Some y ->
  exists z w, c z = Some y /\ reads x z w /\ all_chars p w
              /\ min <= String.length w.
Proof.
induction fuel as [|fuel IH]; intros min x y; simpl; [done|].
assert (Hiter : forall y',
  step_char p (fun y0 =>
       if (min =? 0) && (endIndex y0 =? endIndex x) then None
       else repeat_matcher (step_char p) gs greedy c fuel (Nat.pred min) None y0)
    (clear_captures gs x) = Some y' ->
  exists z w, c z = Some y' /\ reads x z w /\ all_chars p w
              /\ min <= String.length w).
{ intros y'. rewrite step_char_clear.
  destruct (rest x) as [|a s'] eqn:Hr; [done|].
  destruct (p a) eqn:Hp; [|done]. cbv beta. cbn [endIndex].
  destruct ((min =? 0) && (S (endIndex x) =? endIndex x)); [done|].
  intros H. apply IH in H as (z & w & Hc & [Hw1 Hw2] & Hall & Hmin).
  cbn [rest endIndex] in Hw1, Hw2. exists z, (String a w).
  split; [done|]. split; [|split; [by split|simpl; lia]].
  unfold reads. rewrite Hr, Hw1. split; [done|]. simpl. lia. }
assert (Hstop : min = 0 -> c x = Some y ->
  exists z w, c z = Some y /\ reads x z w /\ all_chars p w
              /\ min <= String.length w).
{ intros -> Hc. exists x, EmptyString.
  split_and!; first [done | unfold reads; simpl; split; [done|lia]]. }
destruct (Nat.eqb_spec min 0) as [Hmin|Hmin]; simpl; [|apply Hiter].
destruct greedy.
- destruct (step_char p _ (clear_captures gs x)) as [z0|] eqn:Hm0.
  + intros [= <-]. by apply Hiter.
  + by apply Hstop.
- destruct (c x) as [z0|] eqn:Hc0.
  + intros [= <-]. by apply Hstop.
  + apply Hiter.
Qed.

(** A group around such a loop captures exactly what the loop has read. *)
Lemma group_class_reads n neg atoms min greedy c x y :
matcher (Group n (Quant (Class neg atoms) min None greedy)) c x = Some y ->
exists z w, c z = Some y /\ capture n z = Some w
            /\ all_chars (class_matches neg atoms) w
            /\ min <= String.length w.
Proof.
simpl. intros H. apply repeat_class_reads in H
  as (z & w & Hc & [Hw1 Hw2] & Hall & Hmin).
exists (set_capture n x z), w. split_and!; try done.
unfold capture, set_capture. simpl. rewrite Nat.eqb_refl. simpl.
rewrite Hw2, Hw1. replace (endIndex x + String.length w - endIndex x)
  with (String.length w) by lia.
by rewrite substring_prefix.
Qed.

(** A matcher that leaves the capture [n] as it finds it. *)
Definition preserves (n : nat)
  (m : (mstate -> option mstate) -> mstate -> option mstate) : Prop :=
forall c x y, m c x = Some y ->
  exists z, c z = Some y /\ capture n z = capture n x.

Lemma step_char_preserves n p : preserves n (step_char p).
Proof.
intros c x y. unfold step_char. destruct (rest x) as [|a s']; [done|].
destruct (p a); [|done]. intros Hc. eexists. split; [exact Hc|]. done.
Qed.

Lemma capture_clear n gs x :
n ∉ gs -> capture n (clear_captures gs x) = capture n x.
Proof.
intros Hn. unfold capture, clear_captures. simpl.
induction (captures x) as [|[k t] l IH]; simpl; [done|].
destruct (Nat.eqb_spec k n) as [->|Hne].
- assert (existsb (Nat.eqb n) gs = false) as ->.
  { apply not_true_is_false. intros H. apply existsb_exists in H as (g & Hg & He).
    apply Nat.eqb_eq in He. subst g. by apply Hn, list_elem_of_In. }
  simpl. by rewrite Nat.eqb_refl.
- destruct (negb (existsb (Nat.eqb k) gs)); simpl; [|done].
  by destruct (Nat.eqb_spec k n).
Qed.

Lemma repeat_matcher_preserves n m gs greedy c :
n ∉ gs -> preserves n m ->
forall fuel min max x y,
  repeat_matcher m gs greedy c fuel min max x = Some y ->
  exists z, c z = Some y /\ capture n z = capture n x.
Proof.
intros Hn Hm. induction fuel as [|fuel IH]; intros min max x y; simpl; [done|].
assert (Hiter : forall y',
  m (fun y0 =>
       if (min =? 0) && (endIndex y0 =? endIndex x) then None
       else repeat_matcher m gs greedy c fuel (Nat.pred min) (Nat.pred <$> max) y0)
    (clear_captures gs x) = Some y' ->
  exists z, c z = Some y' /\ capture n z = capture n x).
{ intros y' H. apply Hm in H as (z1 & Hd & Hk1).
  destruct ((min =? 0) && (endIndex z1 =? endIndex x)); [done|].
  apply IH in Hd as (z & Hc & Hk2). exists z; split; [done|].
  by rewrite Hk2, Hk1, capture_clear. }
destruct (max_is_zero max); [eauto|].
destruct (negb (min =? 0)); [apply Hiter|].
destruct greedy.
- destruct (m _ (clear_captures gs x)) as [z0|] eqn:Hm0.
  + intros [= <-]. by apply Hiter.
  + eauto.
- destruct (c x) as [z0|] eqn:Hc0.
  + intros [= <-]. eauto.
  + apply Hiter.
Qed.

Lemma matcher_preserves n r : n ∉ groups r -> preserves n (matcher r).
Proof.
induction r as [a| |neg atoms|r1 IH1 r2 IH2|k r IH|r IH min max greedy];
  intros Hn c x y; simpl.
- apply step_char_preserves.
- apply step_char_preserves.
- apply step_char_preserves.
- simpl in Hn. apply not_elem_of_app in Hn as [Hn1 Hn2].
  intros H. apply (IH1 Hn1) in H as (z1 & H & Hk1).
  apply (IH2 Hn2) in H as (z & H & Hk2). exists z. split; [done|congruence].
- simpl in Hn. apply not_elem_of_cons in Hn as [Hne Hn].
  intros H. apply (IH Hn) in H as (z & H & Hk).
  eexists. split; [exact H|]. rewrite <- Hk.
  unfold capture, set_capture. simpl.
  by destruct (Nat.eqb_spec k n); [congruence|].
- simpl in Hn. apply repeat_matcher_preserves; [done|by apply IH].
Qed.

(** What [search] and [exec] return is what the matcher reached. *)
Lemma search_inv (P : rmatch -> Prop) r s i m :
(forall j x y, matcher r Some x = Some y -> captures x = [] ->
   endIndex x = j -> P (RMatch j (endIndex y) (captures y))) ->
search r s i = Some m -> P m.
Proof.
intros HP. revert i. induction s as [|a s IH]; intros i; simpl; unfold match_at.
- destruct (matcher r Some _) as [y|] eqn:Hy; [|done].
  intros [= <-]. by eapply HP.
- destruct (matcher r Some _) as [y|] eqn:Hy.
  + intros [= <-]. by eapply HP.
  + apply IH.
Qed.

Lemma exec_inv (P : rmatch -> Prop) r s li m li' :
(forall j x y, matcher r Some x = Some y -> captures x = [] ->
   endIndex x = j -> P (RMatch j (endIndex y) (captures y))) ->
exec r s li = (Some m, li') -> P m.
Proof.
intros HP. unfold exec. destruct (String.length s <? li); [done|].
destruct (search r (drop li s) li) as [m'|] eqn:Hs; [|done].
intros [= <- _]. by eapply search_inv.
Qed.

(** Everything the loop pushes comes from the body run on a match. *)
Lemma while_exec_Forall {A} (P : A -> Prop) r s (body : rmatch -> option A) :
(forall li m li' a, exec r s li = (Some m, li') -> body m = Some a -> P a) ->
forall fuel li xs l,
  GraphIndexer.while_exec fuel r s body li = Some (xs, l) -> Forall P xs.
Proof.
intros HP. induction fuel as [|fuel IH]; intros li xs l; simpl; [done|].
destruct (exec r s li) as [[m|] li'] eqn:He.
- destruct (GraphIndexer.while_exec fuel r s body li') as [[ys l']|] eqn:Hw; [|done].
  intros [= <- <-]. apply IH in Hw.
  destruct (body m) as [a|] eqn:Hb; [|done]. constructor; [|done]. eauto.
- intros [= <- <-]. constructor.
Qed.

End RegexReads.

(** ** The shape of extracted links and tags *)
Section ExtractedShape.
Import Regex GraphIndexer.

Lemma all_chars_free p sep s :
(forall c, p c = true -> c <> sep) -> all_chars p s -> free_of sep s.
Proof.
intros Hp. induction s as [|c s IH]; simpl; [done|].
intros [Hc Hs]. split; [by apply Hp|by apply IH].
Qed.

Lemma all_chars_trimStart p s : all_chars p s -> all_chars p (JS.trimStart s).
Proof.
induction s as [|c s IH]; simpl; [done|]. intros [Hc Hs].
destruct (JS.is_space c); [by apply IH|by split].
Qed.

Lemma all_chars_trimEnd p s : all_chars p s -> all_chars p (JS.trimEnd s).
Proof.
induction s as [|c s IH]; simpl; [done|]. intros [Hc Hs].
specialize (IH Hs). destruct (JS.trimEnd s) as [|d t].
- by destruct (JS.is_space c).
- by split.
Qed.

Lemma all_chars_trim p s : all_chars p s -> all_chars p (JS.trim s).
Proof. intros H. by apply all_chars_trimEnd, all_chars_trimStart. Qed.

Lemma trimEnd_idem s : JS.trimEnd (JS.trimEnd s) = JS.trimEnd s.
Proof.
induction s as [|c s IH]; simpl; [done|].
destruct (JS.trimEnd s) as [|d t] eqn:Ht.
- destruct (JS.is_space c) eqn:Hc; simpl; [done|]. by rewrite Hc.
- change (JS.trimEnd (String c (String d t)))
    with (match JS.trimEnd (String d t) with
          | EmptyString => if JS.is_space c then EmptyString
                           else String c EmptyString
          | t' => String c t'
          end).
  by rewrite IH.
Qed.

(** A text that is empty or begins with something else than white space. *)
Definition starts_clean (s : string) : Prop :=
match s with
| EmptyString => True
| String c _ => JS.is_space c = false
end.

Lemma trimStart_clean s : starts_clean (JS.trimStart s).
Proof.
induction s as [|c s IH]; simpl; [done|].
destruct (JS.is_space c) eqn:Hc; [done|]. simpl. done.
Qed.

Lemma trimStart_of_clean s : starts_clean s -> JS.trimStart s = s.
Proof. destruct s as [|c s]; simpl; [done|]. by intros ->. Qed.

Lemma trimEnd_clean s : starts_clean s -> starts_clean (JS.trimEnd s).
Proof.
destruct s as [|c s]; simpl; [done|]. intros Hc.
destruct (JS.trimEnd s); simpl; [by rewrite Hc|done].
Qed.

(** Trimming twice is trimming once. *)
Lemma trim_idem s : JS.trim (JS.trim s) = JS.trim s.
Proof.
unfold JS.trim.
rewrite (trimStart_of_clean (JS.trimEnd (JS.trimStart s))).
- apply trimEnd_idem.
- apply trimEnd_clean, trimStart_clean.
Qed.

Definition wikilink_class (c : ascii) : bool :=
class_matches true [CAChar "]"; CAChar "|"; CAChar "#"] c.

Definition mdlink_class (c : ascii) : bool :=
class_matches true [CAChar ")"] c.

Definition tag_class (c : ascii) : bool :=
class_matches false [CAWord; CAChar "-"] c.

Lemma group_of_capture n j e y :
group n (RMatch j e (captures y)) = capture n y.
Proof. reflexivity. Qed.

(** Capture 1 of a wikilink match holds only code units other than [\]],
    [|] and [#]. *)
Lemma wikilink_capture s li m li' :
exec wikilinkRegex s li = (Some m, li') ->
exists w, group 1 m = Some w /\ all_chars wikilink_class w.
Proof.
apply (exec_inv (fun m => exists w, group 1 m = Some w
                                    /\ all_chars wikilink_class w)).
intros j x y H _ _. unfold wikilinkRegex in H.
change (matcher (Cat (Lit "[") (Cat (Lit "[") (Cat ?g ?r))) Some x)
  with (step_char (Ascii.eqb "[")
          (step_char (Ascii.eqb "[") (matcher g (matcher r Some))) x) in H.
apply step_char_forward in H as (z1 & H & _).
apply step_char_forward in H as (z2 & H & _).
apply group_class_reads in H as (z3 & w & H & Hcap & Hall & _).
apply (matcher_preserves 1) in H as (z & [= ->] & Hk).
- exists w. rewrite group_of_capture. split; [congruence|done].
- vm_compute. intros Hin. by apply elem_of_nil in Hin.
Qed.

Lemma mdlink_capture s li m li' :
exec mdLinkRegex s li = (Some m, li') ->
exists w, group 1 m = Some w /\ all_chars mdlink_class w.
Proof.
apply (exec_inv (fun m => exists w, group 1 m = Some w
                                    /\ all_chars mdlink_class w)).
intros j x y H _ _. unfold mdLinkRegex in H.
change (matcher (Cat ?a (Cat ?b (Cat ?c (Cat ?d (Cat ?g ?r))))) Some x)
  with (matcher a (matcher b (matcher c (matcher d
          (matcher g (matcher r Some))))) x) in H.
apply matcher_forward in H as (z1 & H & _).
apply matcher_forward in H as (z2 & H & _).
apply matcher_forward in H as (z3 & H & _).
apply matcher_forward in H as (z4 & H & _).
apply group_class_reads in H as (z5 & w & H & Hcap & Hall & _).
apply (matcher_preserves 1) in H as (z & [= ->] & Hk).
- exists w. rewrite group_of_capture. split; [congruence|done].
- vm_compute. intros Hin. by apply elem_of_nil in Hin.
Qed.

(** What every extracted link looks like. *)
Definition link_shape (link : Link) : Prop :=
target link <> EmptyString
/\ JS.trim (target link) = target link
/\ match ltype link with
   | LWikilink =>
       free_of "]" (target link) /\ free_of "|" (target link)
       /\ free_of "#" (target link)
   | LMdlink =>
       free_of ")" (target link)
       /\ JS.startsWith (target link) "http://" = false
       /\ JS.startsWith (target link) "https://" = false
   end.

Lemma wikilink_body_shape s li m li' link :
exec wikilinkRegex s li = (Some m, li') ->
wikilink_body m = Some link -> link_shape link.
Proof.
intros He. apply wikilink_capture in He as (w & Hg & Hall).
unfold wikilink_body, target_of. rewrite Hg. simpl.
destruct (JS.truthy (JS.trim w)) eqn:Ht; [|done]. intros [= <-].
apply truthy_nonempty in Ht. apply (all_chars_trim _ _) in Hall.
unfold link_shape. simpl. split_and!; [done|apply trim_idem| | |].
- eapply all_chars_free; [|exact Hall]. intros c Hc ->. done.
- eapply all_chars_free; [|exact Hall]. intros c Hc ->. done.
- eapply all_chars_free; [|exact Hall]. intros c Hc ->. done.
Qed.

Lemma mdlink_body_shape s li m li' link :
exec mdLinkRegex s li = (Some m, li') ->
mdlink_body m = Some link -> link_shape link.
Proof.
intros He. apply mdlink_capture in He as (w & Hg & Hall).
unfold mdlink_body, target_of. rewrite Hg. simpl.
destruct (JS.truthy (JS.trim w)) eqn:Ht; [|done].
destruct (JS.startsWith (JS.trim w) "http://") eqn:H1; [done|].
destruct (JS.startsWith (JS.trim w) "https://") eqn:H2; [done|].
simpl. intros [= <-].
apply truthy_nonempty in Ht. apply (all_chars_trim _ _) in Hall.
unfold link_shape. simpl. split_and!; [done|apply trim_idem| |done|done].
eapply all_chars_free; [|exact Hall]. intros c Hc ->. done.
Qed.

(** X6. Every link that [extractLinks] returns has a target that is not empty
    and carries no white space at either end; a wikilink target holds no
    [\]], [|] or [#]; a Markdown link target holds no [)] and does not
    begin with [http://] or [https://]. *)
Theorem extractLinks_shape (content : string) (st : istate) (link : Link) :
link ∈ (extractLinks content st).1 -> link_shape link.
Proof.
unfold extractLinks, extractLinks_fuel.
destruct (while_exec _ wikilinkRegex _ _ _) as [[ws wl]|] eqn:Hw;
  [|intros H; by apply elem_of_nil in H].
destruct (while_exec _ mdLinkRegex _ _ _) as [[ms ml]|] eqn:Hm;
  [|intros H; by apply elem_of_nil in H].
simpl. intros Hin.
apply (while_exec_Forall link_shape) in Hw;
  [|intros; by eapply wikilink_body_shape].
apply (while_exec_Forall link_shape) in Hm;
  [|intros; by eapply mdlink_body_shape].
rewrite Forall_forall in Hw, Hm.
apply elem_of_app in Hin as [Hin|Hin]; auto.
Qed.

Lemma extractLinks_shape_witness :
link_shape (mkLink "Work" LWikilink).
Proof.
apply (extractLinks_shape "See [[ Work |alias]] and [x](https://a.b)" initial).
vm_compute. apply list_elem_of_here.
Defined.

End ExtractedShape.

(** ** Tags *)
Section Tags.
Import Regex GraphIndexer.

Lemma drop_step i s a s' :
drop i s = String a s' -> drop (S i) s = s'.
Proof.
revert s. induction i as [|i IH]; intros [|c s]; simpl; try done.
- by intros [= _ ->].
- apply IH.
Qed.

Lemma substring_of_drop j n s :
String.substring j n s = String.substring 0 n (drop j s).
Proof.
revert s. induction j as [|j IH]; intros [|c s]; simpl; try done.
by destruct n.
Qed.

(** What [search] and [exec] return: the matched text and the captures the
    matcher reached. *)
Lemma search_text (Q : string -> list (nat * string) -> Prop) r s :
(forall x y, matcher r Some x = Some y ->
   exists w, reads x y w /\ Q w (captures y)) ->
forall s' i m, s' = drop i s -> search r s' i = Some m ->
  Q (matched s m) (caps m).
Proof.
intros Hr s'. induction s' as [|a s' IH]; intros i m Hs; simpl; unfold match_at.
- destruct (matcher r Some _) as [y|] eqn:Hy; [|done].
  intros [= <-]. apply Hr in Hy as (w & [Hw1 Hw2] & HQ). simpl in Hw1, Hw2.
  unfold matched. simpl. rewrite Hw2.
  replace (i + String.length w - i) with (String.length w) by lia.
  rewrite substring_of_drop, <- Hs, Hw1. by rewrite substring_prefix.
- destruct (matcher r Some _) as [y|] eqn:Hy.
  + intros [= <-]. apply Hr in Hy as (w & [Hw1 Hw2] & HQ). simpl in Hw1, Hw2.
    unfold matched. simpl. rewrite Hw2.
    replace (i + String.length w - i) with (String.length w) by lia.
    rewrite substring_of_drop, <- Hs, Hw1. by rewrite substring_prefix.
  + apply IH. symmetry. by eapply drop_step.
Qed.

Lemma exec_text (Q : string -> list (nat * string) -> Prop) r s li m li' :
(forall x y, matcher r Some x = Some y ->
   exists w, reads x y w /\ Q w (captures y)) ->
exec r s li = (Some m, li') -> Q (matched s m) (caps m).
Proof.
intros Hr. unfold exec. destruct (String.length s <? li); [done|].
destruct (search r (drop li s) li) as [m'|] eqn:Hs; [|done].
intros [= <- _]. by eapply search_text.
Qed.

Lemma exec_matched (Q : string -> Prop) r s li m li' :
(forall x y, matcher r Some x = Some y -> exists w, reads x y w /\ Q w) ->
exec r s li = (Some m, li') -> Q (matched s m).
Proof. intros Hr. by apply (exec_text (fun w _ => Q w)). Qed.

Lemma quant_class_reads neg atoms min greedy c x y :
matcher (Quant (Class neg atoms) min None greedy) c x = Some y ->
exists z w, c z = Some y /\ reads x z w
            /\ all_chars (class_matches neg atoms) w
            /\ min <= String.length w.
Proof. simpl. apply repeat_class_reads. Qed.

(** A tag match is [#] followed by one or more word characters or
    hyphens. *)
Lemma tagRegex_reads x y :
matcher tagRegex Some x = Some y ->
exists w, reads x y w
          /\ exists t, w = String "#" t /\ t <> EmptyString
                       /\ all_chars tag_class t.
Proof.
unfold tagRegex.
change (matcher (Cat (Lit "#") ?r) Some x)
  with (step_char (Ascii.eqb "#") (matcher r Some) x).
unfold step_char. destruct (rest x) as [|a s'] eqn:Hr; [done|].
destruct (Ascii.eqb_spec "#" a) as [<-|]; [|done].
intros H. unfold Plus in H. apply quant_class_reads in H
  as (z & t & [= ->] & [Ht1 Ht2] & Hall & Hmin).
simpl in Ht1, Ht2. exists (String "#" t). split.
- unfold reads. rewrite Hr, Ht1. split; [done|]. simpl. lia.
- exists t. split_and!; [done| |done]. intros ->. simpl in Hmin. lia.
Qed.

(** [uniq] keeps one copy of each element it has not seen. *)
Lemma uniq_spec seen l :
NoDup (uniq seen l)
/\ (forall t, t ∈ uniq seen l <-> t ∈ l /\ t ∉ seen).
Proof.
revert seen. induction l as [|x l IH]; intros seen; simpl.
- split; [constructor|]. intros t. split; [intros H|intros [H _]];
    by apply elem_of_nil in H.
- destruct (decide (x ∈ seen)) as [Hin|Hnin].
  + destruct (IH seen) as [Hnd Hmem]. split; [done|].
    intros t. rewrite Hmem, elem_of_cons. split; [tauto|].
    intros [[->|Ht] Hns]; [done|tauto].
  + destruct (IH ({[x]} ∪ seen)) as [Hnd Hmem]. split.
    * constructor; [|done]. rewrite Hmem. intros [_ Hx]. apply Hx.
      by apply elem_of_union_l, elem_of_singleton.
    * intros t. rewrite !elem_of_cons, Hmem.
      rewrite not_elem_of_union, not_elem_of_singleton.
      destruct (decide (t = x)) as [->|Hne]; [tauto|]. tauto.
Qed.

(** X7. The tags of a note are pairwise different, not empty, and made of word
    characters and hyphens only. *)
Theorem extractTags_shape (content : string) (st : istate) :
let tags := (extractTags content st).1 in
NoDup tags
/\ (forall t, t ∈ tags -> t <> EmptyString /\ all_chars tag_class t).
Proof.
simpl. unfold extractTags, extractTags_fuel.
destruct (while_exec _ tagRegex _ _ _) as [[ts tl]|] eqn:Hw; simpl.
- destruct (uniq_spec ∅ (List.map
    (fun t => String.substring 1 (String.length t - 1) t) ts)) as [Hnd Hmem].
  split; [done|]. intros t Ht. apply Hmem in Ht as [Ht _].
  apply list_elem_of_fmap in Ht as (t0 & -> & Ht0).
  apply (while_exec_Forall
           (fun t0 => exists t, t0 = String "#" t /\ t <> EmptyString
                                /\ all_chars tag_class t)) in Hw.
  + rewrite Forall_forall in Hw. destruct (Hw t0 Ht0) as (t & -> & Hne & Hall).
    simpl. rewrite Nat.sub_0_r.
    change (String.substring 1 (String.length t) (String "#" t))
      with (String.substring 0 (String.length t) t).
    rewrite substring_all. done.
  + intros li m li' a He [= <-].
    apply (exec_matched (fun w => exists t, w = String "#" t /\ t <> EmptyString
                                           /\ all_chars tag_class t)) in He;
      [done|].
    intros x y Hxy. apply tagRegex_reads in Hxy as (w & Hr & Hw'). eauto.
- split; [constructor|]. intros t Ht. by apply elem_of_nil in Ht.
Qed.

End Tags.

(** ** The path returned never passes twice through a node *)
Section ShortestPathSimple.
Import GraphIndexer.

Variable edges : list GraphEdge.
Variable toId : string.

(** Queued paths have no repeated id and run through visited ids only. *)
Definition simple_queue (queue : list (string * list string))
  (visited : gset string) : Prop :=
forall item, item ∈ queue ->
  NoDup item.2 /\ forall v, v ∈ item.2 -> v ∈ visited.

Lemma bfs_simple fuel queue visited p :
simple_queue queue visited ->
bfs fuel toId (build_adjacency edges) queue visited = Some (Some p) ->
NoDup p.
Proof.
revert queue visited. induction fuel as [|fuel IH]; intros queue visited Hq;
  simpl; [done|].
destruct queue as [|[c pc] rest]; [done|]. simpl.
destruct (String.eqb c toId).
- intros [= <-]. apply (Hq (c, pc)), list_elem_of_here.
- fold (neighbors_of edges c).
  pose proof (visit_fold_spec ∅ pc (neighbors_of edges c) rest visited)
    as (H1 & H2 & _ & _ & _ & _).
  destruct (visit_fold_app pc (neighbors_of edges c) rest visited)
    as (new & Hres & Hnew).
  destruct (fold_left (visit_step pc) (neighbors_of edges c) (rest, visited))
    as [queue' visited'] eqn:Hfold.
  simpl in *. subst queue'. apply IH.
  destruct (Hq (c, pc) (list_elem_of_here _ _)) as [Hnd Hvis]. simpl in *.
  intros item Hitem. apply elem_of_app in Hitem as [Hitem|Hitem].
  + destruct (Hq item (list_elem_of_further _ _ _ Hitem)) as [Hnd' Hvis'].
    split; [done|]. intros v Hv. by apply H1, Hvis'.
  + rewrite Forall_forall in Hnew.
    destruct (Hnew item Hitem) as (Hn & Hnv & ->). split.
    * apply NoDup_app. split_and!; [done| |apply NoDup_singleton].
      intros v Hv Hv'. apply list_elem_of_singleton in Hv' as ->.
      by apply Hnv, Hvis.
    * intros v Hv. apply elem_of_app in Hv as [Hv|Hv].
      -- by apply H1, Hvis.
      -- apply list_elem_of_singleton in Hv as ->. by apply H2.
Qed.

(** Every id of a walk after the first is the target of an edge. *)
Lemma is_walk_targets a p :
is_walk edges (a :: p) -> forall v, v ∈ p -> v ∈ List.map to edges.
Proof.
revert a. induction p as [|b p IH]; intros a Hw v Hv.
- by apply elem_of_nil in Hv.
- destruct Hw as [(e & He & _ & Hto) Hw].
  apply elem_of_cons in Hv as [->|Hv]; [|by eapply IH].
  apply list_elem_of_fmap. eauto.
Qed.

End ShortestPathSimple.

Section ShortestPathSimpleClaim.
Import GraphIndexer.

(** X8. The path [shortestPath] returns visits no node twice, and has at most
    one id more than there are edges. *)
Theorem shortestPath_simple (fromId toId : string) (edges : list GraphEdge)
  (p : list string) :
shortestPath fromId toId edges = Some p ->
NoDup p /\ length p <= length edges + 1.
Proof.
intros Hp.
assert (Hnd : NoDup p).
{ unfold shortestPath in Hp.
  destruct (bfs (length edges + 2) toId (build_adjacency edges)
                [(fromId, [fromId])] {[fromId]}) as [r|] eqn:Hr; [|done].
  simpl in Hp. subst r. eapply bfs_simple; [|exact Hr].
  intros item Hitem. apply list_elem_of_singleton in Hitem as ->. simpl.
  split; [apply NoDup_singleton|].
  intros v Hv. apply list_elem_of_singleton in Hv as ->.
  by apply elem_of_singleton. }
split; [done|].
pose proof (shortestPath_spec edges fromId toId) as Hs. rewrite Hp in Hs.
destruct Hs as (Hh & _ & Hw). destruct p as [|a q]; [done|].
apply NoDup_cons in Hnd as [_ Hq]. simpl.
assert (length q <= length edges); [|lia].
rewrite <- (length_map to edges).
etrans; [|apply (size_list_to_set_le (List.map to edges))].
rewrite <- (size_list_to_set (C:=gset string) q Hq).
apply subseteq_size. intros v Hv. apply elem_of_list_to_set in Hv.
apply elem_of_list_to_set. by eapply is_walk_targets.
Qed.

Lemma shortestPath_simple_witness :
NoDup ["A"; "B"; "C"] /\ length ["A"; "B"; "C"] <= 2 + 1.
Proof.
apply (shortestPath_simple "A" "C"
         [mkEdge "A" "B" wikilink; mkEdge "B" "C" wikilink]).
reflexivity.
Defined.

End ShortestPathSimpleClaim.

(** * Further properties of the editor's wiki links *)
Section WikiLinkText.
Import Regex WikiLinks.

Lemma reads_trans x y z w w' :
reads x y w -> reads y z w' -> reads x z (w +:+ w').
Proof.
intros [H1 H2] [H3 H4]. split.
- rewrite H1, H3. clear. induction w as [|a w IH]; [done|].
  change (String a w +:+ w' +:+ rest z) with (String a (w +:+ w' +:+ rest z)).
  change ((String a w +:+ w') +:+ rest z) with (String a ((w +:+ w') +:+ rest z)).
  by rewrite IH.
- rewrite H4, H2. clear.
  assert (Hlen : String.length (w +:+ w') = String.length w + String.length w').
  { induction w as [|a w IH]; [done|].
    change (String a w +:+ w') with (String a (w +:+ w')). simpl.
    by rewrite IH. }
  lia.
Qed.

Lemma lit_reads a c x y :
step_char (Ascii.eqb a) c x = Some y ->
exists z, c z = Some y /\ reads x z (String a EmptyString)
          /\ captures z = captures x.
Proof.
unfold step_char. destruct (rest x) as [|b s'] eqn:Hr; [done|].
destruct (Ascii.eqb_spec a b) as [<-|]; [|done]. intros Hc.
eexists. split; [exact Hc|]. split; [|done]. split; simpl; [done|lia].
Qed.

(** A group around a loop over a class: what it reads is what it
    captures. *)
Lemma group_class_text n neg atoms min greedy c x y :
matcher (Group n (Quant (Class neg atoms) min None greedy)) c x = Some y ->
exists z w, c z = Some y /\ reads x z w /\ capture n z = Some w
            /\ all_chars (class_matches neg atoms) w
            /\ min <= String.length w.
Proof.
simpl. intros H. apply repeat_class_reads in H
  as (z & w & Hc & [Hw1 Hw2] & Hall & Hmin).
exists (set_capture n x z), w. split_and!; try done.
unfold capture, set_capture. simpl. rewrite Nat.eqb_refl. simpl.
rewrite Hw2, Hw1. replace (endIndex x + String.length w - endIndex x)
  with (String.length w) by lia.
by rewrite substring_prefix.
Qed.

(** The text of a wiki link whose title is [w]. *)
Definition bracketed (w : string) : string := "[[" +:+ w +:+ "]]".

Definition title_class (c : ascii) : bool := class_matches true [CAChar "]"] c.

Lemma linkRegex_reads x y :
matcher linkRegex Some x = Some y ->
exists w, reads x y (bracketed w) /\ capture 1 y = Some w
          /\ w <> EmptyString /\ all_chars title_class w.
Proof.
unfold linkRegex.
change (matcher (Cat (Lit "[") (Cat (Lit "[") (Cat ?g (Cat (Lit "]") (Lit "]")))))
                Some x)
  with (step_char (Ascii.eqb "[")
          (step_char (Ascii.eqb "[")
             (matcher g (step_char (Ascii.eqb "]")
                           (step_char (Ascii.eqb "]") Some)))) x).
intros H.
apply lit_reads in H as (z1 & H & Hr1 & _).
apply lit_reads in H as (z2 & H & Hr2 & _).
apply group_class_text in H as (z3 & w & H & Hr3 & Hcap & Hall & Hmin).
apply lit_reads in H as (z4 & H & Hr4 & Hc4).
apply lit_reads in H as (z5 & [= ->] & Hr5 & Hc5).
exists w. split_and!.
- pose proof (reads_trans _ _ _ _ _ Hr1
    (reads_trans _ _ _ _ _ Hr2
       (reads_trans _ _ _ _ _ Hr3 (reads_trans _ _ _ _ _ Hr4 Hr5)))) as Hr.
  exact Hr.
- unfold capture in *. by rewrite Hc5, Hc4.
- intros ->. simpl in Hmin. lia.
- done.
Qed.

(** X9. [extractWikiLinks] returns: the loop ends within the calls of [exec]
    counted above; every element it returns is a string (never
    [undefined]), not empty and without [\]], and the content holds that
    string between [[[] and [\]\]]. *)
Theorem extractWikiLinks_sound (content : string) :
extractWikiLinks_fuel (S (String.length content)) content
= Some (extractWikiLinks content)
/\ forall link, link ∈ extractWikiLinks content ->
     exists w, link = Some w /\ w <> EmptyString /\ all_chars title_class w
       /\ exists i n, String.substring i n content = bracketed w.
Proof.
unfold extractWikiLinks, extractWikiLinks_fuel.
destruct (while_exec_total linkRegex content (fun m => Some (group 1 m))
            (lit_consuming _ _) (S (String.length content)) 0) as [xs Hxs];
  [lia|lia|].
rewrite Hxs. simpl. split; [done|].
apply Forall_forall.
refine (while_exec_Forall _ _ _ _ _ _ _ _ _ Hxs).
intros li m li' a He Hb. simpl in Hb. injection Hb as <-.
apply (exec_text (fun t cs => exists w,
   snd <$> List.find (fun nc => Nat.eqb (fst nc) 1) cs = Some w
   /\ t = bracketed w /\ w <> EmptyString /\ all_chars title_class w))
  in He as (w & Hg & Ht & Hne & Hall).
- exists w. split_and!; try done.
  by exists (index m), (lastEnd m - index m).
- intros x y Hm. apply linkRegex_reads in Hm as (w & Hr & Hcap & Hne & Hall).
  exists (bracketed w). split; [done|]. by exists w.
Qed.

End WikiLinkText.

(** * Further properties of the worker *)

(** ** The node map *)
Section NodeMap.
Import GraphWorker.

(** What identifies a node and never changes during a simulation. *)
Definition identity (n : SimNode) : string * float * option string :=
(id n, mass n, type n).

Lemma map_get_Some k m n :
map_get k m = Some n -> n ∈ m /\ id n = k.
Proof.
unfold map_get. intros H. apply List.find_some in H as [Hin Heq].
split; [by apply list_elem_of_In|by apply String.eqb_eq].
Qed.

Lemma map_get_None k m : map_get k m = None <-> k ∉ List.map id m.
Proof.
unfold map_get. induction m as [|n m IH]; simpl.
- split; [intros _ H; by apply elem_of_nil in H|done].
- destruct (String.eqb_spec (id n) k) as [->|Hne].
  + split; [done|]. intros H. exfalso. apply H, list_elem_of_here.
  + rewrite IH, not_elem_of_cons. split; [by split|by intros [_ ?]].
Qed.

(** [set] on a key already there replaces the value in place. *)
Lemma map_set_present {A} (g : SimNode -> A) k v m n :
map_get k m = Some n -> g v = g n ->
List.map g (map_set k v m) = List.map g m.
Proof.
unfold map_get. induction m as [|n' m IH]; simpl; [done|].
destruct (String.eqb (id n') k).
- intros [= ->] Hg. simpl. by rewrite Hg.
- intros Hf Hg. simpl. by rewrite IH.
Qed.

(** [set] on a new key appends. *)
Lemma map_set_absent k v m :
map_get k m = None -> map_set k v m = m ++ [v].
Proof.
unfold map_get. induction m as [|n' m IH]; simpl; [done|].
destruct (String.eqb (id n') k); [done|]. intros Hf. by rewrite IH.
Qed.

Lemma map_set_NoDup k v m :
id v = k -> NoDup (List.map id m) -> NoDup (List.map id (map_set k v m)).
Proof.
intros Hv Hnd. destruct (map_get k m) as [n|] eqn:Hg.
- rewrite (map_set_present id k v m n Hg); [done|].
  apply map_get_Some in Hg as [_ Hn]. congruence.
- rewrite (map_set_absent _ _ _ Hg), map_app. simpl.
  apply NoDup_app. split_and!; [done| |apply NoDup_singleton].
  intros x Hx Hx'. apply list_elem_of_singleton in Hx' as ->.
  apply map_get_None in Hg. rewrite Hv in Hx. done.
Qed.

(** With distinct keys [set] touches the one node of that key and no
    other. *)
Lemma map_set_elem k v m n :
NoDup (List.map id m) -> n ∈ map_set k v m ->
n = v \/ (id n <> k /\ n ∈ m).
Proof.
induction m as [|n' m IH]; simpl; intros Hnd Hin.
- apply list_elem_of_singleton in Hin. by left.
- apply NoDup_cons in Hnd as [Hn' Hnd].
  destruct (String.eqb_spec (id n') k) as [Hk|Hk].
  + apply elem_of_cons in Hin as [->|Hin]; [by left|]. right. split.
    * intros Hid. apply Hn'. rewrite Hk, <- Hid.
      apply list_elem_of_fmap. by exists n.
    * by apply list_elem_of_further.
  + apply elem_of_cons in Hin as [->|Hin].
    * right. split; [done|apply list_elem_of_here].
    * destruct (IH Hnd Hin) as [->|[Hid Hm]]; [by left|].
      right. split; [done|by apply list_elem_of_further].
Qed.

(** A write through [get] changes nothing that the write itself keeps. *)
Lemma map_update_keeps {A} (g : SimNode -> A) k f m :
(forall n, g (f n) = g n) ->
List.map g (map_update k f m) = List.map g m.
Proof.
intros Hf. unfold map_update. destruct (map_get k m) as [n|] eqn:Hg; [|done].
by apply (map_set_present g k (f n) m n).
Qed.

End NodeMap.

(** ** One tick *)
Section Tick.
Import GraphWorker.

Lemma applyAttraction_static p es ns :
List.map static (applyAttraction p es ns) = List.map static ns.
Proof.
unfold applyAttraction. revert ns.
induction es as [|e es IH]; intros ns; simpl; [done|].
rewrite IH. unfold attraction_step.
destruct (map_get (source e) ns) as [src|]; [|done].
destruct (map_get (target e) ns) as [tgt|]; [|done].
rewrite map_update_keeps by done. by rewrite map_update_keeps.
Qed.

Lemma applyCenterForce_static p ns :
List.map static (applyCenterForce p ns) = List.map static ns.
Proof.
unfold applyCenterForce. rewrite List.map_map. by apply List.map_ext.
Qed.

Lemma updatePositions_identity p ns :
List.map identity (updatePositions p ns) = List.map identity ns.
Proof.
unfold updatePositions. rewrite List.map_map. by apply List.map_ext.
Qed.

Lemma static_identity ns ns' :
List.map static ns = List.map static ns' ->
List.map identity ns = List.map identity ns'.
Proof.
intros H.
assert (Hg : forall l, List.map identity l
  = List.map (fun s : string * float * float * float * option string =>
                (s.1.1.1.1, s.1.2, s.2)) (List.map static l)).
{ intros l. rewrite List.map_map. by apply List.map_ext. }
by rewrite (Hg ns), (Hg ns'), H.
Qed.

(** The nodes after the three forces and the move. *)
Definition ticked (p : Params) (es : list EdgeData) (ns : list SimNode)
  : list SimNode :=
updatePositions p (applyCenterForce p (applyAttraction p es (applyRepulsion p ns))).

Lemma ticked_identity p es ns :
List.map identity (ticked p es ns) = List.map identity ns.
Proof.
unfold ticked. rewrite updatePositions_identity.
apply static_identity.
by rewrite applyCenterForce_static, applyAttraction_static, applyRepulsion_static.
Qed.

(** X10. A step of a worker that has its edges keeps every node with its id,
    mass and type, in the same order, and posts exactly one message, which
    lists each node once, in map order, with its new position; parameters,
    running flag and timers are left alone. *)
Theorem simulationStep_posts_all (st : wstate) (es : list EdgeData) :
edges st = Some es ->
let res := simulationStep st in
res.2 = Completed
/\ List.map identity (nodes res.1) = List.map identity (nodes st)
/\ posted res.1
   = posted st ++ [List.map (fun n => mkPos (id n) (x n) (y n)) (nodes res.1)]
/\ edges res.1 = edges st /\ params res.1 = params st
/\ isRunning res.1 = isRunning st /\ timers res.1 = timers st.
Proof.
intros He. unfold simulationStep. rewrite He. simpl.
split_and!; try done. apply ticked_identity.
Qed.

Lemma simulationStep_posts_all_witness :
let st := mkW [at_origin; half_away] (Some []) default_params true [] 1 0 in
let res := simulationStep st in
res.2 = Completed
/\ List.map identity (nodes res.1) = List.map identity (nodes st)
/\ posted res.1
   = posted st ++ [List.map (fun n => mkPos (id n) (x n) (y n)) (nodes res.1)]
/\ edges res.1 = edges st /\ params res.1 = params st
/\ isRunning res.1 = isRunning st /\ timers res.1 = timers st.
Proof.
apply (simulationStep_posts_all
         (mkW [at_origin; half_away] (Some []) default_params true [] 1 0) []).
reflexivity.
Defined.

End Tick.

(** ** Messages *)
Section WorkerMessages.
Import GraphWorker.

Variable Math_random : nat -> float.
Variable Math_cos Math_sin : float -> float.

Abbreviation handle := (GraphWorker.onmessage Math_random Math_cos Math_sin).
Abbreviation seed := (GraphWorker.seed_node Math_random Math_cos Math_sin).
Abbreviation init_graph := (GraphWorker.initGraph Math_random Math_cos Math_sin).

(** What [initGraph] has set for every node it seeds. *)
Definition seeded (n : SimNode) : Prop :=
vx n = 0%float /\ vy n = 0%float /\ mass n = mass_of (type n).

Lemma map_set_Forall (P : SimNode -> Prop) k v m :
P v -> Forall P m -> Forall P (map_set k v m).
Proof.
intros Hv. induction 1 as [|n m Hn Hm IH]; simpl; [by constructor|].
destruct (String.eqb (id n) k); by constructor.
Qed.

Lemma map_set_ids k v m :
id v = k ->
forall i, i ∈ List.map id (map_set k v m) <-> i = k \/ i ∈ List.map id m.
Proof.
intros Hv i. induction m as [|n m IH]; simpl.
- rewrite list_elem_of_singleton, Hv. split; [auto|].
  intros [?|H]; [done|by apply elem_of_nil in H].
- destruct (String.eqb_spec (id n) k) as [Hn|Hn]; simpl.
  + rewrite !elem_of_cons, Hv, Hn. tauto.
  + rewrite !elem_of_cons, IH. tauto.
Qed.

Lemma fold_seed_spec nds acc :
NoDup (List.map id acc.1) -> Forall seeded acc.1 ->
let res := fold_left seed nds acc in
NoDup (List.map id res.1)
/\ Forall seeded res.1
/\ (forall i, i ∈ List.map id res.1
              <-> i ∈ List.map id acc.1 \/ i ∈ List.map nd_id nds)
/\ res.2 = acc.2 + 2 * length nds.
Proof.
revert acc. induction nds as [|nd nds IH]; intros acc Hnd Hs; simpl.
- split_and!; [done|done| |lia]. intros i. split; [auto|].
  intros [?|H]; [done|by apply elem_of_nil in H].
- destruct (IH (seed acc nd)) as (I1 & I2 & I3 & I4).
  + unfold GraphWorker.seed_node. simpl. by apply map_set_NoDup.
  + unfold GraphWorker.seed_node. simpl. by apply map_set_Forall.
  + split_and!; [done|done| |].
    * intros i. rewrite I3. unfold GraphWorker.seed_node. simpl.
      rewrite map_set_ids by done. rewrite elem_of_cons. tauto.
    * rewrite I4. unfold GraphWorker.seed_node. simpl. lia.
Qed.

(** With pairwise distinct ids the nodes are seeded in payload order. *)
Lemma fold_seed_order nds acc :
NoDup (List.map id acc.1 ++ List.map nd_id nds) ->
List.map identity (fold_left seed nds acc).1
= List.map identity acc.1
  ++ List.map (fun nd => (nd_id nd, mass_of (nd_type nd), nd_type nd)) nds.
Proof.
revert acc. induction nds as [|nd nds IH]; intros acc Hnd; simpl.
- by rewrite app_nil_r.
- assert (Habs : map_get (nd_id nd) acc.1 = None).
  { apply map_get_None. intros Hin.
    apply NoDup_app in Hnd as (_ & Hdisj & _).
    apply (Hdisj _ Hin), list_elem_of_here. }
  rewrite IH; unfold GraphWorker.seed_node; simpl;
    rewrite (map_set_absent _ _ _ Habs), map_app; simpl.
  + by rewrite <- app_assoc.
  + by rewrite <- app_assoc.
Qed.

(** The node that [initGraph] stores for the entry of index [idx] of the
    payload, when [k0] random numbers were drawn before the call: the
    entry's id and type, the mass of that type, no velocity, and a position
    on a ring drawn with the random numbers [k0 + 2 idx] and
    [k0 + 2 idx + 1]. *)
Definition seeded_from (k0 idx : nat) (nodeData : NodeData) : SimNode :=
let angle := (Math_random (k0 + 2 * idx) * Math_PI * 2)%float in
let radius := (200 + Math_random (S (k0 + 2 * idx)) * 100)%float in
mkSim (nd_id nodeData) (Math_cos angle * radius)%float
      (Math_sin angle * radius)%float 0%float 0%float
      (mass_of (nd_type nodeData)) (nd_type nodeData).

(** The entry of index [idx] is the last of the payload with its id. *)
Definition last_with_id (nds : list NodeData) (idx : nat) (nodeData : NodeData)
  : Prop :=
nds !! idx = Some nodeData
/\ forall idx' nd', nds !! idx' = Some nd' -> nd_id nd' = nd_id nodeData ->
     idx' <= idx.

Lemma seed_node_eq acc nd k0 i :
acc.2 = k0 + 2 * i ->
seed acc nd = (map_set (nd_id nd) (seeded_from k0 i nd) acc.1, k0 + 2 * S i).
Proof.
intros Hk. unfold GraphWorker.seed_node, seeded_from. rewrite Hk.
f_equal. lia.
Qed.

(** Each node of the map comes from the last payload entry with its id. *)
Lemma fold_seed_last k0 nds :
let res := fold_left seed nds ([], k0) in
res.2 = k0 + 2 * length nds
/\ NoDup (List.map id res.1)
/\ forall n, n ∈ res.1 ->
     exists idx nd, last_with_id nds idx nd /\ n = seeded_from k0 idx nd.
Proof.
induction nds as [|nd nds IH] using rev_ind; cbv zeta.
- simpl. split_and!; [lia|constructor|]. intros n Hn. by apply elem_of_nil in Hn.
- rewrite fold_left_app. cbn [fold_left]. destruct IH as (Hk & Hnd & Hall).
  rewrite (seed_node_eq _ nd k0 (length nds) Hk). cbn [fst snd].
  split_and!.
  + rewrite length_app. simpl. lia.
  + by apply map_set_NoDup.
  + intros n Hn. apply map_set_elem in Hn; [|done].
    destruct Hn as [->|[Hid Hn]].
    * exists (length nds), nd. split; [|done]. split.
      -- by rewrite lookup_app_r, Nat.sub_diag by lia.
      -- intros idx' nd' Hl _. apply lookup_lt_Some in Hl.
         rewrite length_app in Hl. simpl in Hl. lia.
    * destruct (Hall n Hn) as (idx & nd0 & [Hl Hlast] & ->).
      exists idx, nd0. split; [|done]. split.
      -- by apply lookup_app_l_Some.
      -- intros idx' nd' Hl' Hid'.
         destruct (decide (idx' < length nds)) as [Hlt|Hge].
         ++ rewrite lookup_app_l in Hl' by done. by apply (Hlast idx' nd').
         ++ rewrite lookup_app_r in Hl' by lia.
            destruct (idx' - length nds) as [|?] eqn:Hd; [|done].
            simpl in Hl'. injection Hl' as <-. simpl in Hid. congruence.
Qed.

(** The map lists the ids in the order of their first entry, as a [Set]
    of the payload's ids would. *)
Lemma fold_seed_ids nds acc :
List.map id (fold_left seed nds acc).1
= List.map id acc.1
  ++ GraphIndexer.uniq (list_to_set (List.map id acc.1)) (List.map nd_id nds).
Proof.
revert acc. induction nds as [|nd nds IH]; intros acc; simpl.
- by rewrite app_nil_r.
- rewrite IH. unfold GraphWorker.seed_node at 1 2. simpl.
  destruct (decide (nd_id nd ∈ (list_to_set (List.map id acc.1) : gset string)))
    as [Hin|Hout].
  + rewrite elem_of_list_to_set in Hin.
    destruct (map_get (nd_id nd) acc.1) as [n|] eqn:Hg.
    * by rewrite (map_set_present id _ _ _ n Hg)
        by (apply map_get_Some in Hg as [_ Hn]; simpl; congruence).
    * apply map_get_None in Hg. done.
  + rewrite elem_of_list_to_set in Hout. apply map_get_None in Hout.
    rewrite (map_set_absent _ _ _ Hout), map_app, list_to_set_app_L. simpl.
    rewrite <- app_assoc. simpl. do 3 f_equal.
    apply set_eq. intros z.
    rewrite !elem_of_union, elem_of_empty. tauto.
Qed.

(** X11. [initGraph] on a payload with nodes completes.  The nodes held
    before are gone.  The map lists the ids of the payload once each, in
    the order of their first entry; the node of an id is built from the
    last entry with that id (a repeated id overwrites): it has the type of
    that entry, the mass of that type, no velocity, and the position drawn
    with the two random numbers of that entry.  Two random numbers are
    drawn per entry; [edges] becomes the payload's edges, the parameters
    are merged with the payload's when it has some, and neither the
    running flag nor the posted messages nor the timers change. *)
Theorem initGraph_seeds (data : InitData) (st : wstate)
  (nds : list NodeData) :
data_nodes data = Some nds ->
let res := init_graph data st in
res.2 = Completed
/\ List.map id (nodes res.1) = GraphIndexer.uniq ∅ (List.map nd_id nds)
/\ NoDup (List.map id (nodes res.1))
/\ (forall i, i ∈ List.map id (nodes res.1) <-> i ∈ List.map nd_id nds)
/\ (forall n, n ∈ nodes res.1 ->
      exists idx nd, last_with_id nds idx nd
                     /\ n = seeded_from (draws st) idx nd)
/\ Forall seeded (nodes res.1)
/\ draws res.1 = draws st + 2 * length nds
/\ edges res.1 = data_edges data
/\ params res.1 = match data_params data with
                  | Some d => merge_params (params st) d
                  | None => params st
                  end
/\ isRunning res.1 = isRunning st /\ posted res.1 = posted st
/\ timers res.1 = timers st.
Proof.
intros Hn. unfold GraphWorker.initGraph. rewrite Hn.
pose proof (fold_seed_spec nds ([], draws st)
              (NoDup_nil_2) (Forall_nil_2 _)) as (H1 & H2 & H3 & H4).
pose proof (fold_seed_last (draws st) nds) as (_ & _ & H5).
pose proof (fold_seed_ids nds ([], draws st)) as H6.
simpl in H1, H2, H3, H4, H5, H6. cbv zeta. simpl.
destruct (fold_left seed nds ([], draws st)) as [ns k]. simpl in *.
split_and!; try done.
intros i. rewrite H3. split; [intros [H|H]; [by apply elem_of_nil in H|done]|auto].
Qed.

End WorkerMessages.

Section WorkerSeedsExample.
Import GraphWorker.

Lemma initGraph_seeds_witness :
let nds := [mkNodeData "a" (Some "main"); mkNodeData "a" None] in
let data := mkInit (Some nds) (Some []) None in
let res := initGraph zero_random flat_cos flat_sin data initial in
res.2 = Completed
/\ List.map id (nodes res.1) = GraphIndexer.uniq ∅ (List.map nd_id nds)
/\ NoDup (List.map id (nodes res.1))
/\ (forall i, i ∈ List.map id (nodes res.1) <-> i ∈ List.map nd_id nds)
/\ (forall n, n ∈ nodes res.1 ->
      exists idx nd, last_with_id nds idx nd
                     /\ n = seeded_from zero_random flat_cos flat_sin
                                        (draws initial) idx nd)
/\ Forall seeded (nodes res.1)
/\ draws res.1 = draws initial + 2 * length nds
/\ edges res.1 = data_edges data
/\ params res.1 = match data_params data with
                  | Some d => merge_params (params initial) d
                  | None => params initial
                  end
/\ isRunning res.1 = isRunning initial /\ posted res.1 = posted initial
/\ timers res.1 = timers initial.
Proof.
apply (initGraph_seeds zero_random flat_cos flat_sin
         (mkInit (Some [mkNodeData "a" (Some "main"); mkNodeData "a" None])
                 (Some []) None)
         initial [mkNodeData "a" (Some "main"); mkNodeData "a" None]).
reflexivity.
Defined.

End WorkerSeedsExample.


(** ** Runs of the worker *)
Section WorkerRuns.
Import GraphWorker.

Variable Math_random : nat -> float.
Variable Math_cos Math_sin : float -> float.

Abbreviation receive := (GraphWorker.onmessage Math_random Math_cos Math_sin).

Lemma ids_of_identity ns :
List.map id ns
= List.map (fun s : string * float * option string => s.1.1)
           (List.map identity ns).
Proof. rewrite List.map_map. by apply List.map_ext. Qed.

Lemma identity_ids ns ns' :
List.map identity ns = List.map identity ns' -> List.map id ns = List.map id ns'.
Proof. intros H. by rewrite (ids_of_identity ns), (ids_of_identity ns'), H. Qed.

Lemma applyRepulsion_ids p ns :
List.map id (applyRepulsion p ns) = List.map id ns.
Proof. apply identity_ids, static_identity, applyRepulsion_static. Qed.

Lemma ticked_ids p es ns : List.map id (ticked p es ns) = List.map id ns.
Proof. apply identity_ids, ticked_identity. Qed.

Lemma positions_ids ns :
List.map pos_id (List.map (fun n => mkPos (id n) (x n) (y n)) ns)
= List.map id ns.
Proof. rewrite List.map_map. by apply List.map_ext. Qed.

(** *** updateNodes *)

(** Where a node is and how it moves. *)
Definition kinematics (n : SimNode) : string * float * float * float * float :=
(id n, x n, y n, vx n, vy n).

Definition retype (nodeData : NodeData) (e : SimNode) : SimNode :=
mkSim (id e) (x e) (y e) (vx e) (vy e)
      (mass_of (nd_type nodeData)) (nd_type nodeData).

Lemma update_node_keeps {A} (g : SimNode -> A) ns nd :
(forall n, g (retype nd n) = g n) ->
List.map g (update_node ns nd) = List.map g ns.
Proof. intros Hg. unfold update_node. by apply map_update_keeps. Qed.

Lemma fold_update_node_keeps {A} (g : SimNode -> A) data ns :
(forall nd n, g (retype nd n) = g n) ->
List.map g (fold_left update_node data ns) = List.map g ns.
Proof.
intros Hg. revert ns. induction data as [|nd data IH]; intros ns; simpl; [done|].
rewrite IH. by apply update_node_keeps.
Qed.

Lemma update_node_elem ns nd n :
NoDup (List.map id ns) -> n ∈ update_node ns nd ->
(exists e, e ∈ ns /\ id e = nd_id nd /\ n = retype nd e)
\/ (id n <> nd_id nd /\ n ∈ ns).
Proof.
intros Hnd. unfold update_node, map_update.
destruct (map_get (nd_id nd) ns) as [e|] eqn:Hg.
- intros Hin. apply map_get_Some in Hg as [He Hid].
  apply map_set_elem in Hin; [|done].
  destruct Hin as [->|Hin]; [|by right].
  left. by exists e.
- intros Hin. right. split; [|done]. intros Hid.
  apply map_get_None in Hg. apply Hg. rewrite <- Hid.
  apply list_elem_of_fmap. by exists n.
Qed.

Lemma fold_update_node_elem data ns n :
NoDup (List.map id ns) -> n ∈ fold_left update_node data ns ->
(exists nd, nd ∈ data /\ nd_id nd = id n
            /\ type n = nd_type nd /\ mass n = mass_of (nd_type nd))
\/ ((id n ∉ List.map nd_id data) /\ n ∈ ns).
Proof.
revert ns. induction data as [|nd data IH]; intros ns Hnd Hin; simpl in *.
- right. split; [apply not_elem_of_nil|done].
- destruct (IH (update_node ns nd)) as [(nd' & Hd & H')|[Hout Hm]]; [|done| |].
  + by rewrite update_node_keeps.
  + left. exists nd'. split; [by apply list_elem_of_further|done].
  + apply update_node_elem in Hm; [|done].
    destruct Hm as [(e & He & Hid & ->)|[Hid Hm]].
    * left. exists nd. split; [apply list_elem_of_here|done].
    * right. split; [|done]. apply not_elem_of_cons. by split.
Qed.

(** X12. [updateNodes] on a worker whose nodes have distinct ids: no node is
    added, removed, moved or reordered; a node named by the payload takes
    the type and the mass of an entry with its id, every other node is
    left as it was; nothing is posted. *)
Theorem updateNodes_retypes (data : list NodeData) (st : wstate) :
NoDup (List.map id (nodes st)) ->
let res := receive (UpdateNodes data) st in
res.2 = Completed
/\ List.map kinematics (nodes res.1) = List.map kinematics (nodes st)
/\ (forall n, n ∈ nodes res.1 ->
      (exists nd, nd ∈ data /\ nd_id nd = id n
                  /\ type n = nd_type nd /\ mass n = mass_of (nd_type nd))
      \/ ((id n ∉ List.map nd_id data) /\ n ∈ nodes st))
/\ posted res.1 = posted st /\ isRunning res.1 = isRunning st
/\ timers res.1 = timers st /\ edges res.1 = edges st.
Proof.
intros Hnd. simpl. split_and!; try done.
- by apply fold_update_node_keeps.
- intros n. by apply fold_update_node_elem.
Qed.

(** *** The loop and its timers *)

Lemma loop_running st es :
isRunning st = true -> edges st = Some es ->
let res := loop st in
res.2 = Completed /\ timers res.1 = S (timers st)
/\ isRunning res.1 = true /\ edges res.1 = Some es
/\ posted res.1
   = posted st ++ [List.map (fun n => mkPos (id n) (x n) (y n)) (nodes res.1)]
/\ List.map identity (nodes res.1) = List.map identity (nodes st).
Proof.
intros Hr He. unfold loop, simulationStep. rewrite Hr, He. simpl.
split_and!; try done. apply ticked_identity.
Qed.

(** X13. A timer that fires on a running worker with edges runs one step, posts
    one message and sets the next timer; on a stopped worker it does
    nothing and sets none. *)
Theorem timer_fires_once (st : wstate) (es : list EdgeData) :
edges st = Some es -> 0 < timers st ->
let res := timer_fires st in
res.2 = Completed
/\ edges res.1 = edges st /\ isRunning res.1 = isRunning st
/\ List.map identity (nodes res.1) = List.map identity (nodes st)
/\ if isRunning st
   then timers res.1 = timers st
        /\ length (posted res.1) = S (length (posted st))
   else S (timers res.1) = timers st
        /\ posted res.1 = posted st /\ nodes res.1 = nodes st.
Proof.
intros He Ht. unfold timer_fires. cbn [isRunning].
destruct (isRunning st) eqn:Hr.
- match goal with |- context [loop ?s] =>
    pose proof (loop_running s es eq_refl He) as (H1 & H2 & H3 & H4 & H5 & H6);
    destruct (loop s) as [st' o] end.
  cbv zeta. simpl in *. split_and!; try done.
  + congruence.
  + lia.
  + rewrite H5, length_app. simpl. lia.
- cbv zeta. simpl. split_and!; try done. lia.
Qed.

(** X14. [stop] does not cancel the pending timers: a [start] that arrives
    before they fire runs a step at once and adds a timer to those already
    pending. *)
Theorem stop_start_adds_timer (st : wstate) (es : list EdgeData) :
edges st = Some es ->
let res := receive Start (receive Stop st).1 in
res.2 = Completed /\ isRunning res.1 = true
/\ timers res.1 = S (timers st)
/\ length (posted res.1) = S (length (posted st))
/\ List.map identity (nodes res.1) = List.map identity (nodes st).
Proof.
intros He. simpl. unfold startSimulation, stopSimulation. simpl.
match goal with |- context [loop ?s] =>
  pose proof (loop_running s es eq_refl He) as (H1 & H2 & H3 & H4 & H5 & H6);
  destruct (loop s) as [st' o] end.
simpl in *. split_and!; try done.
rewrite H5, length_app. simpl. lia.
Qed.

(** *** Reachable states *)

(** What the worker does next: it receives a message, or a pending timer
    fires. *)
Inductive wstep : wstate -> wstate -> Prop :=
| receives msg st : wstep st (receive msg st).1
| fires st : 0 < timers st -> wstep st (timer_fires st).1.

(** Distinct ids in the map and in every message posted. *)
Definition tidy (st : wstate) : Prop :=
NoDup (List.map id (nodes st))
/\ Forall (fun positions => NoDup (List.map pos_id positions)) (posted st).

Lemma simulationStep_tidy st : tidy st -> tidy (simulationStep st).1.
Proof.
intros [Hn Hp]. unfold simulationStep, tidy.
destruct (edges st) as [es|]; simpl.
- fold (ticked (params st) es (nodes st)). rewrite ticked_ids. split; [done|].
  apply Forall_app. split; [done|]. apply Forall_singleton.
  by rewrite positions_ids, ticked_ids.
- by rewrite applyRepulsion_ids.
Qed.

Lemma loop_tidy st : tidy st -> tidy (loop st).1.
Proof.
intros Ht. unfold loop. destruct (isRunning st); simpl; [|done].
pose proof (simulationStep_tidy st Ht) as Hs.
by destruct (simulationStep st) as [st' []].
Qed.

Lemma startSimulation_tidy st : tidy st -> tidy (startSimulation st).1.
Proof.
intros Ht. unfold startSimulation. destruct (isRunning st); [done|].
by apply loop_tidy.
Qed.

Lemma initGraph_tidy data st :
tidy st -> tidy (GraphWorker.initGraph Math_random Math_cos Math_sin data st).1.
Proof.
intros [Hn Hp]. unfold GraphWorker.initGraph.
destruct (data_nodes data) as [nds|]; [|split; [apply NoDup_nil_2|done]].
simpl.
pose proof (fold_seed_spec Math_random Math_cos Math_sin nds ([], draws st)
              (NoDup_nil_2) (Forall_nil_2 _)) as (H1 & _).
simpl in H1.
by destruct (fold_left _ nds ([], draws st)) as [ns k].
Qed.

Lemma wstep_tidy st st' : wstep st st' -> tidy st -> tidy st'.
Proof.
intros Hstep Ht. destruct Hstep as [msg st|st Hpos].
- destruct msg as [data| | |data|data|ty]; simpl; try done.
  + pose proof (initGraph_tidy data st Ht) as Hi.
    destruct (GraphWorker.initGraph _ _ _ data st) as [st' []]; [|done].
    by apply startSimulation_tidy.
  + by apply startSimulation_tidy.
  + destruct Ht as [Hn Hp]. split; [|done]. simpl.
    by rewrite fold_update_node_keeps.
- unfold timer_fires. cbn [isRunning].
  destruct (isRunning st); [|done]. by apply loop_tidy.
Qed.

(** X15. However the worker is driven, its map holds each id once and every
    message it has posted lists each id at most once, even when an [init]
    payload repeats an id. *)
Theorem worker_ids_distinct (st : wstate) :
rtc wstep initial st -> tidy st.
Proof.
revert st. apply rtc_ind_r.
- split; [apply NoDup_nil_2|apply Forall_nil_2].
- intros st1 st2 _ Hstep IH. by apply (wstep_tidy st1).
Qed.

End WorkerRuns.

Lemma updateNodes_retypes_witness :
let st := GraphWorker.mkW [at_origin; half_away] (Some [])
            GraphWorker.default_params true [] 1 0 in
let data := [GraphWorker.mkNodeData (GraphWorker.id half_away) (Some "main")] in
let res := GraphWorker.onmessage zero_random flat_cos flat_sin
             (GraphWorker.UpdateNodes data) st in
res.2 = GraphWorker.Completed
/\ List.map kinematics (GraphWorker.nodes res.1)
   = List.map kinematics (GraphWorker.nodes st)
/\ (forall n, n ∈ GraphWorker.nodes res.1 ->
      (exists nd, nd ∈ data /\ GraphWorker.nd_id nd = GraphWorker.id n
                  /\ GraphWorker.type n = GraphWorker.nd_type nd
                  /\ GraphWorker.mass n
                     = GraphWorker.mass_of (GraphWorker.nd_type nd))
      \/ ((GraphWorker.id n ∉ List.map GraphWorker.nd_id data)
          /\ n ∈ GraphWorker.nodes st))
/\ GraphWorker.posted res.1 = GraphWorker.posted st
/\ GraphWorker.isRunning res.1 = GraphWorker.isRunning st
/\ GraphWorker.timers res.1 = GraphWorker.timers st
/\ GraphWorker.edges res.1 = GraphWorker.edges st.
Proof.
apply (updateNodes_retypes zero_random flat_cos flat_sin
         [GraphWorker.mkNodeData (GraphWorker.id half_away) (Some "main")]
         (GraphWorker.mkW [at_origin; half_away] (Some [])
            GraphWorker.default_params true [] 1 0)).
refine (bool_decide_unpack (NoDup _) _). vm_compute. exact I.
Defined.

Lemma timer_fires_once_witness :
let st := GraphWorker.mkW [at_origin; half_away] (Some [])
            GraphWorker.default_params true [] 1 0 in
let res := GraphWorker.timer_fires st in
res.2 = GraphWorker.Completed
/\ GraphWorker.edges res.1 = GraphWorker.edges st
/\ GraphWorker.isRunning res.1 = GraphWorker.isRunning st
/\ List.map identity (GraphWorker.nodes res.1)
   = List.map identity (GraphWorker.nodes st)
/\ if GraphWorker.isRunning st
   then GraphWorker.timers res.1 = GraphWorker.timers st
        /\ length (GraphWorker.posted res.1)
           = S (length (GraphWorker.posted st))
   else S (GraphWorker.timers res.1) = GraphWorker.timers st
        /\ GraphWorker.posted res.1 = GraphWorker.posted st
        /\ GraphWorker.nodes res.1 = GraphWorker.nodes st.
Proof.
apply (timer_fires_once
         (GraphWorker.mkW [at_origin; half_away] (Some [])
            GraphWorker.default_params true [] 1 0) []).
- reflexivity.
- simpl. lia.
Defined.

Lemma stop_start_adds_timer_witness :
let st := GraphWorker.mkW [at_origin; half_away] (Some [])
            GraphWorker.default_params true [] 1 0 in
let res := GraphWorker.onmessage zero_random flat_cos flat_sin GraphWorker.Start
             (GraphWorker.onmessage zero_random flat_cos flat_sin
                GraphWorker.Stop st).1 in
res.2 = GraphWorker.Completed /\ GraphWorker.isRunning res.1 = true
/\ GraphWorker.timers res.1 = S (GraphWorker.timers st)
/\ length (GraphWorker.posted res.1) = S (length (GraphWorker.posted st))
/\ List.map identity (GraphWorker.nodes res.1)
   = List.map identity (GraphWorker.nodes st).
Proof.
apply (stop_start_adds_timer zero_random flat_cos flat_sin
         (GraphWorker.mkW [at_origin; half_away] (Some [])
            GraphWorker.default_params true [] 1 0) []).
reflexivity.
Defined.

Lemma worker_ids_distinct_witness :
tidy (GraphWorker.onmessage zero_random flat_cos flat_sin
        (GraphWorker.Init
           (GraphWorker.mkInit
              (Some [GraphWorker.mkNodeData "a" (Some "main");
                     GraphWorker.mkNodeData "a" None])
              (Some []) None))
        GraphWorker.initial).1.
Proof.
apply (worker_ids_distinct zero_random flat_cos flat_sin).
apply rtc_once. apply receives.
Defined.

(** * Further properties of the view *)

(** ** The local graph *)
Section LocalGraph.
Import GraphIndexer LoadGraph.

Variable edges : list GraphEdge.

(** Two ids joined by an edge, in either direction. *)
Definition linked (a b : string) : Prop :=
exists e, e ∈ edges /\ ((from e = a /\ to e = b) \/ (from e = b /\ to e = a)).

(** [b] is at most [n] edges away from [a]. *)
Definition within (n : nat) (a b : string) : Prop :=
exists k, k <= n /\ nsteps linked k a b.

Lemma within_step n a b c : within n a b -> linked b c -> within (S n) a c.
Proof.
intros (k & Hk & Hsteps) Hl. exists (S k). split; [lia|].
by eapply nsteps_r.
Qed.

Lemma within_mono n m a b : n <= m -> within n a b -> within m a b.
Proof. intros Hle (k & Hk & Hs). exists k. split; [lia|done]. Qed.

(** One edge of the loop, for a recursive call that only adds ids. *)
Lemma neighbor_step_grows recurse nodeId neighbors e :
(forall n s, s ⊆ recurse n s) ->
neighbors ⊆ neighbor_step recurse nodeId neighbors e.
Proof.
intros Hrec. unfold neighbor_step.
set (nb1 := if String.eqb (from e) nodeId && negb (bool_decide (to e ∈ neighbors))
            then recurse (to e) ({[to e]} ∪ neighbors) else neighbors).
assert (H1 : neighbors ⊆ nb1).
{ unfold nb1. destruct (String.eqb (from e) nodeId
                        && negb (bool_decide (to e ∈ neighbors))); [|reflexivity].
  etrans; [|apply Hrec]. apply union_subseteq_r. }
etrans; [exact H1|].
destruct (String.eqb (to e) nodeId && negb (bool_decide (from e ∈ nb1)));
  [|reflexivity].
etrans; [|apply Hrec]. apply union_subseteq_r.
Qed.

Lemma fold_neighbor_step_grows recurse nodeId es neighbors :
(forall n s, s ⊆ recurse n s) ->
neighbors ⊆ fold_left (neighbor_step recurse nodeId) es neighbors.
Proof.
intros Hrec. revert neighbors.
induction es as [|e es IH]; intros neighbors; simpl; [reflexivity|].
etrans; [|apply IH]. by apply neighbor_step_grows.
Qed.

(** The set only grows. *)
Lemma findNeighbors_grows levels nodeId neighbors :
neighbors ⊆ findNeighbors edges levels nodeId neighbors.
Proof.
revert nodeId neighbors. induction levels as [|levels IH];
  intros nodeId neighbors; simpl; [reflexivity|].
by apply fold_neighbor_step_grows.
Qed.

Lemma neighbor_step_within recurse root bound nodeId d neighbors e :
e ∈ edges ->
(forall n s, within (S d) root n ->
   (forall v, v ∈ s -> within bound root v) ->
   forall v, v ∈ recurse n s -> within bound root v) ->
within d root nodeId -> S d <= bound ->
(forall v, v ∈ neighbors -> within bound root v) ->
forall v, v ∈ neighbor_step recurse nodeId neighbors e -> within bound root v.
Proof.
intros He Hrec Hd Hle Hnb. unfold neighbor_step.
set (nb1 := if String.eqb (from e) nodeId && negb (bool_decide (to e ∈ neighbors))
            then recurse (to e) ({[to e]} ∪ neighbors) else neighbors).
assert (H1 : forall v, v ∈ nb1 -> within bound root v).
{ unfold nb1. destruct (String.eqb_spec (from e) nodeId) as [Hf|]; simpl; [|done].
  destruct (negb (bool_decide (to e ∈ neighbors))); [|done].
  assert (Hto : within (S d) root (to e)).
  { eapply within_step; [exact Hd|]. exists e. split; [done|]. by left. }
  apply Hrec; [done|].
  intros v Hv. apply elem_of_union in Hv as [Hv|Hv]; [|by apply Hnb].
  apply elem_of_singleton in Hv as ->. by eapply within_mono; [|exact Hto]. }
destruct (String.eqb_spec (to e) nodeId) as [Ht|]; simpl; [|done].
destruct (negb (bool_decide (from e ∈ nb1))); [|done].
assert (Hfrom : within (S d) root (from e)).
{ eapply within_step; [exact Hd|]. exists e. split; [done|]. by right. }
apply Hrec; [done|].
intros v Hv. apply elem_of_union in Hv as [Hv|Hv]; [|by apply H1].
apply elem_of_singleton in Hv as ->. by eapply within_mono; [|exact Hfrom].
Qed.

(** Every id the search adds is within the levels it was given. *)
Lemma findNeighbors_within root bound levels nodeId d neighbors :
within d root nodeId -> d + levels <= bound ->
(forall v, v ∈ neighbors -> within bound root v) ->
forall v, v ∈ findNeighbors edges levels nodeId neighbors -> within bound root v.
Proof.
revert nodeId d neighbors. induction levels as [|levels IH];
  intros nodeId d neighbors Hd Hle Hnb; simpl; [done|].
assert (Hgen : forall es nb,
  (forall e, e ∈ es -> e ∈ edges) ->
  (forall v, v ∈ nb -> within bound root v) ->
  forall v, v ∈ fold_left (neighbor_step (findNeighbors edges levels) nodeId) es nb ->
            within bound root v).
{ induction es as [|e es IHes]; intros nb Hes Hnb'; simpl; [done|].
  apply IHes; [intros e' He'; by apply Hes, list_elem_of_further|].
  apply (neighbor_step_within _ root bound nodeId d); try done.
  - apply Hes, list_elem_of_here.
  - intros n s Hn Hs. apply (IH n (S d)); [done|lia|done].
  - lia. }
by apply Hgen.
Qed.

Lemma neighbor_step_direct recurse nodeId neighbors e v :
(forall n s, s ⊆ recurse n s) ->
(from e = nodeId /\ to e = v) \/ (from e = v /\ to e = nodeId) ->
v ∈ neighbor_step recurse nodeId neighbors e.
Proof.
intros Hrec Hdir. unfold neighbor_step.
set (nb1 := if String.eqb (from e) nodeId && negb (bool_decide (to e ∈ neighbors))
            then recurse (to e) ({[to e]} ∪ neighbors) else neighbors).
destruct Hdir as [[Hf Ht]|[Hf Ht]].
- assert (Hv : v ∈ nb1).
  { unfold nb1. rewrite Hf, String.eqb_refl, Ht. simpl.
    case_bool_decide as Hv; simpl; [done|].
    apply Hrec. by apply elem_of_union_l, elem_of_singleton. }
  destruct (String.eqb (to e) nodeId && negb (bool_decide (from e ∈ nb1)));
    [|done].
  apply Hrec. by apply elem_of_union_r.
- rewrite Ht, String.eqb_refl, Hf. simpl.
  case_bool_decide as Hv; simpl; [done|].
  apply Hrec. by apply elem_of_union_l, elem_of_singleton.
Qed.

(** With at least one level, every id linked to the node is added. *)
Lemma findNeighbors_direct levels nodeId neighbors v :
linked nodeId v -> v ∈ findNeighbors edges (S levels) nodeId neighbors.
Proof.
intros (e & He & Hdir). simpl.
assert (Hgen : forall es nb, e ∈ es ->
  v ∈ fold_left (neighbor_step (findNeighbors edges levels) nodeId) es nb).
{ induction es as [|e' es IHes]; intros nb Hin.
  - by apply elem_of_nil in Hin.
  - simpl. apply elem_of_cons in Hin as [<-|Hin]; [|by apply IHes].
    apply fold_neighbor_step_grows; [apply findNeighbors_grows|].
    apply neighbor_step_direct; [apply findNeighbors_grows|done]. }
by apply Hgen.
Qed.

(** X16. The local graph of a node: the node itself is in it, every id in it is
    at most [maxDepth] edges away (edges taken in either direction), and
    with [maxDepth >= 1] every direct neighbour is in it. *)
Theorem findNeighbors_local (maxDepth : nat) (localId : string) :
let neighbors := findNeighbors edges maxDepth localId {[localId]} in
localId ∈ neighbors
/\ (forall v, v ∈ neighbors -> within maxDepth localId v)
/\ (1 <= maxDepth -> forall v, linked localId v -> v ∈ neighbors).
Proof.
simpl. split_and!.
- apply findNeighbors_grows. by apply elem_of_singleton.
- apply (findNeighbors_within localId maxDepth maxDepth localId 0).
  + exists 0. split; [lia|constructor].
  + lia.
  + intros v Hv. apply elem_of_singleton in Hv as ->.
    exists 0. split; [lia|constructor].
- intros Hd v Hl. destruct maxDepth as [|levels]; [lia|].
  by apply findNeighbors_direct.
Qed.

End LocalGraph.

(** An id two edges away can be left out: the search goes depth first and
    does not come back to an id it has already met deeper. *)
Example findNeighbors_misses :
let es := [GraphIndexer.mkEdge "A" "B" GraphIndexer.wikilink;
           GraphIndexer.mkEdge "B" "C" GraphIndexer.wikilink;
           GraphIndexer.mkEdge "A" "C" GraphIndexer.wikilink;
           GraphIndexer.mkEdge "C" "D" GraphIndexer.wikilink] in
bool_decide ("C" ∈ LoadGraph.findNeighbors es 2 "A" {["A"]}) = true
/\ bool_decide ("D" ∈ LoadGraph.findNeighbors es 2 "A" {["A"]}) = false.
Proof. vm_compute. done. Qed.

(** ** What [loadGraph] shows *)
Section Shown.
Import GraphIndexer LoadGraph.

Lemma filter_all {A} (f : A -> bool) (l : list A) :
(forall a, a ∈ l -> f a = true) -> List.filter f l = l.
Proof.
induction l as [|a l IH]; intros Hall; simpl; [done|].
rewrite (Hall a) by apply list_elem_of_here.
rewrite IH; [done|]. intros b Hb. by apply Hall, list_elem_of_further.
Qed.

Lemma filter_elem {A} (f : A -> bool) (l : list A) a :
a ∈ List.filter f l <-> a ∈ l /\ f a = true.
Proof. rewrite !list_elem_of_In. apply List.filter_In. Qed.

Lemma filter_is_sublist {A} (f : A -> bool) (l : list A) :
sublist (List.filter f l) l.
Proof.
induction l as [|a l IH]; simpl; [constructor|].
destruct (f a); by constructor.
Qed.

Lemma NoDup_sublist_helper {A} (l k : list A) :
NoDup k -> sublist l k -> NoDup l.
Proof. intros Hk Hs. by eapply sublist_NoDup. Qed.

Lemma visibleNodes_sublist settings g :
sublist (visibleNodes settings g) (nodes g).
Proof.
unfold visibleNodes.
destruct (localNodeId settings) as [localId|]; [|apply filter_is_sublist].
destruct (localMode settings && JS.truthy localId); [|apply filter_is_sublist].
etrans; apply filter_is_sublist.
Qed.

Lemma visibleNodes_passes settings g n :
n ∈ visibleNodes settings g -> passes settings n = true.
Proof.
unfold visibleNodes.
destruct (localNodeId settings) as [localId|];
  [destruct (localMode settings && JS.truthy localId)|];
  rewrite ?filter_elem; tauto.
Qed.

Lemma visibleNodes_within settings g localId n :
localMode settings = true -> localNodeId settings = Some localId ->
JS.truthy localId = true -> n ∈ visibleNodes settings g ->
within (edges g) (maxDepth settings) localId (node_id n).
Proof.
intros Hm Hl Ht. unfold visibleNodes. rewrite Hl, Hm, Ht. simpl.
rewrite filter_elem. intros [_ Hin]. apply bool_decide_eq_true in Hin.
revert Hin.
apply (findNeighbors_within (edges g) localId (maxDepth settings)
         (maxDepth settings) localId 0).
- exists 0. split; [lia|constructor].
- lia.
- intros v Hv. apply elem_of_singleton in Hv as ->.
  exists 0. split; [lia|constructor].
Qed.

Lemma passes_spec settings n :
passes settings n = true <->
minLinks settings <= degree n /\ (showOrphans settings = false -> 0 < degree n).
Proof.
unfold passes. destruct (showOrphans settings); simpl.
- destruct (Nat.ltb_spec (degree n) (minLinks settings)).
  + split; [done|]. intros [? _]. lia.
  + split; [|done]. intros _. split; [lia|done].
- destruct (Nat.eqb_spec (degree n) 0) as [H0|H0].
  + split; [done|]. intros [_ H]. specialize (H eq_refl). lia.
  + destruct (Nat.ltb_spec (degree n) (minLinks settings)).
    * split; [done|]. intros [? _]. lia.
    * split; [|done]. intros _. split; [lia|]. intros _. lia.
Qed.

Lemma visibleEdges_spec visible g e :
e ∈ visibleEdges visible g <->
e ∈ edges g /\ from e ∈ List.map node_id visible
/\ to e ∈ List.map node_id visible.
Proof.
unfold visibleEdges. rewrite filter_elem, andb_true_iff.
rewrite !bool_decide_eq_true, !elem_of_list_to_set. tauto.
Qed.

Lemma nodeData_ids ns :
List.map GraphView.id (List.map GraphView.nodeData_of ns)
= List.map node_id ns.
Proof. rewrite List.map_map. by apply List.map_ext. Qed.

(** X17. What [loadGraph] hands to the renderer and to the worker: the nodes
    are notes, in the order of the notes, each with at least [minLinks]
    links (and at least one when orphans are hidden), classified by its
    number of links; in local mode each is at most [maxDepth] edges of the
    whole graph away from the local node; the edges are exactly the edges
    of the graph with both ends shown. *)
Theorem loadGraph_filters (notes : list Note) (settings : GraphSettings)
  (physicsParams : GraphWorker.PartialParams) :
let g := (indexGraph notes initial).1 in
let res := loadGraph notes settings physicsParams in
let nodeDataArray := res.1.1 in
let edgeDataArray := res.1.2 in
let shown := List.map GraphView.id nodeDataArray in
sublist shown (List.map id notes)
/\ (forall nd, nd ∈ nodeDataArray ->
      minLinks settings <= GraphView.links nd
      /\ (showOrphans settings = false -> 0 < GraphView.links nd)
      /\ GraphView.type nd = GraphView.classify (Some (GraphView.links nd))
      /\ (forall localId, localMode settings = true ->
            localNodeId settings = Some localId -> JS.truthy localId = true ->
            within (edges g) (maxDepth settings) localId (GraphView.id nd)))
/\ (forall ed, ed ∈ edgeDataArray <->
      exists e, e ∈ edges g /\ ed = edgeData_of e
                /\ from e ∈ shown /\ to e ∈ shown).
Proof.
cbv zeta. unfold loadGraph. cbn [fst snd].
set (g := (indexGraph notes initial).1).
rewrite nodeData_ids. split_and!.
- rewrite <- (indexGraph_node_ids notes initial). fold g.
  apply (fmap_sublist node_id), visibleNodes_sublist.
- intros nd Hnd. apply list_elem_of_fmap in Hnd as (n & -> & Hn).
  pose proof (visibleNodes_passes _ _ _ Hn) as Hp.
  apply passes_spec in Hp as [Hmin Horph]. simpl.
  split_and!; [done|done|done|].
  intros localId Hm Hl Ht. by apply (visibleNodes_within settings).
- intros ed. rewrite list_elem_of_fmap. split.
  + intros (e & -> & He). apply visibleEdges_spec in He as (? & ? & ?).
    by exists e.
  + intros (e & He & -> & Hf & Ht). exists e. split; [done|].
    by apply visibleEdges_spec.
Qed.

(** X18. With orphans shown, no minimum of links and local mode off, as the
    view starts, every note and every edge of the graph is shown. *)
Theorem loadGraph_shows_all (notes : list Note) (settings : GraphSettings)
  (physicsParams : GraphWorker.PartialParams) :
showOrphans settings = true -> minLinks settings = 0 ->
localMode settings = false ->
let g := (indexGraph notes initial).1 in
let res := loadGraph notes settings physicsParams in
res.1.1 = List.map GraphView.nodeData_of (nodes g)
/\ List.map GraphView.id res.1.1 = List.map id notes
/\ List.map GraphView.label res.1.1 = List.map title notes
/\ res.1.2 = List.map edgeData_of (edges g).
Proof.
intros Ho Hmin Hm. cbv zeta. unfold loadGraph. cbn [fst snd].
set (g := (indexGraph notes initial).1).
assert (Hv : visibleNodes settings g = nodes g).
{ unfold visibleNodes. rewrite Hm. simpl.
  assert (Hf : List.filter (passes settings) (nodes g) = nodes g).
  { apply filter_all. intros n _. apply passes_spec. split; [lia|].
    rewrite Ho. done. }
  rewrite Hf. by destruct (localNodeId settings). }
rewrite Hv. split_and!.
- done.
- rewrite nodeData_ids. apply indexGraph_node_ids.
- rewrite List.map_map. rewrite <- (indexGraph_node_titles notes initial).
  by apply List.map_ext.
- f_equal. apply filter_all. intros e He.
  apply andb_true_iff. rewrite !bool_decide_eq_true, !elem_of_list_to_set.
  unfold g. rewrite indexGraph_node_ids. by apply indexGraph_edge_ends in He.
Qed.

End Shown.

Lemma loadGraph_shows_all_witness :
let g := (GraphIndexer.indexGraph [home; work; lonely] GraphIndexer.initial).1 in
let res := LoadGraph.loadGraph [home; work; lonely] LoadGraph.default_settings
             (GraphWorker.mkPartial None None None None None None) in
res.1.1 = List.map GraphView.nodeData_of (GraphIndexer.nodes g)
/\ List.map GraphView.id res.1.1
   = List.map GraphIndexer.id [home; work; lonely]
/\ List.map GraphView.label res.1.1
   = List.map GraphIndexer.title [home; work; lonely]
/\ res.1.2 = List.map LoadGraph.edgeData_of (GraphIndexer.edges g).
Proof.
apply (loadGraph_shows_all [home; work; lonely] LoadGraph.default_settings
         (GraphWorker.mkPartial None None None None None None));
  reflexivity.
Defined.

(** ** From the notes to the first frame *)
Section FirstFrame.
Import GraphIndexer LoadGraph.

Variable Math_random : nat -> float.
Variable Math_cos Math_sin : float -> float.

(** The mass the worker gives to a node with that many links. *)
Definition mass_of_links (links : nat) : float :=
if 3 <=? links then 2%float else if 1 <=? links then 1.5%float else 1%float.

Lemma mass_of_classify d :
GraphWorker.mass_of (Some (type_name (GraphView.classify (Some d))))
= mass_of_links d.
Proof.
unfold GraphView.classify, mass_of_links. cbv [from_option Datatypes.id].
destruct (3 <=? d); [reflexivity|]. destruct (1 <=? d); reflexivity.
Qed.

(** A well-formed [init] with distinct ids on a new worker. *)
Lemma init_on_new_worker nds eds physicsParams :
NoDup (List.map GraphWorker.nd_id nds) ->
let res := GraphWorker.onmessage Math_random Math_cos Math_sin
             (GraphWorker.Init
                (GraphWorker.mkInit (Some nds) (Some eds) (Some physicsParams)))
             GraphWorker.initial in
res.2 = GraphWorker.Completed
/\ GraphWorker.isRunning res.1 = true /\ GraphWorker.timers res.1 = 1
/\ GraphWorker.params res.1
   = GraphWorker.merge_params GraphWorker.default_params physicsParams
/\ List.map identity (GraphWorker.nodes res.1)
   = List.map (fun nd => (GraphWorker.nd_id nd,
                          GraphWorker.mass_of (GraphWorker.nd_type nd),
                          GraphWorker.nd_type nd)) nds
/\ GraphWorker.posted res.1
   = [List.map (fun n => GraphWorker.mkPos (GraphWorker.id n)
                           (GraphWorker.x n) (GraphWorker.y n))
               (GraphWorker.nodes res.1)].
Proof.
intros Hnd. cbv zeta. cbn [GraphWorker.onmessage].
unfold GraphWorker.initGraph. cbn - [fold_left GraphWorker.startSimulation].
pose proof (fold_seed_order Math_random Math_cos Math_sin nds ([], 0)) as Hseed.
cbn [fst snd List.map app] in Hseed. specialize (Hseed Hnd).
destruct (fold_left _ nds ([], 0)) as [ns k]. cbn [fst] in Hseed.
unfold GraphWorker.startSimulation. cbn [GraphWorker.isRunning].
match goal with |- context [GraphWorker.loop ?s] =>
  pose proof (loop_running s eds eq_refl eq_refl) as (H1 & H2 & H3 & H4 & H5 & H6);
  assert (Hp : GraphWorker.params (GraphWorker.loop s).1 = GraphWorker.params s)
    by (unfold GraphWorker.loop, GraphWorker.simulationStep; reflexivity);
  destruct (GraphWorker.loop s) as [st' o] end.
cbn [fst snd] in *. cbn in H2, H5, H6, Hp.
split_and!; try done. by rewrite H6.
Qed.

(** X19. The [init] message that [loadGraph] posts, received by a new worker,
    when the notes have distinct ids: nothing throws, the worker holds one
    node per shown note, in order, with the mass of its class, it is
    running with one timer pending, the physics parameters of the view
    override the defaults, and one message has been posted, which lists
    the shown notes in order. *)
Theorem loadGraph_first_frame (notes : list Note) (settings : GraphSettings)
  (physicsParams : GraphWorker.PartialParams) :
NoDup (List.map id notes) ->
let load := loadGraph notes settings physicsParams in
let res := GraphWorker.onmessage Math_random Math_cos Math_sin load.2
             GraphWorker.initial in
res.2 = GraphWorker.Completed
/\ GraphWorker.isRunning res.1 = true /\ GraphWorker.timers res.1 = 1
/\ GraphWorker.params res.1
   = GraphWorker.merge_params GraphWorker.default_params physicsParams
/\ List.map identity (GraphWorker.nodes res.1)
   = List.map (fun nd => (GraphView.id nd, mass_of_links (GraphView.links nd),
                          Some (type_name (GraphView.type nd)))) load.1.1
/\ exists positions, GraphWorker.posted res.1 = [positions]
     /\ List.map GraphWorker.pos_id positions = List.map GraphView.id load.1.1.
Proof.
intros Hnd. cbv zeta. unfold loadGraph, init_message. cbn [fst snd].
set (g := (indexGraph notes initial).1).
set (shown := List.map GraphView.nodeData_of (visibleNodes settings g)).
assert (Hshown : NoDup (List.map GraphView.id shown)).
{ unfold shown. rewrite nodeData_ids.
  assert (Hall : NoDup (List.map node_id (nodes g)))
    by (unfold g; by rewrite indexGraph_node_ids).
  eapply NoDup_sublist_helper; [exact Hall|].
  apply (fmap_sublist node_id), visibleNodes_sublist. }
match goal with |- context [GraphWorker.mkInit (Some ?nds) (Some ?eds) _] =>
  pose proof (init_on_new_worker nds eds physicsParams) as Hinit;
  set (payload := nds) in *; set (sent := eds) in * end.
assert (Hids : List.map GraphWorker.nd_id payload = List.map GraphView.id shown).
{ unfold payload. rewrite List.map_map. by apply List.map_ext. }
rewrite Hids in Hinit. destruct (Hinit Hshown) as (H1 & H2 & H3 & H4 & H5 & H6).
split_and!; try done.
- rewrite H5. unfold payload. rewrite List.map_map. apply List.map_ext_in.
  intros nd Hin. cbn [GraphWorker.nd_id GraphWorker.nd_type]. f_equal. f_equal.
  unfold shown in Hin. apply List.in_map_iff in Hin as (n & <- & _).
  apply mass_of_classify.
- eexists. split; [exact H6|].
  rewrite positions_ids, ids_of_identity, H5. unfold payload.
  rewrite !List.map_map. by apply List.map_ext.
Qed.

End FirstFrame.

Lemma loadGraph_first_frame_witness :
let load := LoadGraph.loadGraph [home; work; lonely] LoadGraph.default_settings
              (GraphWorker.mkPartial None None None None None None) in
let res := GraphWorker.onmessage zero_random flat_cos flat_sin load.2
             GraphWorker.initial in
res.2 = GraphWorker.Completed
/\ GraphWorker.isRunning res.1 = true /\ GraphWorker.timers res.1 = 1
/\ GraphWorker.params res.1
   = GraphWorker.merge_params GraphWorker.default_params
       (GraphWorker.mkPartial None None None None None None)
/\ List.map identity (GraphWorker.nodes res.1)
   = List.map (fun nd => (GraphView.id nd, mass_of_links (GraphView.links nd),
                          Some (LoadGraph.type_name (GraphView.type nd))))
              load.1.1
/\ exists positions, GraphWorker.posted res.1 = [positions]
     /\ List.map GraphWorker.pos_id positions = List.map GraphView.id load.1.1.
Proof.
apply (loadGraph_first_frame zero_random flat_cos flat_sin
         [home; work; lonely] LoadGraph.default_settings
         (GraphWorker.mkPartial None None None None None None)).
refine (bool_decide_unpack (NoDup _) _). vm_compute. exact I.
Defined.
